(** * Connection routing and bridge rendering (web-frontend/src/utils/routing.ts)

    A shallow embedding of the routing engine of the diagram editor and the
    properties its specification states about it.

    Numbers.  A TypeScript [number] is an IEEE-754 binary64 value; it is
    modelled by Rocq's primitive [float], whose operations are the same
    correctly rounded binary64 operations, with the same NaN, infinities and
    signed zeros.  [<], [>=] and [===] on numbers are [ltb], [leb] and [eqb].
    Identifiers and array indices are [number]s that hold integers: they are
    modelled by [Z], so that a negative index is an input.

    Exceptions.  Reading a property of [undefined] throws a TypeError; a
    function that can do so returns a [completion].

    Path strings.  [pathData] is built by concatenating " L x y" and
    " Q cx cy x y" pieces; it is modelled by the list of these commands, the
    numbers kept as numbers instead of their decimal rendering. *)

From Stdlib Require Import ZArith Floats Bool List Lia.
From stdpp Require Import base option list gmap.

Set Default Proof Using "Type".
Local Set Warnings "-inexact-float".
Local Open Scope float_scope.

Abbreviation number := float.

(** ** ECMAScript built-ins used by the module *)

Module Math.

Definition abs (v : number) : number := PrimFloat.abs v.
Definition sqrt (v : number) : number := PrimFloat.sqrt v.

(** [Math.min(...args)]: NaN if any argument is NaN; otherwise the running
    lowest value starting from +Infinity, with -0 below +0. *)
Fixpoint min_from (lowest : number) (args : list number) : number :=
  match args with
  | [] => lowest
  | n :: rest =>
      if is_nan n then nan
      else
        let lowest :=
          if PrimFloat.Leibniz.eqb n neg_zero && PrimFloat.Leibniz.eqb lowest zero
          then neg_zero else lowest in
        min_from (if n <? lowest then n else lowest) rest
  end.

Definition min (args : list number) : number := min_from infinity args.

(** [Math.max(...args)]: the mirror image, starting from -Infinity, with
    +0 above -0. *)
Fixpoint max_from (highest : number) (args : list number) : number :=
  match args with
  | [] => highest
  | n :: rest =>
      if is_nan n then nan
      else
        let highest :=
          if PrimFloat.Leibniz.eqb n zero && PrimFloat.Leibniz.eqb highest neg_zero
          then zero else highest in
        max_from (if highest <? n then n else highest) rest
  end.

Definition max (args : list number) : number := max_from neg_infinity args.

End Math.

(** [Array.prototype.sort(compareFn)] is a stable sort: for a comparator
    that is a consistent ordering, the result is the one an insertion sort
    produces that places each element after the elements it does not
    precede. [compareFn a b < 0] means [a] comes first. *)
Fixpoint sort_insert {A} (compareFn : A → A → number) (a : A) (l : list A) : list A :=
  match l with
  | [] => [a]
  | b :: l' =>
      if compareFn a b <? 0 then a :: b :: l'
      else b :: sort_insert compareFn a l'
  end.

Definition Array_sort {A} (compareFn : A → A → number) (l : list A) : list A :=
  fold_left (fun sorted a => sort_insert compareFn a sorted) l [].

(** [arr[i]]: the element at an integer index, [undefined] ([None]) at any
    index that addresses no element, negative ones included. *)
Definition Array_get {A} (arr : list A) (i : Z) : option A :=
  if (i <? 0)%Z then None else arr !! Z.to_nat i.

(** Consecutive pairs [(l[i], l[i+1])], for [i] from 0 to [length l - 2]. *)
Fixpoint consecutive {A} (l : list A) : list (A * A) :=
  match l with
  | a :: (b :: _) as l' => (a, b) :: consecutive l'
  | _ => []
  end.

(** ** Completions: a value returned, or an exception thrown *)

Variant JsError := TypeError.

Variant completion (A : Type) :=
  | Return (a : A)
  | Throw (e : JsError).
Arguments Return {A} a.
Arguments Throw {A} e.

#[global] Instance completion_ret : MRet completion := fun A a => Return a.
#[global] Instance completion_bind : MBind completion := fun A B f c =>
  match c with
  | Return a => f a
  | Throw e => Throw e
  end.

(** ** Data model *)

Module Point.
Record t := mk { x : number; y : number }.
End Point.
Abbreviation Point := Point.t.
Abbreviation Vector := Point.t.

Module Rect.
Record t := mk { x : number; y : number; width : number; height : number }.
End Rect.
Abbreviation Rect := Rect.t.

(** An attachment point, in percent of the rendered box. *)
Module Grip.
Record t := mk { x : number; y : number }.
End Grip.
Abbreviation Grip := Grip.t.

(** [CanvasItem] and [Connection] are declared in components/Canvas/types;
    the fields are the ones routing.ts reads.  [grips] and [waypoints] may
    be absent ([undefined]). *)
Module CanvasItem.
Record t := mk {
  id : Z;
  x : number;
  y : number;
  width : number;
  height : number;
  naturalWidth : number;
  naturalHeight : number;
  grips : option (list Grip);
}.
End CanvasItem.
Abbreviation CanvasItem := CanvasItem.t.

Module Connection.
Record t := mk {
  id : Z;
  sourceItemId : Z;
  sourceGripIndex : Z;
  targetItemId : Z;
  targetGripIndex : Z;
  waypoints : option (list Point);
}.
End Connection.
Abbreviation Connection := Connection.t.

Module LineSegment.
Record t := mk {
  p1 : Point;
  p2 : Point;
  lineId : Z;
  dir : Vector;
  len : number;
}.
End LineSegment.
Abbreviation LineSegment := LineSegment.t.

(** An element of [rawLines]. *)
Module RawLine.
Record t := mk { id : Z; segments : list LineSegment }.
End RawLine.
Abbreviation RawLine := RawLine.t.

(** An element of [intersections]. *)
Module Intersection.
Record T := mk { t : number; otherId : Z }.
End Intersection.
Abbreviation Intersection := Intersection.T.

(** One drawing command of a path string. *)
Variant PathCommand :=
  | M (p : Point)
  | L (p : Point)
  | Q (control : Point) (p : Point).

(** The record returned for each connection.  [arrowAngle] is computed from
    [Math.atan2], which ECMAScript leaves implementation-approximated; no
    property below reads it and the field is not modelled. *)
Module PathMetadata.
Record t := mk {
  pathData : list PathCommand;
  endPoint : option Point;
  waypoints : option (list Point);
}.
End PathMetadata.
Abbreviation PathMetadata := PathMetadata.t.

Variant Side := top | bottom | left | right.

(** ** Constants *)

Definition BRIDGE_SIZE : number := 12.
Definition BRIDGE_HEIGHT : number := 12.
Definition STANDOFF_DIST : number := 20.

(** ** The layout helper

    [calculateAspectFit] is imported from ./layout; routing.ts is
    parametric in it. *)
Class Layout := calculateAspectFit : number → number → number → number → Rect.

(** Modelled from the spec: ./layout's [calculateAspectFit] is not among the
    sources.  "Center the natural aspect ratio inside the allotted box,
    scaled to fit without cropping - same algorithm a letterboxing image
    viewer would use." *)
Definition letterbox (width height naturalWidth naturalHeight : number) : Rect :=
  let scale := Math.min [width / naturalWidth; height / naturalHeight] in
  let renderWidth := naturalWidth * scale in
  let renderHeight := naturalHeight * scale in
  {| Rect.x := (width - renderWidth) / 2;
     Rect.y := (height - renderHeight) / 2;
     Rect.width := renderWidth;
     Rect.height := renderHeight |}.

Section Routing.
Context {layout : Layout}.

(** *** Helper functions *)

Definition getGripPosition (item : CanvasItem) (gripIndex : Z)
  : completion (option Point) :=
  match CanvasItem.grips item with
  | None => Return None
  | Some grips =>
      if (Z.of_nat (length grips) <=? gripIndex)%Z then Return None
      else
        let r := calculateAspectFit (CanvasItem.width item) (CanvasItem.height item)
                   (CanvasItem.naturalWidth item) (CanvasItem.naturalHeight item) in
        let renderX := Rect.x r in
        let renderY := Rect.y r in
        let renderWidth := Rect.width r in
        let renderHeight := Rect.height r in
        match Array_get grips gripIndex with
        | None => Throw TypeError (* [grip] is [undefined]: [grip.x] throws *)
        | Some grip =>
            let x := (CanvasItem.x item + renderX) + (Grip.x grip / 100) * renderWidth in
            let y := (CanvasItem.y item + renderY) + ((100 - Grip.y grip) / 100) * renderHeight in
            Return (Some {| Point.x := x; Point.y := y |})
        end
  end.

Definition getItemRects (items : list CanvasItem) : list Rect :=
  map (fun item =>
         let r := calculateAspectFit (CanvasItem.width item) (CanvasItem.height item)
                    (CanvasItem.naturalWidth item) (CanvasItem.naturalHeight item) in
         {| Rect.x := CanvasItem.x item + Rect.x r;
            Rect.y := CanvasItem.y item + Rect.y r;
            Rect.width := Rect.width r;
            Rect.height := Rect.height r |})
      items.

Definition segmentHitsRect (p1 p2 : Point) (r : Rect) : bool :=
  let minX := Math.min [Point.x p1; Point.x p2] in
  let maxX := Math.max [Point.x p1; Point.x p2] in
  let minY := Math.min [Point.y p1; Point.y p2] in
  let maxY := Math.max [Point.y p1; Point.y p2] in
  negb ((maxX <? Rect.x r)
        || (Rect.x r + Rect.width r <? minX)
        || (maxY <? Rect.y r)
        || (Rect.y r + Rect.height r <? minY)).

(** The four candidate bend sequences of [smartRoute], in the order they
    are pushed. *)
Definition candidates (start end_ : Point) : list (list Point) :=
  let midX := (Point.x start + Point.x end_) / 2 in
  let midY := (Point.y start + Point.y end_) / 2 in
  [ [ {| Point.x := Point.x end_; Point.y := Point.y start |} ];
    [ {| Point.x := Point.x start; Point.y := Point.y end_ |} ];
    [ {| Point.x := midX; Point.y := Point.y start |};
      {| Point.x := midX; Point.y := Point.y end_ |} ];
    [ {| Point.x := Point.x start; Point.y := midY |};
      {| Point.x := Point.x end_; Point.y := midY |} ] ].

Definition hitsObstacle (start end_ : Point) (obstacles : list Rect)
    (pts : list Point) : bool :=
  let full := start :: pts ++ [end_] in
  existsb (fun '(a, b) => existsb (segmentHitsRect a b) obstacles)
          (consecutive full).

Definition smartRoute (start end_ : Point) (items : list CanvasItem) : list Point :=
  let obstacles := getItemRects items in
  let cs := candidates start end_ in
  match find (fun c => negb (hitsObstacle start end_ obstacles c)) cs with
  | Some c => c
  | None => nth 0 cs []
  end.

(** *** Vector helpers *)

Definition sub (a b : Point) : Vector :=
  {| Point.x := Point.x a - Point.x b; Point.y := Point.y a - Point.y b |}.
Definition add (a : Point) (b : Vector) : Point :=
  {| Point.x := Point.x a + Point.x b; Point.y := Point.y a + Point.y b |}.
Definition mult (v : Vector) (s : number) : Vector :=
  {| Point.x := Point.x v * s; Point.y := Point.y v * s |}.
Definition len (v : Vector) : number :=
  Math.sqrt (Point.x v * Point.x v + Point.y v * Point.y v).
Definition normalize (v : Vector) : Vector :=
  let l := len v in
  if l =? 0 then {| Point.x := 0; Point.y := 0 |}
  else {| Point.x := Point.x v / l; Point.y := Point.y v / l |}.
Definition perp (v : Vector) : Vector :=
  {| Point.x := - Point.y v; Point.y := Point.x v |}.

Definition buffer : number := 0.001.

Definition getIntersectionT (seg1 seg2 : LineSegment) : option number :=
  let p := LineSegment.p1 seg1 in
  let r := sub (LineSegment.p2 seg1) (LineSegment.p1 seg1) in
  let q := LineSegment.p1 seg2 in
  let s := sub (LineSegment.p2 seg2) (LineSegment.p1 seg2) in
  let rXs := Point.x r * Point.y s - Point.y r * Point.x s in
  if Math.abs rXs <? 1e-5 then None
  else
    let qp := sub q p in
    let t := (Point.x qp * Point.y s - Point.y qp * Point.x s) / rXs in
    let u := (Point.x qp * Point.y r - Point.y qp * Point.x r) / rXs in
    if (buffer <? t) && (t <? 1 - buffer) && (buffer <? u) && (u <? 1 - buffer)
    then Some (t * LineSegment.len seg1)
    else None.

(** *** Standoff *)

Definition getClosestSide (g : option Grip) : Side :=
  match g with
  | None => bottom
  | Some g =>
      let distLeft := Grip.x g in
      let distRight := 100 - Grip.x g in
      let distTop := 100 - Grip.y g in
      let distBottom := Grip.y g in
      let min := Math.min [distLeft; distRight; distTop; distBottom] in
      if min =? distLeft then left
      else if min =? distRight then right
      else if min =? distTop then top
      else bottom
  end.

(** The two [return p] exits of the source are unreachable: [side] is one
    of four non-empty strings. *)
Definition getStandoff (p : Point) (grip : option Grip) : Point :=
  match getClosestSide grip with
  | left => {| Point.x := Point.x p - STANDOFF_DIST; Point.y := Point.y p |}
  | right => {| Point.x := Point.x p + STANDOFF_DIST; Point.y := Point.y p |}
  | top => {| Point.x := Point.x p; Point.y := Point.y p - STANDOFF_DIST |}
  | bottom => {| Point.x := Point.x p; Point.y := Point.y p + STANDOFF_DIST |}
  end.

(** *** calculateManualPathsWithBridges *)

(** Lines 268-285: the segments between consecutive points, zero-length
    (and NaN-length) pairs dropped. *)
Definition buildSegments (connId : Z) (points : list Point) : list LineSegment :=
  omap (fun '(p1, p2) =>
          let diff := sub p2 p1 in
          let l := len diff in
          if 0 <? l
          then Some {| LineSegment.p1 := p1;
                       LineSegment.p2 := p2;
                       LineSegment.lineId := connId;
                       LineSegment.dir := normalize diff;
                       LineSegment.len := l |}
          else None)
       (consecutive points).

(** Lines 253-266: the bends of a connection and its full point list. *)
Definition connectionBends (conn : Connection) (items : list CanvasItem)
    (startStandoff endStandoff : Point) : list Point :=
  match Connection.waypoints conn with
  | Some ((_ :: _) as waypoints) => waypoints
  | _ => smartRoute startStandoff endStandoff items
  end.

Definition connectionPoints (start startStandoff : Point) (bends : list Point)
    (endStandoff end_ : Point) : list Point :=
  [start; startStandoff] ++ bends ++ [endStandoff] ++ [end_].

(** Lines 236-286: the body of the first loop for one connection.  [None]
    is [continue]; otherwise the line pushed on [rawLines] and the bends
    stored in [connectionWaypoints]. *)
Definition routeConnection (conn : Connection) (items : list CanvasItem)
  : completion (option (RawLine * list Point)) :=
  let source := find (fun i => (CanvasItem.id i =? Connection.sourceItemId conn)%Z) items in
  let target := find (fun i => (CanvasItem.id i =? Connection.targetItemId conn)%Z) items in
  match source, target with
  | Some source, Some target =>
      start ← getGripPosition source (Connection.sourceGripIndex conn);
      end_ ← getGripPosition target (Connection.targetGripIndex conn);
      match start, end_ with
      | Some start, Some end_ =>
          let sourceGrip :=
            grips ← CanvasItem.grips source;
            Array_get grips (Connection.sourceGripIndex conn) in
          let targetGrip :=
            grips ← CanvasItem.grips target;
            Array_get grips (Connection.targetGripIndex conn) in
          let startStandoff := getStandoff start sourceGrip in
          let endStandoff := getStandoff end_ targetGrip in
          let bends := connectionBends conn items startStandoff endStandoff in
          let points := connectionPoints start startStandoff bends endStandoff end_ in
          Return (Some ({| RawLine.id := Connection.id conn;
                           RawLine.segments := buildSegments (Connection.id conn) points |},
                        bends))
      | _, _ => Return None
      end
  | _, _ => Return None
  end.

(** Lines 235-287: the first loop, threading [rawLines] and
    [connectionWaypoints]. *)
Fixpoint buildGeometry (connections : list Connection) (items : list CanvasItem)
    (rawLines : list RawLine) (connectionWaypoints : gmap Z (list Point))
  : completion (list RawLine * gmap Z (list Point)) :=
  match connections with
  | [] => Return (rawLines, connectionWaypoints)
  | conn :: rest =>
      r ← routeConnection conn items;
      match r with
      | None => buildGeometry rest items rawLines connectionWaypoints
      | Some (line, bends) =>
          buildGeometry rest items (rawLines ++ [line])
            (<[Connection.id conn := bends]> connectionWaypoints)
      end
  end.

(** Lines 305-319: the crossings recorded on [seg]. *)
Definition findIntersections (seg : LineSegment) (allSegments : list LineSegment)
  : list Intersection :=
  omap (fun otherSeg =>
          if (LineSegment.lineId otherSeg =? LineSegment.lineId seg)%Z then None
          else if (LineSegment.lineId seg <? LineSegment.lineId otherSeg)%Z then None
          else
            match getIntersectionT seg otherSeg with
            | Some t => Some {| Intersection.t := t;
                                Intersection.otherId := LineSegment.lineId otherSeg |}
            | None => None
            end)
       allSegments.

(** Lines 334-335: the interval of the bridge over a crossing at
    [centerT], given how far the segment has been drawn. *)
Definition bridgeStart (currentT centerT : number) : number :=
  Math.max [currentT; centerT - BRIDGE_SIZE].
Definition bridgeEnd (seg : LineSegment) (centerT : number) : number :=
  Math.min [LineSegment.len seg; centerT + BRIDGE_SIZE].

(** Lines 340-351: the two commands of an accepted bridge. *)
Definition bridgeCommands (seg : LineSegment) (startT centerT endT : number)
  : list PathCommand :=
  let p1 := LineSegment.p1 seg in
  let dir := LineSegment.dir seg in
  let normal := perp dir in
  let bridgeStartPos := add p1 (mult dir startT) in
  let bridgeEndPos := add p1 (mult dir endT) in
  let centerPos := add p1 (mult dir centerT) in
  let controlPos := add centerPos (mult normal (BRIDGE_HEIGHT * 2)) in
  [L bridgeStartPos; Q controlPos bridgeEndPos].

(** Lines 331-354: one iteration over [intersections]; the state is
    [(currentT, pathData)]. *)
Definition bridgeStep (seg : LineSegment) (st : number * list PathCommand)
    (inter : Intersection) : number * list PathCommand :=
  let '(currentT, pathData) := st in
  let centerT := Intersection.t inter in
  let startT := bridgeStart currentT centerT in
  let endT := bridgeEnd seg centerT in
  if endT <=? startT then st
  else (endT, pathData ++ bridgeCommands seg startT centerT endT).

(** Lines 303-360: one iteration over [line.segments]. *)
Definition renderSegment (allSegments : list LineSegment)
    (pathData : list PathCommand) (seg : LineSegment) : list PathCommand :=
  let intersections :=
    Array_sort (fun a b => Intersection.t a - Intersection.t b)
      (findIntersections seg allSegments) in
  let '(_, pathData) := fold_left (bridgeStep seg) intersections (0, pathData) in
  pathData ++ [L (LineSegment.p2 seg)].

Definition arrowOffset : number := 4.5.

(** Lines 295-390: one iteration over [rawLines]. *)
Definition renderLine (allSegments : list LineSegment)
    (connectionWaypoints : gmap Z (list Point)) (line : RawLine) : PathMetadata :=
  let pathData :=
    match RawLine.segments line with
    | seg0 :: _ => [M (LineSegment.p1 seg0)]
    | [] => []
    end in
  let pathData := fold_left (renderSegment allSegments) (RawLine.segments line) pathData in
  let endPoint :=
    lastSeg ← last (RawLine.segments line);
    Some {| Point.x := Point.x (LineSegment.p2 lastSeg)
                       - Point.x (LineSegment.dir lastSeg) * arrowOffset;
            Point.y := Point.y (LineSegment.p2 lastSeg)
                       - Point.y (LineSegment.dir lastSeg) * arrowOffset |} in
  {| PathMetadata.pathData := pathData;
     PathMetadata.endPoint := endPoint;
     PathMetadata.waypoints := connectionWaypoints !! RawLine.id line |}.

Definition renderLines (rawLines : list RawLine)
    (connectionWaypoints : gmap Z (list Point)) : gmap Z PathMetadata :=
  let allSegments := flat_map RawLine.segments rawLines in
  fold_left (fun finalPaths line =>
               <[RawLine.id line := renderLine allSegments connectionWaypoints line]> finalPaths)
            rawLines ∅.

Definition calculateManualPathsWithBridges (connections : list Connection)
    (items : list CanvasItem) : completion (gmap Z PathMetadata) :=
  '(rawLines, connectionWaypoints) ← buildGeometry connections items [] ∅;
  Return (renderLines rawLines connectionWaypoints).

End Routing.

(** ** The order of binary64 values

    Comparisons of primitive floats are specified on [spec_float]; the
    definitions below give that order a form linear arithmetic can use. *)

(** The position of a non-NaN value in the order of the extended reals, as a
    triple compared lexicographically. *)
Definition rank (f : spec_float) : Z * Z * Z :=
  match f with
  | S754_zero _ => (0, 0, 0)%Z
  | S754_infinity false => (2, 0, 0)%Z
  | S754_infinity true => (-2, 0, 0)%Z
  | S754_nan => (0, 0, 0)%Z
  | S754_finite false m e => (1, e, Zpos m)%Z
  | S754_finite true m e => (-1, - e, Zneg m)%Z
  end.

Definition lex_lt (a b : Z * Z * Z) : Prop :=
  let '(a1, a2, a3) := a in
  let '(b1, b2, b3) := b in
  (a1 < b1 ∨ (a1 = b1 ∧ (a2 < b2 ∨ (a2 = b2 ∧ a3 < b3))))%Z.

Definition lex_le (a b : Z * Z * Z) : Prop :=
  let '(a1, a2, a3) := a in
  let '(b1, b2, b3) := b in
  (a1 < b1 ∨ (a1 = b1 ∧ (a2 < b2 ∨ (a2 = b2 ∧ a3 ≤ b3))))%Z.

Definition lex_compare (a b : Z * Z * Z) : comparison :=
  let '(a1, a2, a3) := a in
  let '(b1, b2, b3) := b in
  match (a1 ?= b1)%Z with
  | Eq => match (a2 ?= b2)%Z with Eq => (a3 ?= b3)%Z | c => c end
  | c => c
  end.

Definition frank (x : float) : Z * Z * Z := rank (Prim2SF x).

(** ** Notions the properties are stated with *)

(** ECMAScript's SameValueZero: the same number, the two zeros identified. *)
Definition SameValueZero (a b : number) : Prop := a = b ∨ (a =? b) = true.

(** The nearest side of a grip as the data model words it: the side whose
    percentage distance is minimal, the first such side in the order left,
    right, top, bottom. *)
Definition nearestSide (g : Grip) : Side :=
  let distLeft := Grip.x g in
  let distRight := 100 - Grip.x g in
  let distTop := 100 - Grip.y g in
  let distBottom := Grip.y g in
  let minimal d := forallb (λ other, d <=? other) [distLeft; distRight; distTop; distBottom] in
  if minimal distLeft then left
  else if minimal distRight then right
  else if minimal distTop then top
  else bottom.

(** A point moved by [d] away from the item through the given side. *)
Definition offsetPoint (p : Point) (side : Side) (d : number) : Point :=
  match side with
  | left => {| Point.x := Point.x p - d; Point.y := Point.y p |}
  | right => {| Point.x := Point.x p + d; Point.y := Point.y p |}
  | top => {| Point.x := Point.x p; Point.y := Point.y p - d |}
  | bottom => {| Point.x := Point.x p; Point.y := Point.y p + d |}
  end.

(** The 2D cross product, the vector of a segment, and the parameters [t]
    and [u] of the solution of [P + tR = Q + uS]. *)
Definition cross (r s : Vector) : number :=
  Point.x r * Point.y s - Point.y r * Point.x s.

Definition segmentVector (seg : LineSegment) : Vector :=
  {| Point.x := Point.x (LineSegment.p2 seg) - Point.x (LineSegment.p1 seg);
     Point.y := Point.y (LineSegment.p2 seg) - Point.y (LineSegment.p1 seg) |}.

Definition paramT (seg1 seg2 : LineSegment) : number :=
  let qp := {| Point.x := Point.x (LineSegment.p1 seg2) - Point.x (LineSegment.p1 seg1);
               Point.y := Point.y (LineSegment.p1 seg2) - Point.y (LineSegment.p1 seg1) |} in
  cross qp (segmentVector seg2) / cross (segmentVector seg1) (segmentVector seg2).

Definition paramU (seg1 seg2 : LineSegment) : number :=
  let qp := {| Point.x := Point.x (LineSegment.p1 seg2) - Point.x (LineSegment.p1 seg1);
               Point.y := Point.y (LineSegment.p1 seg2) - Point.y (LineSegment.p1 seg1) |} in
  cross qp (segmentVector seg1) / cross (segmentVector seg1) (segmentVector seg2).

(** Strictly inside (0.001, 1 - 0.001). *)
Definition strictlyInside (v : number) : Prop :=
  (0.001 <? v) = true ∧ (v <? 1 - 0.001) = true.

(** Two points on one horizontal or one vertical line. *)
Definition aligned (a b : Point) : Prop :=
  Point.x a = Point.x b ∨ Point.y a = Point.y b.

Definition axisAligned (seg : LineSegment) : Prop :=
  aligned (LineSegment.p1 seg) (LineSegment.p2 seg).

(** A candidate bend sequence is accepted when none of the segments from
    [start] through its bends to [end_] overlaps an obstacle rectangle by the
    bounding-box test [segmentHitsRect]. *)
Definition accepted {layout : Layout} (start end_ : Point) (items : list CanvasItem)
    (c : list Point) : Prop :=
  ∀ a b r, (a, b) ∈ consecutive (start :: c ++ [end_]) →
           r ∈ getItemRects items →
           segmentHitsRect a b r = false.

(** *** Bridges

    A bridge drawn on a segment: how far the segment had been drawn when
    the crossing was reached ([fromT], the [currentT] of the loop), the
    interval [startT, endT] of the bridge and the distance [centerT] of the
    crossing. *)
Module Bridge.
Record t := mk { fromT : number; startT : number; centerT : number; endT : number }.
End Bridge.
Abbreviation Bridge := Bridge.t.

(** The bridges the loop over [intersections] accepts, in order, starting
    with the segment drawn up to [currentT]. *)
Fixpoint acceptedBridges (seg : LineSegment) (currentT : number)
    (intersections : list Intersection) : list Bridge :=
  match intersections with
  | [] => []
  | inter :: rest =>
      let centerT := Intersection.t inter in
      let startT := bridgeStart currentT centerT in
      let endT := bridgeEnd seg centerT in
      if endT <=? startT then acceptedBridges seg currentT rest
      else {| Bridge.fromT := currentT; Bridge.startT := startT;
              Bridge.centerT := centerT; Bridge.endT := endT |}
           :: acceptedBridges seg endT rest
  end.

(** The crossings of a segment in the order the loop visits them. *)
Definition sortedIntersections (seg : LineSegment) (allSegments : list LineSegment)
  : list Intersection :=
  Array_sort (fun a b => Intersection.t a - Intersection.t b)
    (findIntersections seg allSegments).

Definition bridgesOf (seg : LineSegment) (allSegments : list LineSegment) : list Bridge :=
  acceptedBridges seg 0 (sortedIntersections seg allSegments).

(** The commands of a bridge, and of a whole segment. *)
Definition bridgePath (seg : LineSegment) (b : Bridge) : list PathCommand :=
  bridgeCommands seg (Bridge.startT b) (Bridge.centerT b) (Bridge.endT b).

Definition segmentPath (allSegments : list LineSegment) (seg : LineSegment)
  : list PathCommand :=
  flat_map (bridgePath seg) (bridgesOf seg allSegments) ++ [L (LineSegment.p2 seg)].

(** What holds of every accepted bridge: its interval is not empty, starts
    where the segment had been drawn to or 12 before the crossing, whichever
    is later, ends at the end of the segment or 12 after the crossing,
    whichever is earlier, and lies within the segment. *)
Definition wellFormedBridge (seg : LineSegment) (b : Bridge) : Prop :=
  Bridge.startT b = bridgeStart (Bridge.fromT b) (Bridge.centerT b)
  ∧ Bridge.endT b = bridgeEnd seg (Bridge.centerT b)
  ∧ (Bridge.startT b <? Bridge.endT b) = true
  ∧ (0 <=? Bridge.fromT b) = true
  ∧ (Bridge.fromT b <=? Bridge.startT b) = true
  ∧ (0 <=? Bridge.startT b) = true
  ∧ (Bridge.endT b <=? LineSegment.len seg) = true
  ∧ (Bridge.centerT b - BRIDGE_SIZE <=? Bridge.startT b) = true
  ∧ (Bridge.endT b <=? Bridge.centerT b + BRIDGE_SIZE) = true
  ∧ ((Bridge.fromT b <? Bridge.centerT b) = true →
     (Bridge.centerT b - BRIDGE_SIZE <? Bridge.centerT b) = true →
     (Bridge.startT b <? Bridge.centerT b) = true)
  ∧ ((Bridge.centerT b <? LineSegment.len seg) = true →
     (Bridge.centerT b <? Bridge.centerT b + BRIDGE_SIZE) = true →
     (Bridge.centerT b <? Bridge.endT b) = true).

(** The control point of the curve that jumps over a crossing at distance
    [centerT] along [seg], and a path with a curve there. *)
Definition controlPoint (seg : LineSegment) (centerT : number) : Point :=
  add (add (LineSegment.p1 seg) (mult (LineSegment.dir seg) centerT))
      (mult (perp (LineSegment.dir seg)) (BRIDGE_HEIGHT * 2)).

Definition bridgedAt (pathData : list PathCommand) (seg : LineSegment)
    (centerT : number) : Prop :=
  ∃ p, Q (controlPoint seg centerT) p ∈ pathData.

(** A bridge whose interval contains the distance [d]: it starts at or
    before [d] and ends after it. *)
Definition spans (b : Bridge) (d : number) : Prop :=
  (Bridge.startT b <=? d) = true ∧ (d <? Bridge.endT b) = true.

(** "The path has a bridge at the crossing point", at distance [d] along
    [seg], can be read in two ways: a curve of the path is drawn over the
    point (the interval of a bridge of the segment contains [d]), or a curve
    of the path is centred on the point. *)
Definition curveOver (allSegments : list LineSegment) (pathData : list PathCommand)
    (seg : LineSegment) (d : number) : Prop :=
  ∃ b p, b ∈ bridgesOf seg allSegments ∧ spans b d
         ∧ Q (controlPoint seg (Bridge.centerT b)) p ∈ pathData.

Definition curveCentred (allSegments : list LineSegment) (pathData : list PathCommand)
    (seg : LineSegment) (d : number) : Prop :=
  bridgedAt pathData seg d.

(** The tie-break rule as the specification words it, under a reading
    [bridgeAt] of "a bridge at the crossing point": for lines i < j of one
    pass with crossing segments, the path of j has a bridge at the crossing
    point and the path of i has none there. *)
Definition tieBreakAsStated {layout : Layout}
    (bridgeAt : list LineSegment → list PathCommand → LineSegment → number → Prop)
    (connections : list Connection) (items : list CanvasItem) : Prop :=
  ∀ rawLines connectionWaypoints line_i line_j seg_i seg_j d_i d_j pm_i pm_j,
    buildGeometry connections items [] ∅ = Return (rawLines, connectionWaypoints) →
    line_i ∈ rawLines → line_j ∈ rawLines →
    (RawLine.id line_i < RawLine.id line_j)%Z →
    seg_i ∈ RawLine.segments line_i → seg_j ∈ RawLine.segments line_j →
    getIntersectionT seg_i seg_j = Some d_i →
    getIntersectionT seg_j seg_i = Some d_j →
    renderLines rawLines connectionWaypoints !! RawLine.id line_i = Some pm_i →
    renderLines rawLines connectionWaypoints !! RawLine.id line_j = Some pm_j →
    let allSegments := flat_map RawLine.segments rawLines in
    bridgeAt allSegments (PathMetadata.pathData pm_j) seg_j d_j
    ∧ ¬ bridgeAt allSegments (PathMetadata.pathData pm_i) seg_i d_i.

(** How far the loop over [intersections] has drawn the segment when it
    has gone through them, starting from [currentT]: the [currentT] of the
    source after these iterations. *)
Definition drawnTo (seg : LineSegment) (currentT : number)
    (intersections : list Intersection) : number :=
  (fold_left (bridgeStep seg) intersections (currentT, [])).1.

(** Bridge containment as the specification words it. *)
Definition bridgeContainmentAsStated {layout : Layout} (connections : list Connection)
    (items : list CanvasItem) : Prop :=
  ∀ rawLines connectionWaypoints line seg b,
    buildGeometry connections items [] ∅ = Return (rawLines, connectionWaypoints) →
    line ∈ rawLines → seg ∈ RawLine.segments line →
    b ∈ bridgesOf seg (flat_map RawLine.segments rawLines) →
    (Bridge.startT b <? Bridge.centerT b) = true
    ∧ (Bridge.centerT b <? Bridge.endT b) = true
    ∧ (0 <=? Bridge.startT b) = true
    ∧ (Bridge.endT b <=? LineSegment.len seg) = true.

(** A connection that the first loop does not skip. *)
Definition routable {layout : Layout} (conn : Connection) (items : list CanvasItem) : Prop :=
  ∃ line bends, routeConnection conn items = Return (Some (line, bends)).

(** ** Example diagrams

    Items are 10x10 boxes with one grip each; [wire] connects grip 0 of two
    items and is routed automatically.  The layout is [letterbox]. *)

Definition specLayout : Layout := letterbox.

Definition box (id : Z) (x y : number) (g : Grip) : CanvasItem :=
  {| CanvasItem.id := id; CanvasItem.x := x; CanvasItem.y := y;
     CanvasItem.width := 10; CanvasItem.height := 10;
     CanvasItem.naturalWidth := 10; CanvasItem.naturalHeight := 10;
     CanvasItem.grips := Some [g] |}.

Definition wire (id source target : Z) : Connection :=
  {| Connection.id := id;
     Connection.sourceItemId := source; Connection.sourceGripIndex := 0;
     Connection.targetItemId := target; Connection.targetGripIndex := 0;
     Connection.waypoints := None |}.

Definition rightGrip : Grip := {| Grip.x := 100; Grip.y := 50 |}.
Definition leftGrip : Grip := {| Grip.x := 0; Grip.y := 50 |}.
Definition bottomGrip : Grip := {| Grip.x := 50; Grip.y := 0 |}.
Definition topGrip : Grip := {| Grip.x := 50; Grip.y := 100 |}.

(** Wire 3 runs horizontally at y = 105 from x = 10 to x = 300; wires 1 and
    2 run vertically from y = 10 to y = 200, at x = 100 and x = 110: they
    cross wire 3 at points 10 apart. *)
Definition closeItems : list CanvasItem :=
  [ box 1 0 100 rightGrip; box 2 300 100 leftGrip;
    box 3 95 0 bottomGrip; box 4 95 200 topGrip;
    box 5 105 0 bottomGrip; box 6 105 200 topGrip ].

Definition crossingWires : list Connection :=
  [ wire 3 1 2; wire 1 3 4; wire 2 5 6 ].

(** Wires 2 and 4 run horizontally at y = 105 and y = 150, from x = 10 to
    x = 300; wires 1 and 3 run vertically from y = 10 to y = 200, at x = 20
    and x = 25: both cross the 20-unit stubs of wires 2 and 4. *)
Definition meshItems : list CanvasItem :=
  [ box 1 0 100 rightGrip; box 2 300 100 leftGrip;
    box 3 15 0 bottomGrip; box 4 15 200 topGrip;
    box 5 20 0 bottomGrip; box 6 20 200 topGrip;
    box 7 0 145 rightGrip; box 8 300 145 leftGrip ].

Definition meshWires : list Connection :=
  [ wire 1 3 4; wire 2 1 2; wire 3 5 6; wire 4 7 8 ].

(** Wire 2 runs horizontally at y = 105 from x = 10 to x = 2^60, and wire 1
    vertically from y = 10 to y = 200 at x = 2^59, where doubles are 128
    apart.  With [hugeItems] the horizontal run ends at x = 2^700: its
    length overflows to infinity. *)
Definition farItems : list CanvasItem :=
  [ box 1 0 100 rightGrip; box 2 0x1p60 100 leftGrip;
    box 3 0x1p59 0 bottomGrip; box 4 0x1p59 200 topGrip ].

Definition hugeItems : list CanvasItem :=
  [ box 1 0 100 rightGrip; box 2 0x1p700 100 leftGrip;
    box 3 0x1p699 0 bottomGrip; box 4 0x1p699 200 topGrip ].

Definition farWires : list Connection := [ wire 2 1 2; wire 1 3 4 ].

(** The segment the first loop builds between two points. *)
Definition segmentBetween (connId : Z) (p1 p2 : Point) : LineSegment :=
  {| LineSegment.p1 := p1; LineSegment.p2 := p2; LineSegment.lineId := connId;
     LineSegment.dir := normalize (sub p2 p1); LineSegment.len := len (sub p2 p1) |}.

(** Two segments 1024 long, the second rising by 1/512 over its length. *)
Definition flatSegment : LineSegment :=
  segmentBetween 2 {| Point.x := 0; Point.y := 0 |} {| Point.x := 1024; Point.y := 0 |}.
Definition risingSegment : LineSegment :=
  segmentBetween 1 {| Point.x := 0; Point.y := -0x1p-10 |}
                   {| Point.x := 1024; Point.y := 0x1p-10 |}.

(** A wire whose source grip index is -1. *)
Definition staleWire : Connection :=
  {| Connection.id := 4;
     Connection.sourceItemId := 1; Connection.sourceGripIndex := -1;
     Connection.targetItemId := 2; Connection.targetGripIndex := 0;
     Connection.waypoints := None |}.

(** A wire to an item that does not exist. *)
Definition danglingWire : Connection := wire 5 1 99.

(** The line and bends the first loop builds for one connection of an
    example ([None] when the connection is skipped or the call throws). *)
Definition routed (conn : Connection) (items : list CanvasItem)
  : option (RawLine * list Point) :=
  match routeConnection (layout := specLayout) conn items with
  | Return r => r
  | Throw _ => None
  end.

(** The output of a pass on an example (empty when the pass throws). *)
Definition pathsOf (connections : list Connection) (items : list CanvasItem)
  : gmap Z PathMetadata :=
  match calculateManualPathsWithBridges (layout := specLayout) connections items with
  | Return finalPaths => finalPaths
  | Throw _ => ∅
  end.

(** A 200x100 item with a 200x100 natural size at (5, 7), with grips at the
    bottom-left and top-right corners. *)
Definition wideItem : CanvasItem :=
  {| CanvasItem.id := 7; CanvasItem.x := 5; CanvasItem.y := 7;
     CanvasItem.width := 200; CanvasItem.height := 100;
     CanvasItem.naturalWidth := 200; CanvasItem.naturalHeight := 100;
     CanvasItem.grips := Some [ {| Grip.x := 0; Grip.y := 0 |};
                                {| Grip.x := 100; Grip.y := 100 |} ] |}.

(** ** Notions for the rest of the module *)

(** The obstacle rectangle of one item: what [getItemRects] maps it to. *)
Definition itemRect {layout : Layout} (item : CanvasItem) : Rect :=
  let r := calculateAspectFit (CanvasItem.width item) (CanvasItem.height item)
             (CanvasItem.naturalWidth item) (CanvasItem.naturalHeight item) in
  {| Rect.x := CanvasItem.x item + Rect.x r;
     Rect.y := CanvasItem.y item + Rect.y r;
     Rect.width := Rect.width r;
     Rect.height := Rect.height r |}.

(** A point inside a rectangle, borders included. *)
Definition insideRect (p : Point) (r : Rect) : Prop :=
  (Rect.x r <=? Point.x p) = true
  ∧ (Point.x p <=? Rect.x r + Rect.width r) = true
  ∧ (Rect.y r <=? Point.y p) = true
  ∧ (Point.y p <=? Rect.y r + Rect.height r) = true.

(** components/Canvas/ConnectionLine.tsx, lines 102-116: the [onDragMove]
    handler of the drag handle of the waypoint at [p].  [target] is the
    position of the handle when the event fires ([e.target.x()],
    [e.target.y()]); the handler resets one coordinate of the handle and
    passes the resulting position to [onWaypointDrag]. *)
Definition onDragMove (p target : Point) : Point :=
  let dx := Math.abs (Point.x target - Point.x p) in
  let dy := Math.abs (Point.y target - Point.y p) in
  if dy <? dx
  then {| Point.x := Point.x target; Point.y := Point.y p |}
  else {| Point.x := Point.x p; Point.y := Point.y target |}.

(** Wire 3 of [closeItems] with waypoints chosen by the user. *)
Definition manualWire : Connection :=
  {| Connection.id := 3;
     Connection.sourceItemId := 1; Connection.sourceGripIndex := 0;
     Connection.targetItemId := 2; Connection.targetGripIndex := 0;
     Connection.waypoints := Some [ {| Point.x := 60; Point.y := 105 |};
                                     {| Point.x := 60; Point.y := 140 |};
                                     {| Point.x := 250; Point.y := 140 |} ] |}.

(** [items.find((i) => i.id === itemId)], as the first loop looks up the
    source and the target of a connection. *)
Definition itemById (items : list CanvasItem) (itemId : Z) : option CanvasItem :=
  find (fun i => (CanvasItem.id i =? itemId)%Z) items.

(** [item.grips?.[gripIndex]] (lines 246-247): the grip the standoff of an
    end of a connection is computed from. *)
Definition gripAt (item : CanvasItem) (gripIndex : Z) : option Grip :=
  grips ← CanvasItem.grips item; Array_get grips gripIndex.

(** A zero of either sign, or NaN: the values a difference [v - v] and its
    products can take. *)
Definition zeroOrNaN (v : number) : bool := (v =? 0) || is_nan v.

(** A second horizontal segment on the line of [flatSegment], overlapping
    it from x = 512 on. *)
Definition levelSegment : LineSegment :=
  segmentBetween 1 {| Point.x := 512; Point.y := 0 |} {| Point.x := 2048; Point.y := 0 |}.

(** The middle segment of wire 3 of [closeItems], and the segments of
    wires 1 and 2 that cross it 70 and 80 along. *)
Definition busySegment : LineSegment :=
  segmentBetween 3 {| Point.x := 30; Point.y := 105 |} {| Point.x := 280; Point.y := 105 |}.
Definition crossingSegments : list LineSegment :=
  [ segmentBetween 1 {| Point.x := 100; Point.y := 30 |} {| Point.x := 100; Point.y := 180 |};
    segmentBetween 2 {| Point.x := 110; Point.y := 30 |} {| Point.x := 110; Point.y := 180 |} ].

(** The wires of [closeItems] with wire 3 routed by hand, the two wires of
    lower id alone, and an input in which two connections have id 3. *)
Definition manualWires : list Connection := [ manualWire; wire 1 3 4; wire 2 5 6 ].
Definition lowWires : list Connection := [ wire 1 3 4; wire 2 5 6 ].
Definition twiceWires : list Connection := [ wire 3 1 2; manualWire; wire 1 3 4 ].

(** Two values one of which is the other negated, or two zeros of any
    signs: how a difference changes when its operands are swapped.  And two
    values that are the same, or two zeros of any signs. *)
Definition SFmirrored (x y : spec_float) : Prop :=
  y = SFopp x ∨ ∃ s s', x = S754_zero s ∧ y = S754_zero s'.
Definition SFsame (x y : spec_float) : Prop :=
  y = x ∨ ∃ s s', x = S754_zero s ∧ y = S754_zero s'.
Definition mirrored (x y : number) : Prop := SFmirrored (Prim2SF x) (Prim2SF y).
Definition sameNumber (x y : number) : Prop := SFsame (Prim2SF x) (Prim2SF y).

(** A list of crossings in non-decreasing order of distance: no crossing
    is followed by one strictly nearer. *)
Definition ascending (l : list Intersection) : Prop :=
  ∀ a b, (a, b) ∈ consecutive l → (Intersection.t b <? Intersection.t a) = false.

(** * Properties *)

(** ** Binary64 comparisons form a total preorder away from NaN *)

Lemma SFcompare_rank (x y : spec_float) :
  x ≠ S754_nan → y ≠ S754_nan →
  SFcompare x y = Some (lex_compare (rank x) (rank y)).
Proof.
  intros Hx Hy.
  destruct x as [sx|sx| |sx mx ex], y as [sy|sy| |sy my ey]; try congruence;
    try (destruct sx; try destruct sy; reflexivity);
    try (destruct sy; reflexivity).
  destruct sx, sy; simpl; try reflexivity.
  rewrite Z.compare_opp. destruct (Z.compare_spec ex ey) as [->| |]; simpl.
  - rewrite Z.compare_refl. reflexivity.
  - rewrite (proj2 (Z.compare_gt_iff _ _)); [reflexivity|lia].
  - rewrite (proj2 (Z.compare_lt_iff _ _)); [reflexivity|lia].
Qed.

Lemma lex_compare_Lt a b : lex_compare a b = Lt ↔ lex_lt a b.
Proof.
  destruct a as [[a1 a2] a3], b as [[b1 b2] b3]; unfold lex_lt, lex_le, lex_compare.
  destruct (Z.compare_spec a1 b1), (Z.compare_spec a2 b2), (Z.compare_spec a3 b3);
    split; intros; try discriminate; try reflexivity; try lia.
Qed.

Lemma lex_compare_Gt a b : lex_compare a b = Gt ↔ lex_lt b a.
Proof.
  destruct a as [[a1 a2] a3], b as [[b1 b2] b3]; unfold lex_lt, lex_le, lex_compare.
  destruct (Z.compare_spec a1 b1), (Z.compare_spec a2 b2), (Z.compare_spec a3 b3);
    split; intros; try discriminate; try reflexivity; try lia.
Qed.

Lemma lex_compare_Eq a b : lex_compare a b = Eq ↔ a = b.
Proof.
  destruct a as [[a1 a2] a3], b as [[b1 b2] b3]; unfold lex_lt, lex_le, lex_compare.
  destruct (Z.compare_spec a1 b1), (Z.compare_spec a2 b2), (Z.compare_spec a3 b3);
    split; intros; try discriminate; try congruence; try (exfalso; inversion H2; lia).
Qed.

Lemma rank_le_infinity (x : spec_float) : lex_le (rank x) (2, 0, 0)%Z.
Proof. destruct x as [s|[]| |[] m e]; simpl; lia. Qed.

Lemma rank_ge_neg_infinity (x : spec_float) : lex_le (-2, 0, 0)%Z (rank x).
Proof. destruct x as [s|[]| |[] m e]; simpl; lia. Qed.

Lemma lex_compare_refl a : lex_compare a a = Eq.
Proof. by apply lex_compare_Eq. Qed.

Lemma is_nan_spec (x : float) : is_nan x = false ↔ Prim2SF x ≠ S754_nan.
Proof.
  unfold is_nan. rewrite FloatAxioms.eqb_spec. unfold SFeqb.
  destruct (Prim2SF x) as [s|s| |s m e] eqn:E.
  1,2,4: rewrite SFcompare_rank by congruence;
    rewrite lex_compare_refl; split; [congruence|reflexivity].
  simpl. split; [discriminate|congruence].
Qed.

Lemma compare_nan_l (x y : spec_float) : x = S754_nan → SFcompare x y = None.
Proof. intros ->. reflexivity. Qed.
Lemma compare_nan_r (x y : spec_float) : y = S754_nan → SFcompare x y = None.
Proof. intros ->. destruct x; reflexivity. Qed.

Section Order.
Variables x y : float.
Hypothesis Hx : is_nan x = false.
Hypothesis Hy : is_nan y = false.

Lemma ltb_true : (x <? y) = true ↔ lex_lt (frank x) (frank y).
Proof using Hx Hy.
  rewrite FloatAxioms.ltb_spec. unfold SFltb, frank.
  rewrite SFcompare_rank by (by apply is_nan_spec).
  rewrite <- lex_compare_Lt. destruct (lex_compare _ _); split; congruence.
Qed.

Lemma ltb_false : (x <? y) = false ↔ lex_le (frank y) (frank x).
Proof using Hx Hy.
  rewrite <- not_true_iff_false, ltb_true.
  unfold lex_lt, lex_le. destruct (frank x) as [[? ?] ?], (frank y) as [[? ?] ?]. lia.
Qed.

Lemma leb_true : (x <=? y) = true ↔ lex_le (frank x) (frank y).
Proof using Hx Hy.
  rewrite FloatAxioms.leb_spec. unfold SFleb, frank.
  rewrite SFcompare_rank by (by apply is_nan_spec).
  pose proof (lex_compare_Lt (rank (Prim2SF x)) (rank (Prim2SF y))) as HL.
  pose proof (lex_compare_Eq (rank (Prim2SF x)) (rank (Prim2SF y))) as HE.
  pose proof (lex_compare_Gt (rank (Prim2SF x)) (rank (Prim2SF y))) as HG.
  destruct (lex_compare _ _); unfold lex_lt, lex_le in *;
    destruct (rank (Prim2SF x)) as [[? ?] ?], (rank (Prim2SF y)) as [[? ?] ?].
  - split; [intros _|reflexivity]. destruct HE as [HE _]. specialize (HE eq_refl). inversion HE. lia.
  - split; [intros _|reflexivity]. destruct HL as [HL _]. specialize (HL eq_refl). lia.
  - split; [discriminate|]. destruct HG as [HG _]. specialize (HG eq_refl). lia.
Qed.

Lemma leb_false : (x <=? y) = false ↔ lex_lt (frank y) (frank x).
Proof using Hx Hy.
  rewrite <- not_true_iff_false, leb_true.
  unfold lex_lt, lex_le. destruct (frank x) as [[? ?] ?], (frank y) as [[? ?] ?]. lia.
Qed.

Lemma eqb_true : (x =? y) = true ↔ frank x = frank y.
Proof using Hx Hy.
  rewrite FloatAxioms.eqb_spec. unfold SFeqb, frank.
  rewrite SFcompare_rank by (by apply is_nan_spec).
  rewrite <- lex_compare_Eq. destruct (lex_compare _ _); split; congruence.
Qed.

End Order.

Lemma ltb_not_nan (x y : float) : (x <? y) = true → is_nan x = false ∧ is_nan y = false.
Proof.
  rewrite FloatAxioms.ltb_spec, !is_nan_spec. unfold SFltb. intros Hc.
  split; intros E; [rewrite (compare_nan_l _ _ E) in Hc|rewrite (compare_nan_r _ _ E) in Hc];
    discriminate.
Qed.

Lemma leb_not_nan (x y : float) : (x <=? y) = true → is_nan x = false ∧ is_nan y = false.
Proof.
  rewrite FloatAxioms.leb_spec, !is_nan_spec. unfold SFleb. intros Hc.
  split; intros E; [rewrite (compare_nan_l _ _ E) in Hc|rewrite (compare_nan_r _ _ E) in Hc];
    discriminate.
Qed.

Lemma eqb_not_nan (x y : float) : (x =? y) = true → is_nan x = false ∧ is_nan y = false.
Proof.
  rewrite FloatAxioms.eqb_spec, !is_nan_spec. unfold SFeqb. intros Hc.
  split; intros E; [rewrite (compare_nan_l _ _ E) in Hc|rewrite (compare_nan_r _ _ E) in Hc];
    discriminate.
Qed.

(** ** Rounding never produces NaN *)

Lemma shr_1_nonneg (mrs : shr_record) : (0 ≤ shr_m mrs)%Z → (0 ≤ shr_m (shr_1 mrs))%Z.
Proof. destruct mrs as [[|[p|p|]|p] r s]; simpl; lia. Qed.

Lemma iter_shr_1_nonneg (p : positive) (mrs : shr_record) :
  (0 ≤ shr_m mrs)%Z → (0 ≤ shr_m (SpecFloat.iter_pos shr_1 p mrs))%Z.
Proof.
  revert mrs. induction p as [p IH|p IH|]; intros mrs Hm; simpl.
  - apply IH, IH, shr_1_nonneg, Hm.
  - apply IH, IH, Hm.
  - apply shr_1_nonneg, Hm.
Qed.

Lemma shr_fexp_nonneg (prec emax m e : Z) (l : location) :
  (0 ≤ m)%Z → (0 ≤ shr_m (shr_fexp prec emax m e l).1)%Z.
Proof.
  intros Hm. unfold shr_fexp, shr.
  assert (0 ≤ shr_m (shr_record_of_loc m l))%Z as Hr by (destruct l as [|[]]; exact Hm).
  destruct (_ - e)%Z; simpl; auto using iter_shr_1_nonneg.
Qed.

Lemma round_nearest_even_nonneg (m : Z) (l : location) :
  (0 ≤ m)%Z → (0 ≤ round_nearest_even m l)%Z.
Proof. intros Hm. destruct l as [|[]]; simpl; try destruct (Z.even m); lia. Qed.

Lemma binary_round_aux_not_nan (prec emax : Z) (sx : bool) (mx ex : Z) (lx : location) :
  (0 ≤ mx)%Z → binary_round_aux prec emax sx mx ex lx ≠ S754_nan.
Proof.
  intros Hm. unfold binary_round_aux.
  pose proof (shr_fexp_nonneg prec emax mx ex lx Hm) as H1.
  destruct (shr_fexp prec emax mx ex lx) as [mrs' e']. simpl in H1.
  pose proof (shr_fexp_nonneg prec emax _ e' loc_Exact
                (round_nearest_even_nonneg _ (loc_of_shr_record mrs') H1)) as H2.
  destruct (shr_fexp prec emax (round_nearest_even _ _) e' loc_Exact) as [mrs'' e''].
  simpl in H2. destruct (shr_m mrs''); [discriminate| |lia].
  destruct (_ <=? _)%Z; discriminate.
Qed.

Lemma binary_normalize_not_nan (prec emax m e : Z) (szero : bool) :
  binary_normalize prec emax m e szero ≠ S754_nan.
Proof.
  destruct m; simpl; [discriminate| |]; unfold binary_round;
    destruct (shl_align _ _ _); by apply binary_round_aux_not_nan.
Qed.

(** Adding or subtracting a finite constant keeps a number a number. *)
Lemma add_finite_not_nan (x c : float) s m e :
  Prim2SF c = S754_finite s m e → is_nan x = false → is_nan (x + c) = false.
Proof.
  rewrite !is_nan_spec, add_spec. intros -> Hx. unfold SF64add, SFadd.
  destruct (Prim2SF x) as [sx|sx| |sx mx ex]; try discriminate; try congruence.
  apply binary_normalize_not_nan.
Qed.

Lemma sub_finite_not_nan (x c : float) s m e :
  Prim2SF c = S754_finite s m e → is_nan x = false → is_nan (x - c) = false.
Proof.
  rewrite !is_nan_spec, sub_spec. intros -> Hx. unfold SF64sub, SFsub.
  destruct (Prim2SF x) as [sx|sx| |sx mx ex]; try discriminate; try congruence.
  apply binary_normalize_not_nan.
Qed.

Lemma finite_sub_not_nan (x c : float) s m e :
  Prim2SF c = S754_finite s m e → is_nan x = false → is_nan (c - x) = false.
Proof.
  rewrite !is_nan_spec, sub_spec. intros -> Hx. unfold SF64sub, SFsub.
  destruct (Prim2SF x) as [sx|sx| |sx mx ex]; try discriminate; try congruence.
  apply binary_normalize_not_nan.
Qed.

(** [x + 0] is [x], except that [-0 + 0] is [+0]. *)
Lemma add_zero_r (x : float) : x ≠ neg_zero → x + 0 = x.
Proof.
  intros Hx. apply Prim2SF_inj. rewrite add_spec. change (Prim2SF 0) with (S754_zero false).
  unfold SF64add, SFadd. destruct (Prim2SF x) as [[]|sx| |sx mx ex] eqn:E; try reflexivity.
  exfalso. apply Hx. apply Prim2SF_inj. rewrite E. reflexivity.
Qed.

(** ** [Math.min] and [Math.max] on numbers *)

Ltac lex_arith :=
  unfold lex_le, lex_lt in *;
  repeat match goal with
    | |- context [frank ?x] =>
        let r := fresh "r" in set (r := frank x) in *; clearbody r; destruct r as [[? ?] ?]
    | H : context [frank ?x] |- _ =>
        let r := fresh "r" in set (r := frank x) in *; clearbody r; destruct r as [[? ?] ?]
    end;
  simplify_eq; first [lia | f_equal; [f_equal|]; lia].

Lemma min_from_spec (args : list number) (lowest : number) :
  is_nan lowest = false →
  Forall (λ a, is_nan a = false) args →
  let r := Math.min_from lowest args in
  is_nan r = false
  ∧ lex_le (frank r) (frank lowest)
  ∧ Forall (λ a, lex_le (frank r) (frank a)) args
  ∧ (frank r = frank lowest ∨ Exists (λ a, frank r = frank a) args).
Proof.
  revert lowest. induction args as [|n rest IH]; intros lowest Hl Hargs; simpl.
  { repeat split; [done|lex_arith|constructor|by left]. }
  inversion Hargs as [|? ? Hn Hrest]; subst. rewrite Hn.
  set (lowest' := if _ && _ then neg_zero else lowest).
  assert (is_nan lowest' = false ∧ frank lowest' = frank lowest) as [Hl' Hf'].
  { subst lowest'. destruct (_ && _) eqn:E; [|done].
    apply andb_true_iff in E as [_ E]. apply Leibniz.eqb_spec in E. by subst lowest. }
  clearbody lowest'. destruct (n <? lowest') eqn:Hlt.
  - apply ltb_true in Hlt; [|done..].
    destruct (IH n Hn Hrest) as (Hr & Hle & Hall & Hex).
    repeat split; [done|lex_arith|constructor; [done|done]|].
    right. destruct Hex as [Hex|Hex]; [by apply Exists_cons_hd|by apply Exists_cons_tl].
  - apply ltb_false in Hlt; [|done..].
    destruct (IH lowest' Hl' Hrest) as (Hr & Hle & Hall & Hex).
    repeat split; [done|lex_arith|constructor; [lex_arith|done]|].
    destruct Hex as [Hex|Hex]; [left; congruence|right; by apply Exists_cons_tl].
Qed.

Lemma max_from_spec (args : list number) (highest : number) :
  is_nan highest = false →
  Forall (λ a, is_nan a = false) args →
  let r := Math.max_from highest args in
  is_nan r = false
  ∧ lex_le (frank highest) (frank r)
  ∧ Forall (λ a, lex_le (frank a) (frank r)) args
  ∧ (frank r = frank highest ∨ Exists (λ a, frank r = frank a) args).
Proof.
  revert highest. induction args as [|n rest IH]; intros highest Hh Hargs; simpl.
  { repeat split; [done|lex_arith|constructor|by left]. }
  inversion Hargs as [|? ? Hn Hrest]; subst. rewrite Hn.
  set (highest' := if _ && _ then zero else highest).
  assert (is_nan highest' = false ∧ frank highest' = frank highest) as [Hh' Hf'].
  { subst highest'. destruct (_ && _) eqn:E; [|done].
    apply andb_true_iff in E as [_ E]. apply Leibniz.eqb_spec in E. by subst highest. }
  clearbody highest'. destruct (highest' <? n) eqn:Hlt.
  - apply ltb_true in Hlt; [|done..].
    destruct (IH n Hn Hrest) as (Hr & Hle & Hall & Hex).
    repeat split; [done|lex_arith|constructor; [done|done]|].
    right. destruct Hex as [Hex|Hex]; [by apply Exists_cons_hd|by apply Exists_cons_tl].
  - apply ltb_false in Hlt; [|done..].
    destruct (IH highest' Hh' Hrest) as (Hr & Hle & Hall & Hex).
    repeat split; [done|lex_arith|constructor; [lex_arith|done]|].
    destruct Hex as [Hex|Hex]; [left; congruence|right; by apply Exists_cons_tl].
Qed.

(** ** Standoff *)

Section StandoffProperties.
Context {layout : Layout}.

Lemma getStandoff_offset (p : Point) (grip : option Grip) :
  getStandoff p grip = offsetPoint p (getClosestSide grip) STANDOFF_DIST.
Proof. unfold getStandoff. by destruct (getClosestSide grip). Qed.

(** Away from NaN, [Math.min(...) === a] says that [a] is minimal. *)
Lemma Math_min_eqb (args : list number) (a : number) :
  Forall (λ b, is_nan b = false) args → a ∈ args →
  (Math.min args =? a) = forallb (λ b, a <=? b) args.
Proof.
  intros Hargs Ha.
  destruct (min_from_spec args infinity eq_refl Hargs) as (Hm & Hinf & Hall & Hex).
  fold (Math.min args) in *. set (m := Math.min args) in *. clearbody m.
  assert (is_nan a = false) as Hna by (by eapply Forall_forall in Hargs).
  apply eq_true_iff_eq. rewrite eqb_true, forallb_forall by done. split.
  - intros Hma b Hb%list_elem_of_In.
    assert (is_nan b = false) as Hnb by (by eapply Forall_forall in Hargs).
    apply leb_true; [done..|]. eapply Forall_forall in Hall; [|done]. lex_arith.
  - intros Hle.
    assert (lex_le (frank m) (frank a)) as Hm_a by (by eapply Forall_forall in Hall).
    destruct Hex as [Hex|Hex].
    + pose proof (rank_le_infinity (Prim2SF a)) as Htop. fold (frank a) in Htop.
      change (frank infinity) with (2, 0, 0)%Z in *. lex_arith.
    + apply Exists_exists in Hex as (b & Hb & Hmb).
      assert (is_nan b = false) as Hnb by (by eapply Forall_forall in Hargs).
      apply list_elem_of_In, Hle, leb_true in Hb; [|done..]. lex_arith.
Qed.

(** A NaN among the arguments makes [Math.min] NaN, which is [===] to
    nothing and below nothing. *)
Lemma min_from_nan (args : list number) (lowest : number) :
  Exists (λ a, is_nan a = true) args → Math.min_from lowest args = nan.
Proof.
  revert lowest. induction args as [|n rest IH]; intros lowest Hex.
  { by apply Exists_nil in Hex. }
  simpl. destruct (is_nan n) eqn:Hn; [done|].
  apply Exists_cons in Hex as [Hex|Hex]; [congruence|]. by apply IH.
Qed.

Lemma eqb_nan_l (a b : number) : is_nan a = true → (a =? b) = false.
Proof.
  intros Ha. destruct (a =? b) eqn:E; [|done].
  apply eqb_not_nan in E as [E _]. congruence.
Qed.

Lemma leb_nan_l (a b : number) : is_nan a = true → (a <=? b) = false.
Proof.
  intros Ha. destruct (a <=? b) eqn:E; [|done].
  apply leb_not_nan in E as [E _]. congruence.
Qed.

Lemma leb_nan_r (a b : number) : is_nan b = true → (a <=? b) = false.
Proof.
  intros Hb. destruct (a <=? b) eqn:E; [|done].
  apply leb_not_nan in E as [_ E]. congruence.
Qed.

Lemma getClosestSide_nearest (g : Grip) : getClosestSide (Some g) = nearestSide g.
Proof.
  unfold getClosestSide, nearestSide.
  destruct (is_nan (Grip.x g)) eqn:Hx; [|destruct (is_nan (Grip.y g)) eqn:Hy].
  - unfold Math.min. rewrite min_from_nan by (by apply Exists_cons_hd).
    rewrite !(eqb_nan_l nan) by done. simpl.
    by rewrite !(leb_nan_r _ (Grip.x g)), (leb_nan_l (Grip.x g)), ?andb_false_r.
  - unfold Math.min. rewrite min_from_nan by (by do 3 apply Exists_cons_tl; apply Exists_cons_hd).
    rewrite !(eqb_nan_l nan) by done. simpl.
    by rewrite !(leb_nan_r _ (Grip.y g)), ?andb_false_r.
  - assert (Forall (λ b, is_nan b = false)
              [Grip.x g; 100 - Grip.x g; 100 - Grip.y g; Grip.y g]) as Hargs.
    { repeat constructor; try done; by eapply (finite_sub_not_nan _ 100). }
    rewrite !Math_min_eqb by (done || set_solver). reflexivity.
Qed.

(** C5. [getStandoff] moves a grip point by exactly 20 units through the
    grip's nearest side: left gives x - 20, right x + 20, top y - 20 and
    bottom y + 20, the nearest side being the first of left, right, top,
    bottom whose percentage distance (g.x, 100 - g.x, 100 - g.y, g.y) is
    minimal. *)
Theorem getStandoff_nearest_side (p : Point) (g : Grip) :
  getClosestSide (Some g) = nearestSide g
  ∧ getStandoff p (Some g) =
      match nearestSide g with
      | left => {| Point.x := Point.x p - 20; Point.y := Point.y p |}
      | right => {| Point.x := Point.x p + 20; Point.y := Point.y p |}
      | top => {| Point.x := Point.x p; Point.y := Point.y p - 20 |}
      | bottom => {| Point.x := Point.x p; Point.y := Point.y p + 20 |}
      end.
Proof.
  split; [by apply getClosestSide_nearest|].
  rewrite getStandoff_offset, getClosestSide_nearest.
  by destruct (nearestSide g).
Qed.

(** C10. A missing grip ([undefined] or [null]) makes [getClosestSide]
    answer bottom, so [getStandoff] returns the point 20 units below [p],
    not [p] itself. *)
Theorem getStandoff_missing_grip (p : Point) :
  getClosestSide None = bottom
  ∧ getStandoff p None = {| Point.x := Point.x p; Point.y := Point.y p + 20 |}.
Proof. split; reflexivity. Qed.

End StandoffProperties.

(** ** Grip resolver *)

Lemma Array_get_in_range {A} (arr : list A) (i : Z) :
  (0 ≤ i < Z.of_nat (length arr))%Z → is_Some (Array_get arr i).
Proof.
  intros Hi. unfold Array_get. destruct (Z.ltb_spec i 0); [lia|].
  apply lookup_lt_is_Some. lia.
Qed.

Lemma Array_get_negative {A} (arr : list A) (i : Z) :
  (i < 0)%Z → Array_get arr i = None.
Proof. intros Hi. unfold Array_get. by destruct (Z.ltb_spec i 0); [|lia]. Qed.

Lemma SameValueZero_add_zero_twice (v : number) : SameValueZero (v + 0 + 0) v.
Proof.
  destruct (PrimFloat.Leibniz.eqb v neg_zero) eqn:E.
  - apply Leibniz.eqb_spec in E as ->. by right.
  - assert (v ≠ neg_zero) as Hv by (intros ->; discriminate).
    left. by rewrite !(add_zero_r v).
Qed.

Lemma add_zero_add (v c : number) : c ≠ neg_zero → (v + 0) + c = v + c.
Proof.
  intros Hc. destruct (PrimFloat.Leibniz.eqb v neg_zero) eqn:E.
  - apply Leibniz.eqb_spec in E as ->. change (neg_zero + 0) with 0.
    apply Prim2SF_inj. rewrite !add_spec.
    change (Prim2SF 0) with (S754_zero false).
    change (Prim2SF neg_zero) with (S754_zero true).
    destruct (Prim2SF c) as [[]|sc| |sc mc ec] eqn:Ec; try reflexivity.
    exfalso. apply Hc, Prim2SF_inj. by rewrite Ec.
  - rewrite add_zero_r; [done|]. intros ->. discriminate.
Qed.

Section GripResolver.
Context {layout : Layout}.

(** The item has no grips, or the index is at or past the end of the
    array: [null]. *)
Lemma getGripPosition_null (item : CanvasItem) (gripIndex : Z) :
  (∀ grips, CanvasItem.grips item = Some grips → (Z.of_nat (length grips) ≤ gripIndex)%Z) →
  getGripPosition item gripIndex = Return None.
Proof.
  intros Hi. unfold getGripPosition. destruct (CanvasItem.grips item) as [grips|]; [|done].
  specialize (Hi grips eq_refl). by destruct (Z.leb_spec (Z.of_nat (length grips)) gripIndex); [|lia].
Qed.

(** C6. For an index inside the grips array, [getGripPosition] returns
    x = item.x + renderX + (grip.x/100)*renderWidth and
    y = item.y + renderY + ((100 - grip.y)/100)*renderHeight, over the
    aspect-fit rectangle of the item.  For a 200x100 item with a 200x100
    natural size, whose aspect-fit rectangle is (0, 0, 200, 100), the grip
    (0,0) resolves to (item.x, item.y + 100) and the grip (100,100) to
    (item.x + 200, item.y); the coordinate equal to item.x (item.y) is the
    same number up to the sign of zero, since -0 + 0 is +0. *)
Theorem getGripPosition_formula (item : CanvasItem) (grips : list Grip) (gripIndex : Z) :
  CanvasItem.grips item = Some grips →
  (0 ≤ gripIndex < Z.of_nat (length grips))%Z →
  ∃ grip, Array_get grips gripIndex = Some grip ∧
    let r := calculateAspectFit (CanvasItem.width item) (CanvasItem.height item)
               (CanvasItem.naturalWidth item) (CanvasItem.naturalHeight item) in
    getGripPosition item gripIndex =
      Return (Some {| Point.x := (CanvasItem.x item + Rect.x r)
                                 + (Grip.x grip / 100) * Rect.width r;
                      Point.y := (CanvasItem.y item + Rect.y r)
                                 + ((100 - Grip.y grip) / 100) * Rect.height r |})
    ∧ (CanvasItem.width item = 200 → CanvasItem.height item = 100 →
       CanvasItem.naturalWidth item = 200 → CanvasItem.naturalHeight item = 100 →
       calculateAspectFit 200 100 200 100
         = {| Rect.x := 0; Rect.y := 0; Rect.width := 200; Rect.height := 100 |} →
       (grip = {| Grip.x := 0; Grip.y := 0 |} →
        ∃ pt, getGripPosition item gripIndex = Return (Some pt)
              ∧ SameValueZero (Point.x pt) (CanvasItem.x item)
              ∧ Point.y pt = CanvasItem.y item + 100)
       ∧ (grip = {| Grip.x := 100; Grip.y := 100 |} →
          ∃ pt, getGripPosition item gripIndex = Return (Some pt)
                ∧ Point.x pt = CanvasItem.x item + 200
                ∧ SameValueZero (Point.y pt) (CanvasItem.y item))).
Proof.
  intros Hgrips Hi.
  destruct (Array_get_in_range grips gripIndex Hi) as [grip Hgrip].
  exists grip. split; [done|].
  assert (getGripPosition item gripIndex =
            let r := calculateAspectFit (CanvasItem.width item) (CanvasItem.height item)
                       (CanvasItem.naturalWidth item) (CanvasItem.naturalHeight item) in
            Return (Some {| Point.x := (CanvasItem.x item + Rect.x r)
                                 + (Grip.x grip / 100) * Rect.width r;
                            Point.y := (CanvasItem.y item + Rect.y r)
                                 + ((100 - Grip.y grip) / 100) * Rect.height r |})) as Hpos.
  { unfold getGripPosition. rewrite Hgrips, Hgrip.
    by destruct (Z.leb_spec (Z.of_nat (length grips)) gripIndex); [lia|]. }
  split; [done|]. intros Hw Hh Hnw Hnh Hfit. rewrite Hpos, Hw, Hh, Hnw, Hnh, Hfit. simpl.
  split; intros ->; eexists; (split; [done|]); simpl.
  - split.
    + change (0 / 100 * 200) with 0. apply SameValueZero_add_zero_twice.
    + change ((100 - 0) / 100 * 100) with 100. by apply add_zero_add.
  - split.
    + change (100 / 100 * 200) with 200. by apply add_zero_add.
    + change ((100 - 100) / 100 * 100) with 0. apply SameValueZero_add_zero_twice.
Qed.

(** C7. A negative index addresses no element of [item.grips], yet passes
    the range check [gripIndex >= item.grips.length]; [grip] is then
    [undefined] and reading [grip.x] throws. *)
Theorem getGripPosition_negative_index_throws (item : CanvasItem) (grips : list Grip)
    (gripIndex : Z) :
  CanvasItem.grips item = Some grips → (gripIndex < 0)%Z →
  getGripPosition item gripIndex = Throw TypeError.
Proof.
  intros Hgrips Hi. unfold getGripPosition. rewrite Hgrips, Array_get_negative by done.
  by destruct (Z.leb_spec (Z.of_nat (length grips)) gripIndex); [lia|].
Qed.

End GripResolver.

(** ** Segment intersection *)

Lemma strictlyInside_spec (t u : number) :
  (buffer <? t) && (t <? 1 - buffer) && (buffer <? u) && (u <? 1 - buffer) = true
  ↔ strictlyInside t ∧ strictlyInside u.
Proof. unfold strictlyInside, buffer. rewrite !andb_true_iff. tauto. Qed.

(** C4. [getIntersectionT] answers [null] for every pair of segments whose
    vectors (p2 - p1 of each segment, at full length, not the normalised
    [dir]) have a cross product of absolute value below 1e-5; otherwise it
    reports a crossing exactly when the parameters t and u both lie strictly
    inside (0.001, 1 - 0.001), and the value reported is t times the length
    of the first segment. *)
Theorem getIntersectionT_spec (seg1 seg2 : LineSegment) :
  let rXs := cross (segmentVector seg1) (segmentVector seg2) in
  let t := paramT seg1 seg2 in
  let u := paramU seg1 seg2 in
  ((Math.abs rXs <? 1e-5) = true → getIntersectionT seg1 seg2 = None)
  ∧ ((Math.abs rXs <? 1e-5) = false →
     (strictlyInside t ∧ strictlyInside u →
      getIntersectionT seg1 seg2 = Some (t * LineSegment.len seg1))
     ∧ (¬ (strictlyInside t ∧ strictlyInside u) → getIntersectionT seg1 seg2 = None)).
Proof.
  intros rXs t u. unfold getIntersectionT.
  change (Point.x (sub (LineSegment.p2 seg1) (LineSegment.p1 seg1))
          * Point.y (sub (LineSegment.p2 seg2) (LineSegment.p1 seg2))
          - Point.y (sub (LineSegment.p2 seg1) (LineSegment.p1 seg1))
            * Point.x (sub (LineSegment.p2 seg2) (LineSegment.p1 seg2))) with rXs.
  split; [by intros ->|]. intros ->.
  pose proof (strictlyInside_spec t u) as Hin. fold t u in Hin.
  change (_ && _ && _ && _) with
    ((buffer <? t) && (t <? 1 - buffer) && (buffer <? u) && (u <? 1 - buffer)).
  destruct (_ && _ && _ && _).
  - split; [done|]. intros Hn. exfalso. by apply Hn, Hin.
  - split; [|done]. intros Ht%Hin. discriminate.
Qed.

(** The threshold is on the full-length vectors: two long segments whose
    unit directions have a cross product below 1e-5 still cross. *)
Example nearly_parallel_segments_cross :
  getIntersectionT flatSegment risingSegment = Some 512
  ∧ (Math.abs (cross (LineSegment.dir flatSegment) (LineSegment.dir risingSegment)) <? 1e-5)
    = true
  ∧ cross (segmentVector flatSegment) (segmentVector risingSegment) = 2.
Proof. repeat split; vm_compute; reflexivity. Qed.

(** A crossing is reported only at a distance that is a number, on a
    segment of positive length. *)
Lemma mul_positive_not_nan (t l : number) :
  (0.001 <? t) = true → (0 <? l) = true → is_nan (t * l) = false.
Proof.
  intros Ht Hl.
  destruct (ltb_not_nan _ _ Ht) as [_ Hnt], (ltb_not_nan _ _ Hl) as [_ Hnl].
  apply ltb_true in Ht, Hl; [|done..].
  apply is_nan_spec in Hnt, Hnl. apply is_nan_spec. rewrite mul_spec.
  unfold frank in *. change (Prim2SF 0) with (S754_zero false) in Hl.
  change (rank (Prim2SF 0.001)) with (1, -62, 4611686018427388)%Z in Ht.
  unfold SF64mul, SFmul.
  destruct (Prim2SF t) as [st|[]| |[] mt et], (Prim2SF l) as [sl|[]| |[] ml el];
    simpl in *; try discriminate; try congruence; try lia.
  by apply binary_round_aux_not_nan.
Qed.

Lemma getIntersectionT_not_nan (seg1 seg2 : LineSegment) (d : number) :
  (0 <? LineSegment.len seg1) = true →
  getIntersectionT seg1 seg2 = Some d → is_nan d = false.
Proof.
  intros Hlen. unfold getIntersectionT. destruct (_ <? 1e-5); [discriminate|].
  destruct (_ && _ && _ && _) eqn:E; [|discriminate].
  intros [= <-]. apply andb_true_iff in E as [[[Ht _]%andb_true_iff _]%andb_true_iff _].
  by apply mul_positive_not_nan.
Qed.

(** ** Router *)

Section Router.
Context {layout : Layout}.

Lemma hitsObstacle_accepted (start end_ : Point) (items : list CanvasItem) (c : list Point) :
  hitsObstacle start end_ (getItemRects items) c = false ↔ accepted start end_ items c.
Proof.
  unfold hitsObstacle, accepted. rewrite <- not_true_iff_false, existsb_exists. split.
  - intros Hno a b r Hab%list_elem_of_In Hr%list_elem_of_In.
    apply not_true_iff_false. intros Hhit. apply Hno. exists (a, b). split; [done|].
    apply existsb_exists. by exists r.
  - intros Hacc ([a b] & Hab%list_elem_of_In & (r & Hr%list_elem_of_In & Hhit)%existsb_exists).
    by rewrite (Hacc a b r) in Hhit.
Qed.

Lemma smartRoute_candidate (start end_ : Point) (items : list CanvasItem) :
  smartRoute start end_ items ∈ candidates start end_.
Proof.
  unfold smartRoute. destruct (find _ _) as [c|] eqn:E.
  - apply find_some in E as [Hc _]. by apply list_elem_of_In.
  - set_solver.
Qed.

(** C2. [smartRoute] tries four bend sequences in the order
    horizontal-then-vertical, vertical-then-horizontal, mid-X dogleg, mid-Y
    dogleg; a candidate passes the test of the code exactly when it is
    accepted, that is, when each of its segments is separated from each
    obstacle rectangle along the x or the y axis; the first accepted
    candidate in that order is returned, and the first candidate when none
    is accepted.  The result is never empty. *)
Theorem smartRoute_first_accepted (start end_ : Point) (items : list CanvasItem) :
  let midX := (Point.x start + Point.x end_) / 2 in
  let midY := (Point.y start + Point.y end_) / 2 in
  let c1 := [ {| Point.x := Point.x end_; Point.y := Point.y start |} ] in
  let c2 := [ {| Point.x := Point.x start; Point.y := Point.y end_ |} ] in
  let c3 := [ {| Point.x := midX; Point.y := Point.y start |};
              {| Point.x := midX; Point.y := Point.y end_ |} ] in
  let c4 := [ {| Point.x := Point.x start; Point.y := midY |};
              {| Point.x := Point.x end_; Point.y := midY |} ] in
  let ok := accepted start end_ items in
  candidates start end_ = [c1; c2; c3; c4]
  ∧ (∀ c, hitsObstacle start end_ (getItemRects items) c = false ↔ ok c)
  ∧ (∀ a b r, segmentHitsRect a b r = false
              ↔ (Math.max [Point.x a; Point.x b] <? Rect.x r) = true
                ∨ (Rect.x r + Rect.width r <? Math.min [Point.x a; Point.x b]) = true
                ∨ (Math.max [Point.y a; Point.y b] <? Rect.y r) = true
                ∨ (Rect.y r + Rect.height r <? Math.min [Point.y a; Point.y b]) = true)
  ∧ (ok c1 → smartRoute start end_ items = c1)
  ∧ (¬ ok c1 → ok c2 → smartRoute start end_ items = c2)
  ∧ (¬ ok c1 → ¬ ok c2 → ok c3 → smartRoute start end_ items = c3)
  ∧ (¬ ok c1 → ¬ ok c2 → ¬ ok c3 → ok c4 → smartRoute start end_ items = c4)
  ∧ (¬ ok c1 → ¬ ok c2 → ¬ ok c3 → ¬ ok c4 → smartRoute start end_ items = c1)
  ∧ smartRoute start end_ items ≠ [].
Proof.
  intros midX midY c1 c2 c3 c4 ok.
  split; [done|]. split; [intros c; apply hitsObstacle_accepted|].
  split.
  { intros a b r. unfold segmentHitsRect.
    rewrite negb_false_iff, !orb_true_iff. tauto. }
  pose proof (hitsObstacle_accepted start end_ items c1) as H1.
  pose proof (hitsObstacle_accepted start end_ items c2) as H2.
  pose proof (hitsObstacle_accepted start end_ items c3) as H3.
  pose proof (hitsObstacle_accepted start end_ items c4) as H4.
  fold ok in H1, H2, H3, H4.
  unfold smartRoute. change (candidates start end_) with [c1; c2; c3; c4]. simpl.
  destruct (hitsObstacle _ _ _ c1);
    destruct (hitsObstacle _ _ _ c2);
    destruct (hitsObstacle _ _ _ c3);
    destruct (hitsObstacle _ _ _ c4); simpl;
    repeat split; try done; intros; exfalso; intuition congruence.
Qed.

(** Every candidate is a sequence of horizontal and vertical moves. *)
Lemma candidates_aligned (start end_ : Point) (c : list Point) :
  c ∈ candidates start end_ →
  Forall (λ '(a, b), aligned a b) (consecutive (start :: c ++ [end_])).
Proof.
  unfold candidates. rewrite !elem_of_cons, elem_of_nil.
  intros [->|[->|[->|[->|[]]]]]; simpl;
    repeat (apply Forall_cons; split); try apply Forall_nil; unfold aligned; simpl; auto.
Qed.

Lemma getStandoff_aligned (p : Point) (grip : option Grip) :
  aligned p (getStandoff p grip) ∧ aligned (getStandoff p grip) p.
Proof. unfold getStandoff, aligned. destruct (getClosestSide grip); simpl; auto. Qed.

Lemma consecutive_cons_app {A} (a b : A) (l : list A) :
  consecutive (a :: b :: l) = (a, b) :: consecutive (b :: l).
Proof. reflexivity. Qed.

Lemma consecutive_snoc {A} (l : list A) (a b : A) :
  consecutive (l ++ [a; b]) = consecutive (l ++ [a]) ++ [(a, b)].
Proof.
  induction l as [|x l IH]; [done|]. destruct l as [|y l]; [done|].
  change ((x :: y :: l) ++ [a; b]) with (x :: y :: (l ++ [a; b])).
  change ((x :: y :: l) ++ [a]) with (x :: y :: (l ++ [a])).
  rewrite !consecutive_cons_app.
  change (y :: (l ++ [a; b])) with ((y :: l) ++ [a; b]).
  change (y :: (l ++ [a])) with ((y :: l) ++ [a]).
  by rewrite IH.
Qed.

Lemma buildSegments_ends (connId : Z) (points : list Point) (seg : LineSegment) :
  seg ∈ buildSegments connId points →
  (LineSegment.p1 seg, LineSegment.p2 seg) ∈ consecutive points
  ∧ LineSegment.lineId seg = connId
  ∧ (0 <? LineSegment.len seg) = true.
Proof.
  unfold buildSegments. rewrite list_elem_of_omap. intros ([a b] & Hab & Hseg).
  destruct (0 <? len (sub b a)) eqn:E; [|discriminate].
  injection Hseg as <-. done.
Qed.

(** C9. For a connection routed automatically (waypoints absent or empty),
    every segment built for it - grip to standoff, standoff through the
    bends of [smartRoute] to the other standoff, standoff to grip - is
    exactly horizontal or exactly vertical. *)
Theorem auto_routed_segments_axis_aligned (conn : Connection) (items : list CanvasItem)
    (line : RawLine) (bends : list Point) :
  Connection.waypoints conn = None ∨ Connection.waypoints conn = Some [] →
  routeConnection conn items = Return (Some (line, bends)) →
  ∀ seg, seg ∈ RawLine.segments line → axisAligned seg.
Proof.
  intros Hauto. unfold routeConnection.
  destruct (find _ items) as [source|]; [|done].
  destruct (find _ items) as [target|]; [|done].
  destruct (getGripPosition source _) as [[start|]|]; simpl; [| |done].
  2: { by destruct (getGripPosition target _) as [[?|]|]. }
  destruct (getGripPosition target _) as [[end_|]|]; simpl; [|done..].
  intros [= <- <-] seg [Hseg _]%buildSegments_ends.
  unfold axisAligned. revert Hseg.
  generalize (LineSegment.p1 seg) (LineSegment.p2 seg). intros a b Hab.
  set (sg := mbind _ (CanvasItem.grips source)) in Hab.
  set (tg := mbind _ (CanvasItem.grips target)) in Hab.
  assert (connectionBends conn items (getStandoff start sg) (getStandoff end_ tg)
          = smartRoute (getStandoff start sg) (getStandoff end_ tg) items) as Hb.
  { unfold connectionBends. by destruct Hauto as [-> | ->]. }
  rewrite Hb in Hab. unfold connectionPoints in Hab.
  pose proof (candidates_aligned _ _ _
                (smartRoute_candidate (getStandoff start sg) (getStandoff end_ tg) items)) as Hc.
  set (bs := smartRoute _ _ items) in *. clearbody bs.
  change ([start; getStandoff start sg] ++ bs ++ [getStandoff end_ tg] ++ [end_])
    with (start :: getStandoff start sg :: bs ++ [getStandoff end_ tg; end_]) in Hab.
  rewrite consecutive_cons_app in Hab. apply elem_of_cons in Hab as [[= -> ->]|Hab].
  { apply getStandoff_aligned. }
  change (getStandoff start sg :: bs ++ [getStandoff end_ tg; end_])
    with ((getStandoff start sg :: bs) ++ [getStandoff end_ tg; end_]) in Hab.
  rewrite consecutive_snoc in Hab.
  apply elem_of_app in Hab as [Hab|Hab].
  - rewrite Forall_forall in Hc. apply (Hc (a, b) Hab).
  - apply list_elem_of_singleton in Hab as [= -> ->]. apply getStandoff_aligned.
Qed.

End Router.

(** ** Sorting keeps the crossings *)

Lemma sort_insert_perm {A} (compareFn : A → A → number) (a : A) (l : list A) :
  sort_insert compareFn a l ≡ₚ a :: l.
Proof.
  induction l as [|b l IH]; simpl; [done|].
  destruct (compareFn a b <? 0); [done|]. rewrite IH. apply Permutation_swap.
Qed.

Lemma Array_sort_perm {A} (compareFn : A → A → number) (l : list A) :
  Array_sort compareFn l ≡ₚ l.
Proof.
  unfold Array_sort.
  enough (∀ sorted, fold_left (λ sorted a, sort_insert compareFn a sorted) l sorted
                    ≡ₚ sorted ++ l) as Hgen by (by rewrite Hgen).
  induction l as [|a l IH]; intros sorted; simpl; [by rewrite app_nil_r|].
  rewrite IH, sort_insert_perm. simpl. apply Permutation_middle.
Qed.

Lemma elem_of_sortedIntersections (seg : LineSegment) (allSegments : list LineSegment)
    (inter : Intersection) :
  inter ∈ sortedIntersections seg allSegments ↔ inter ∈ findIntersections seg allSegments.
Proof. unfold sortedIntersections. by rewrite Array_sort_perm. Qed.

(** ** What the second loop writes *)

Lemma fold_bridgeStep (seg : LineSegment) (intersections : list Intersection)
    (currentT : number) (pathData : list PathCommand) :
  (fold_left (bridgeStep seg) intersections (currentT, pathData)).2
  = pathData ++ flat_map (bridgePath seg) (acceptedBridges seg currentT intersections).
Proof.
  revert currentT pathData.
  induction intersections as [|inter rest IH]; intros currentT pathData; simpl.
  { by rewrite app_nil_r. }
  destruct (_ <=? _); [apply IH|]. rewrite IH. simpl. by rewrite <- app_assoc.
Qed.

Lemma renderSegment_path (allSegments : list LineSegment) (pathData : list PathCommand)
    (seg : LineSegment) :
  renderSegment allSegments pathData seg = pathData ++ segmentPath allSegments seg.
Proof.
  unfold renderSegment, segmentPath, bridgesOf.
  fold (sortedIntersections seg allSegments).
  pose proof (fold_bridgeStep seg (sortedIntersections seg allSegments) 0 pathData) as Hfold.
  destruct (fold_left _ _ _) as [currentT pathData']. simpl in Hfold. subst pathData'.
  by rewrite <- app_assoc.
Qed.

Lemma fold_renderSegment (allSegments segs : list LineSegment) (pathData : list PathCommand) :
  fold_left (renderSegment allSegments) segs pathData
  = pathData ++ flat_map (segmentPath allSegments) segs.
Proof.
  revert pathData. induction segs as [|seg segs IH]; intros pathData; simpl.
  { by rewrite app_nil_r. }
  by rewrite IH, renderSegment_path, <- app_assoc.
Qed.

(** Every curve of a rendered line is the curve of an accepted bridge of
    one of its segments, and every accepted bridge is drawn. *)
Lemma renderLine_curves (allSegments : list LineSegment)
    (connectionWaypoints : gmap Z (list Point)) (line : RawLine) (control p : Point) :
  Q control p ∈ PathMetadata.pathData (renderLine allSegments connectionWaypoints line)
  ↔ ∃ seg b, seg ∈ RawLine.segments line ∧ b ∈ bridgesOf seg allSegments
             ∧ control = controlPoint seg (Bridge.centerT b)
             ∧ p = add (LineSegment.p1 seg) (mult (LineSegment.dir seg) (Bridge.endT b)).
Proof.
  unfold renderLine. simpl. rewrite fold_renderSegment, elem_of_app. split.
  - intros [Hstart|Hpath].
    { destruct (RawLine.segments line);
        [by apply elem_of_nil in Hstart|by apply list_elem_of_singleton in Hstart]. }
    apply list_elem_of_In, in_flat_map in Hpath as (seg & Hseg & Hcmd).
    unfold segmentPath in Hcmd. apply in_app_or in Hcmd as [Hcmd|[Hcmd|[]]]; [|done].
    apply in_flat_map in Hcmd as (b & Hb & Hcmd).
    exists seg, b. rewrite !list_elem_of_In.
    unfold bridgePath, bridgeCommands in Hcmd. simpl in Hcmd.
    destruct Hcmd as [|[[= <- <-]|[]]]; done.
  - intros (seg & b & Hseg & Hb & -> & ->). right.
    apply list_elem_of_In, in_flat_map. exists seg. split; [by apply list_elem_of_In|].
    unfold segmentPath. apply in_or_app. left. apply in_flat_map.
    exists b. split; [by apply list_elem_of_In|]. right. by left.
Qed.

(** ** Bridges *)

Lemma bridge_interval_bounds (seg : LineSegment) (fromT centerT : number) :
  is_nan (LineSegment.len seg) = false → is_nan fromT = false → is_nan centerT = false →
  let startT := bridgeStart fromT centerT in
  let endT := bridgeEnd seg centerT in
  (is_nan startT = false ∧ is_nan endT = false)
  ∧ lex_le (frank fromT) (frank startT)
  ∧ lex_le (frank (centerT - BRIDGE_SIZE)) (frank startT)
  ∧ lex_le (frank endT) (frank (LineSegment.len seg))
  ∧ lex_le (frank endT) (frank (centerT + BRIDGE_SIZE))
  ∧ (frank startT = frank fromT ∨ frank startT = frank (centerT - BRIDGE_SIZE))
  ∧ (frank endT = frank (LineSegment.len seg) ∨ frank endT = frank (centerT + BRIDGE_SIZE)).
Proof.
  intros Hlen Hfrom Hcenter startT endT.
  assert (is_nan (centerT - BRIDGE_SIZE) = false) as Hlo
    by (by eapply (sub_finite_not_nan _ BRIDGE_SIZE)).
  assert (is_nan (centerT + BRIDGE_SIZE) = false) as Hhi
    by (by eapply (add_finite_not_nan _ BRIDGE_SIZE)).
  destruct (max_from_spec [fromT; centerT - BRIDGE_SIZE] neg_infinity eq_refl)
    as (Hs & _ & Hsall & Hsex); [by repeat constructor|].
  destruct (min_from_spec [LineSegment.len seg; centerT + BRIDGE_SIZE] infinity eq_refl)
    as (He & _ & Heall & Heex); [by repeat constructor|].
  fold (Math.max [fromT; centerT - BRIDGE_SIZE]) in *. fold (bridgeStart fromT centerT) in *.
  fold (Math.min [LineSegment.len seg; centerT + BRIDGE_SIZE]) in *.
  fold (bridgeEnd seg centerT) in *. fold startT endT in Hs, Hsall, Hsex, He, Heall, Heex.
  apply Forall_cons in Hsall as [Hs1 [Hs2 _]%Forall_cons].
  apply Forall_cons in Heall as [He1 [He2 _]%Forall_cons].
  pose proof (rank_ge_neg_infinity (Prim2SF fromT)) as Hbot.
  pose proof (rank_le_infinity (Prim2SF (LineSegment.len seg))) as Htop.
  fold (frank fromT) in Hbot. fold (frank (LineSegment.len seg)) in Htop.
  change (frank neg_infinity) with (-2, 0, 0)%Z in Hsex.
  change (frank infinity) with (2, 0, 0)%Z in Heex.
  repeat split; try done.
  - destruct Hsex as [Hsex|Hsex]; [left; clear Heex; lex_arith|].
    apply Exists_cons in Hsex as [|[|[]%Exists_nil]%Exists_cons]; auto.
  - destruct Heex as [Heex|Heex]; [left; clear Hsex; lex_arith|].
    apply Exists_cons in Heex as [|[|[]%Exists_nil]%Exists_cons]; auto.
Qed.

Lemma accepted_bridge_wellFormed (seg : LineSegment) (fromT centerT : number) :
  (0 <? LineSegment.len seg) = true →
  is_nan fromT = false → (0 <=? fromT) = true → is_nan centerT = false →
  (bridgeEnd seg centerT <=? bridgeStart fromT centerT) = false →
  wellFormedBridge seg {| Bridge.fromT := fromT;
                          Bridge.startT := bridgeStart fromT centerT;
                          Bridge.centerT := centerT;
                          Bridge.endT := bridgeEnd seg centerT |}.
Proof.
  intros Hlen Hfrom Hpos Hcenter Hacc.
  destruct (ltb_not_nan _ _ Hlen) as [_ Hnlen].
  destruct (bridge_interval_bounds seg fromT centerT Hnlen Hfrom Hcenter)
    as ([Hs He] & Hs1 & Hs2 & He1 & He2 & Hsex & Heex).
  assert (is_nan (centerT - BRIDGE_SIZE) = false) as Hlo
    by (by eapply (sub_finite_not_nan _ BRIDGE_SIZE)).
  assert (is_nan (centerT + BRIDGE_SIZE) = false) as Hhi
    by (by eapply (add_finite_not_nan _ BRIDGE_SIZE)).
  apply leb_false in Hacc; [|done..]. apply leb_true in Hpos; [|done..].
  unfold wellFormedBridge. simpl.
  repeat split; try done.
  - by apply ltb_true.
  - by apply leb_true.
  - by apply leb_true.
  - apply leb_true; [done..|]. clear Hsex Heex. lex_arith.
  - by apply leb_true.
  - by apply leb_true.
  - by apply leb_true.
  - intros H1 H2. apply ltb_true in H1, H2; [|done..]. apply ltb_true; [done..|].
    clear Heex. destruct Hsex as [Hsex|Hsex]; rewrite Hsex; done.
  - intros H1 H2. apply ltb_true in H1, H2; [|done..]. apply ltb_true; [done..|].
    clear Hsex. destruct Heex as [Heex|Heex]; rewrite Heex; done.
Qed.

Lemma acceptedBridges_cons (seg : LineSegment) (currentT : number) (inter : Intersection)
    (rest : list Intersection) :
  acceptedBridges seg currentT (inter :: rest)
  = if bridgeEnd seg (Intersection.t inter) <=? bridgeStart currentT (Intersection.t inter)
    then acceptedBridges seg currentT rest
    else {| Bridge.fromT := currentT;
            Bridge.startT := bridgeStart currentT (Intersection.t inter);
            Bridge.centerT := Intersection.t inter;
            Bridge.endT := bridgeEnd seg (Intersection.t inter) |}
         :: acceptedBridges seg (bridgeEnd seg (Intersection.t inter)) rest.
Proof. reflexivity. Qed.

Lemma acceptedBridges_wellFormed (seg : LineSegment) (intersections : list Intersection)
    (currentT : number) (b : Bridge) :
  (0 <? LineSegment.len seg) = true →
  is_nan currentT = false → (0 <=? currentT) = true →
  Forall (λ inter, is_nan (Intersection.t inter) = false) intersections →
  b ∈ acceptedBridges seg currentT intersections →
  wellFormedBridge seg b.
Proof.
  intros Hlen. revert currentT.
  induction intersections as [|inter rest IH]; intros currentT Hcur Hpos Hall Hb.
  { by apply elem_of_nil in Hb. }
  rewrite acceptedBridges_cons in Hb. apply Forall_cons in Hall as [Hinter Hrest].
  destruct (bridgeEnd seg (Intersection.t inter)
            <=? bridgeStart currentT (Intersection.t inter)) eqn:Hacc;
    [by apply (IH currentT)|].
  pose proof (accepted_bridge_wellFormed seg currentT _ Hlen Hcur Hpos Hinter Hacc) as Hwf.
  apply elem_of_cons in Hb as [->|Hb]; [done|].
  destruct Hwf as (_ & _ & Hlt & _ & _ & Hs0 & _). simpl in Hlt, Hs0.
  destruct (ltb_not_nan _ _ Hlt) as [Hns Hne].
  apply (IH (bridgeEnd seg (Intersection.t inter))); [done| |done..].
  apply leb_true in Hs0; [|done..]. apply ltb_true in Hlt; [|done..].
  apply leb_true; [done..|]. lex_arith.
Qed.

Lemma acceptedBridges_center (seg : LineSegment) (intersections : list Intersection)
    (currentT : number) (b : Bridge) :
  b ∈ acceptedBridges seg currentT intersections →
  ∃ inter, inter ∈ intersections ∧ Bridge.centerT b = Intersection.t inter.
Proof.
  revert currentT. induction intersections as [|inter rest IH]; intros currentT Hb.
  { by apply elem_of_nil in Hb. }
  rewrite acceptedBridges_cons in Hb.
  destruct (_ <=? _).
  - destruct (IH _ Hb) as (inter' & Hin & Hc). exists inter'. by rewrite elem_of_cons; auto.
  - apply elem_of_cons in Hb as [->|Hb].
    + exists inter. split; [apply elem_of_cons; by left|done].
    + destruct (IH _ Hb) as (inter' & Hin & Hc). exists inter'. by rewrite elem_of_cons; auto.
Qed.

(** ** The scan for crossings *)

Lemma elem_of_findIntersections (seg : LineSegment) (allSegments : list LineSegment)
    (inter : Intersection) :
  inter ∈ findIntersections seg allSegments
  ↔ ∃ otherSeg, otherSeg ∈ allSegments
      ∧ (LineSegment.lineId otherSeg < LineSegment.lineId seg)%Z
      ∧ getIntersectionT seg otherSeg = Some (Intersection.t inter)
      ∧ Intersection.otherId inter = LineSegment.lineId otherSeg.
Proof.
  unfold findIntersections. rewrite list_elem_of_omap. split.
  - intros (otherSeg & Hin & Hsome). exists otherSeg. split; [done|].
    destruct (Z.eqb_spec (LineSegment.lineId otherSeg) (LineSegment.lineId seg));
      [discriminate|].
    destruct (Z.ltb_spec (LineSegment.lineId seg) (LineSegment.lineId otherSeg));
      [discriminate|].
    destruct (getIntersectionT seg otherSeg) as [d|]; [|discriminate].
    injection Hsome as <-. simpl. split; [lia|done].
  - intros (otherSeg & Hin & Hlt & Hd & Hid). exists otherSeg. split; [done|].
    destruct (Z.eqb_spec (LineSegment.lineId otherSeg) (LineSegment.lineId seg)); [lia|].
    destruct (Z.ltb_spec (LineSegment.lineId seg) (LineSegment.lineId otherSeg)); [lia|].
    rewrite Hd. destruct inter as [d o]. simpl in *. by subst.
Qed.

(** ** The first loop *)

Section FirstLoop.
Context {layout : Layout}.

Lemma getGripPosition_returns (item : CanvasItem) (gripIndex : Z) :
  (0 ≤ gripIndex)%Z → ∃ r, getGripPosition item gripIndex = Return r.
Proof.
  intros Hi. unfold getGripPosition. destruct (CanvasItem.grips item) as [grips|]; [|by eexists].
  destruct (Z.leb_spec (Z.of_nat (length grips)) gripIndex); [by eexists|].
  destruct (Array_get_in_range grips gripIndex) as [grip ->]; [lia|]. by eexists.
Qed.

Lemma routeConnection_line (conn : Connection) (items : list CanvasItem)
    (line : RawLine) (bends : list Point) :
  routeConnection conn items = Return (Some (line, bends)) →
  RawLine.id line = Connection.id conn
  ∧ ∀ seg, seg ∈ RawLine.segments line →
           LineSegment.lineId seg = Connection.id conn
           ∧ (0 <? LineSegment.len seg) = true.
Proof.
  unfold routeConnection.
  destruct (find _ items) as [source|]; [|done].
  destruct (find _ items) as [target|]; [|done].
  destruct (getGripPosition source _) as [[start|]|]; simpl; [| |done].
  2: { by destruct (getGripPosition target _) as [[?|]|]. }
  destruct (getGripPosition target _) as [[end_|]|]; simpl; [|done..].
  intros [= <- <-]. split; [done|]. intros seg Hseg%buildSegments_ends. tauto.
Qed.

Lemma buildGeometry_lines (connections : list Connection) (items : list CanvasItem)
    (rawLines rawLines' : list RawLine) (cw cw' : gmap Z (list Point)) :
  buildGeometry connections items rawLines cw = Return (rawLines', cw') →
  ∀ line, line ∈ rawLines'
          ↔ line ∈ rawLines
            ∨ ∃ conn bends, conn ∈ connections
                ∧ routeConnection conn items = Return (Some (line, bends)).
Proof.
  revert rawLines cw. induction connections as [|conn rest IH]; intros rawLines cw; simpl.
  { intros [= <- <-] line. split; [auto|]. intros [?|(? & ? & []%elem_of_nil & _)]; done. }
  destruct (routeConnection conn items) as [[[line0 bends0]|]|] eqn:Hconn; simpl; [| |done].
  - intros Hrest line. rewrite (IH _ _ Hrest), elem_of_app, list_elem_of_singleton. split.
    + intros [[?| ->]|(c & b & Hc & Hr)]; [by left| |].
      * right. exists conn, bends0. split; [apply elem_of_cons; by left|done].
      * right. exists c, b. split; [apply elem_of_cons; by right|done].
    + intros [?|(c & b & [->|Hc]%elem_of_cons & Hr)]; [by left; left| |].
      * left. right. congruence.
      * right. by exists c, b.
  - intros Hrest line. rewrite (IH _ _ Hrest). split.
    + intros [?|(c & b & Hc & Hr)]; [by left|].
      right. exists c, b. split; [apply elem_of_cons; by right|done].
    + intros [?|(c & b & [->|Hc]%elem_of_cons & Hr)]; [by left|congruence|].
      right. by exists c, b.
Qed.

Lemma buildGeometry_ids (connections : list Connection) (items : list CanvasItem)
    (rawLines rawLines' : list RawLine) (cw cw' : gmap Z (list Point)) :
  buildGeometry connections items rawLines cw = Return (rawLines', cw') →
  ∃ ids, map RawLine.id rawLines' = map RawLine.id rawLines ++ ids
         ∧ ids `sublist_of` map Connection.id connections.
Proof.
  revert rawLines cw. induction connections as [|conn rest IH]; intros rawLines cw; simpl.
  { intros [= <- <-]. exists []. by rewrite app_nil_r. }
  destruct (routeConnection conn items) as [[[line0 bends0]|]|] eqn:Hconn; simpl; [| |done].
  - intros (ids & Hids & Hsub)%IH. exists (Connection.id conn :: ids).
    apply routeConnection_line in Hconn as [Hid _].
    rewrite Hids, map_app. simpl. rewrite Hid, <- app_assoc. split; [done|].
    by apply sublist_skip.
  - intros (ids & Hids & Hsub)%IH. exists ids. split; [done|]. by apply sublist_cons.
Qed.

(** A pass over connections whose grip indices are not negative returns. *)
Lemma buildGeometry_returns (connections : list Connection) (items : list CanvasItem)
    (rawLines : list RawLine) (cw : gmap Z (list Point)) :
  (∀ conn, conn ∈ connections →
           (0 ≤ Connection.sourceGripIndex conn)%Z ∧ (0 ≤ Connection.targetGripIndex conn)%Z) →
  ∃ r, buildGeometry connections items rawLines cw = Return r.
Proof.
  revert rawLines cw. induction connections as [|conn rest IH]; intros rawLines cw Hidx; simpl.
  { by eexists. }
  assert (∃ r, routeConnection conn items = Return r) as [r ->].
  { destruct (Hidx conn) as [Hs Ht]; [apply elem_of_cons; by left|].
    unfold routeConnection.
    destruct (find _ items) as [source|]; [|by eexists].
    destruct (find _ items) as [target|]; [|by eexists].
    destruct (getGripPosition_returns source _ Hs) as [start ->].
    destruct (getGripPosition_returns target _ Ht) as [end_ ->]. simpl.
    destruct start, end_; by eexists. }
  simpl. destruct r as [[line bends]|]; apply IH; intros c Hc; apply Hidx, elem_of_cons; auto.
Qed.

End FirstLoop.

(** ** The output map *)

Section OutputMap.
Context {layout : Layout}.

Lemma renderLines_snoc (rawLines : list RawLine) (line : RawLine)
    (allSegments : list LineSegment) (cw : gmap Z (list Point)) (m : gmap Z PathMetadata) :
  fold_left (λ finalPaths line, <[RawLine.id line := renderLine allSegments cw line]> finalPaths)
            (rawLines ++ [line]) m
  = <[RawLine.id line := renderLine allSegments cw line]>
      (fold_left (λ finalPaths line,
                    <[RawLine.id line := renderLine allSegments cw line]> finalPaths)
                 rawLines m).
Proof. by rewrite fold_left_app. Qed.

Lemma fold_insert_lookup_Some (rawLines : list RawLine) (allSegments : list LineSegment)
    (cw : gmap Z (list Point)) (k : Z) (pm : PathMetadata) :
  fold_left (λ (finalPaths : gmap Z PathMetadata) line,
               <[RawLine.id line := renderLine allSegments cw line]> finalPaths)
            rawLines ∅ !! k = Some pm →
  ∃ line, line ∈ rawLines ∧ RawLine.id line = k ∧ pm = renderLine allSegments cw line.
Proof.
  induction rawLines as [|line rawLines IH] using rev_ind; [done|].
  rewrite renderLines_snoc. destruct (decide (RawLine.id line = k)) as [<-|Hne].
  - rewrite lookup_insert_eq. intros [= <-]. exists line. by rewrite elem_of_app, list_elem_of_singleton; auto.
  - rewrite lookup_insert_ne by done. intros (line' & Hin & Hid & Hpm)%IH.
    exists line'. by rewrite elem_of_app; auto.
Qed.

Lemma fold_insert_lookup_in (rawLines : list RawLine) (allSegments : list LineSegment)
    (cw : gmap Z (list Point)) (line : RawLine) :
  line ∈ rawLines →
  is_Some (fold_left (λ (finalPaths : gmap Z PathMetadata) line,
                        <[RawLine.id line := renderLine allSegments cw line]> finalPaths)
                     rawLines ∅ !! RawLine.id line).
Proof.
  induction rawLines as [|line' rawLines IH] using rev_ind; [by intros ?%elem_of_nil|].
  rewrite renderLines_snoc. destruct (decide (RawLine.id line' = RawLine.id line)) as [->|Hne].
  - rewrite lookup_insert_eq. by eexists.
  - rewrite lookup_insert_ne by done.
    rewrite elem_of_app, list_elem_of_singleton. intros [?| ->]; [auto|done].
Qed.

(** The entries of the output map are the ids of the lines. *)
Lemma renderLines_lookup_Some (rawLines : list RawLine) (cw : gmap Z (list Point))
    (k : Z) (pm : PathMetadata) :
  renderLines rawLines cw !! k = Some pm →
  ∃ line, line ∈ rawLines ∧ RawLine.id line = k
          ∧ pm = renderLine (flat_map RawLine.segments rawLines) cw line.
Proof. apply fold_insert_lookup_Some. Qed.

Lemma renderLines_lookup_in (rawLines : list RawLine) (cw : gmap Z (list Point))
    (line : RawLine) :
  line ∈ rawLines → is_Some (renderLines rawLines cw !! RawLine.id line).
Proof. apply fold_insert_lookup_in. Qed.

Lemma NoDup_ids_inj (rawLines : list RawLine) (line line' : RawLine) :
  NoDup (map RawLine.id rawLines) →
  line ∈ rawLines → line' ∈ rawLines → RawLine.id line' = RawLine.id line → line' = line.
Proof.
  intros Hnd (i & Hi)%list_elem_of_lookup (j & Hj)%list_elem_of_lookup Hid.
  assert (i = j) as ->; [|congruence].
  eapply (NoDup_lookup _ i j (RawLine.id line) Hnd).
  - change (map RawLine.id rawLines) with (RawLine.id <$> rawLines).
    by rewrite list_lookup_fmap, Hi.
  - change (map RawLine.id rawLines) with (RawLine.id <$> rawLines).
    by rewrite list_lookup_fmap, Hj, <- Hid.
Qed.

Lemma renderLines_lookup_unique (rawLines : list RawLine) (cw : gmap Z (list Point))
    (line : RawLine) :
  NoDup (map RawLine.id rawLines) → line ∈ rawLines →
  renderLines rawLines cw !! RawLine.id line
  = Some (renderLine (flat_map RawLine.segments rawLines) cw line).
Proof.
  intros Hnd Hin. destruct (renderLines_lookup_in rawLines cw line Hin) as [pm Hpm].
  rewrite Hpm. apply renderLines_lookup_Some in Hpm as (line' & Hin' & Hid & ->).
  by rewrite (NoDup_ids_inj rawLines line line').
Qed.

End OutputMap.

(** ** The whole pass *)

Section WholePass.
Context {layout : Layout}.

Lemma calculate_inv (connections : list Connection) (items : list CanvasItem)
    (finalPaths : gmap Z PathMetadata) :
  calculateManualPathsWithBridges connections items = Return finalPaths →
  ∃ rawLines connectionWaypoints,
    buildGeometry connections items [] ∅ = Return (rawLines, connectionWaypoints)
    ∧ finalPaths = renderLines rawLines connectionWaypoints.
Proof.
  unfold calculateManualPathsWithBridges.
  destruct (buildGeometry connections items [] ∅) as [[rawLines cw]|]; [|done].
  intros [= <-]. by exists rawLines, cw.
Qed.

Lemma rawLines_segment (connections : list Connection) (items : list CanvasItem)
    (rawLines : list RawLine) (cw : gmap Z (list Point)) (line : RawLine) (seg : LineSegment) :
  buildGeometry connections items [] ∅ = Return (rawLines, cw) →
  line ∈ rawLines → seg ∈ RawLine.segments line →
  seg ∈ flat_map RawLine.segments rawLines
  ∧ LineSegment.lineId seg = RawLine.id line
  ∧ (0 <? LineSegment.len seg) = true.
Proof.
  intros Hgeo Hline Hseg. split.
  { apply list_elem_of_In, in_flat_map. exists line. by rewrite <- !list_elem_of_In. }
  apply (buildGeometry_lines _ _ _ _ _ _ Hgeo) in Hline
    as [[]%elem_of_nil|(conn & bends & _ & Hroute)].
  apply routeConnection_line in Hroute as [-> Hsegs]. by apply Hsegs.
Qed.

Lemma rawLines_NoDup (connections : list Connection) (items : list CanvasItem)
    (rawLines : list RawLine) (cw : gmap Z (list Point)) :
  buildGeometry connections items [] ∅ = Return (rawLines, cw) →
  NoDup (map Connection.id connections) → NoDup (map RawLine.id rawLines).
Proof.
  intros (ids & -> & Hsub)%buildGeometry_ids Hnd. by eapply sublist_NoDup.
Qed.

Lemma sortedIntersections_not_nan (seg : LineSegment) (allSegments : list LineSegment) :
  (0 <? LineSegment.len seg) = true →
  Forall (λ inter, is_nan (Intersection.t inter) = false) (sortedIntersections seg allSegments).
Proof.
  intros Hlen. apply Forall_forall.
  intros inter (other & _ & _ & Hd & _)%elem_of_sortedIntersections%elem_of_findIntersections.
  by eapply getIntersectionT_not_nan.
Qed.

(** The entries of the output are the ids of the routable connections. *)
Lemma calculate_entries (connections : list Connection) (items : list CanvasItem)
    (finalPaths : gmap Z PathMetadata) (k : Z) :
  calculateManualPathsWithBridges connections items = Return finalPaths →
  is_Some (finalPaths !! k)
  ↔ ∃ conn, conn ∈ connections ∧ Connection.id conn = k ∧ routable conn items.
Proof.
  intros (rawLines & cw & Hgeo & ->)%calculate_inv. split.
  - intros [pm (line & Hline & <- & _)%renderLines_lookup_Some].
    apply (buildGeometry_lines _ _ _ _ _ _ Hgeo) in Hline
      as [[]%elem_of_nil|(conn & bends & Hconn & Hroute)].
    exists conn. split; [done|]. split; [|by exists line, bends].
    by apply routeConnection_line in Hroute as [-> _].
  - intros (conn & Hconn & <- & line & bends & Hroute).
    destruct (routeConnection_line _ _ _ _ Hroute) as [<- _].
    apply renderLines_lookup_in, (buildGeometry_lines _ _ _ _ _ _ Hgeo).
    right. by exists conn, bends.
Qed.

(** With no negative grip index the pass returns. *)
Lemma calculate_returns (connections : list Connection) (items : list CanvasItem) :
  (∀ conn, conn ∈ connections →
           (0 ≤ Connection.sourceGripIndex conn)%Z ∧ (0 ≤ Connection.targetGripIndex conn)%Z) →
  ∃ finalPaths, calculateManualPathsWithBridges connections items = Return finalPaths.
Proof.
  intros Hidx. unfold calculateManualPathsWithBridges.
  destruct (buildGeometry_returns connections items [] ∅ Hidx) as [[rawLines cw] ->].
  by eexists.
Qed.

(** C3, amended.  Every curve (Q) in a path of the output is the curve of
    a bridge whose interval satisfies startT < endT, 0 <= startT and
    endT <= segment.len, with startT the later of centerT - 12 and the
    point the segment had been drawn to (0, or the end of the bridge drawn
    before on the segment) and endT the earlier of centerT + 12 and the end
    of the segment; startT < centerT holds when that point is before
    centerT (and centerT - 12 < centerT), and centerT < endT when centerT is
    before the end of the segment (and centerT < centerT + 12).  A bridge
    whose interval would be empty (endT <= startT) is skipped: the step
    leaves the path and the drawn distance unchanged. *)
Theorem accepted_bridge_interval (connections : list Connection)
    (items : list CanvasItem) (finalPaths : gmap Z PathMetadata) :
  calculateManualPathsWithBridges connections items = Return finalPaths →
  ∃ rawLines connectionWaypoints,
    buildGeometry connections items [] ∅ = Return (rawLines, connectionWaypoints)
    ∧ finalPaths = renderLines rawLines connectionWaypoints
    ∧ let allSegments := flat_map RawLine.segments rawLines in
      (∀ k pm control p,
         finalPaths !! k = Some pm →
         Q control p ∈ PathMetadata.pathData pm →
         ∃ line seg b,
           line ∈ rawLines ∧ RawLine.id line = k
           ∧ seg ∈ RawLine.segments line ∧ b ∈ bridgesOf seg allSegments
           ∧ control = controlPoint seg (Bridge.centerT b)
           ∧ p = add (LineSegment.p1 seg) (mult (LineSegment.dir seg) (Bridge.endT b))
           ∧ Bridge.startT b = Math.max [Bridge.fromT b; Bridge.centerT b - 12]
           ∧ Bridge.endT b = Math.min [LineSegment.len seg; Bridge.centerT b + 12]
           ∧ (Bridge.startT b <? Bridge.endT b) = true
           ∧ (0 <=? Bridge.fromT b) = true
           ∧ (Bridge.fromT b <=? Bridge.startT b) = true
           ∧ (0 <=? Bridge.startT b) = true
           ∧ (Bridge.endT b <=? LineSegment.len seg) = true
           ∧ (Bridge.centerT b - 12 <=? Bridge.startT b) = true
           ∧ (Bridge.endT b <=? Bridge.centerT b + 12) = true
           ∧ ((Bridge.fromT b <? Bridge.centerT b) = true →
              (Bridge.centerT b - 12 <? Bridge.centerT b) = true →
              (Bridge.startT b <? Bridge.centerT b) = true)
           ∧ ((Bridge.centerT b <? LineSegment.len seg) = true →
              (Bridge.centerT b <? Bridge.centerT b + 12) = true →
              (Bridge.centerT b <? Bridge.endT b) = true))
      ∧ (∀ seg currentT pathData inter,
           (bridgeEnd seg (Intersection.t inter)
            <=? bridgeStart currentT (Intersection.t inter)) = true →
           bridgeStep seg (currentT, pathData) inter = (currentT, pathData)).
Proof.
  intros (rawLines & cw & Hgeo & ->)%calculate_inv.
  exists rawLines, cw. split; [done|]. split; [done|]. intros allSegments. split.
  - intros k pm control p (line & Hline & Hid & ->)%renderLines_lookup_Some
      (seg & b & Hseg & Hb & -> & ->)%renderLine_curves.
    exists line, seg, b. do 6 (split; [done|]).
    destruct (rawLines_segment _ _ _ _ _ _ Hgeo Hline Hseg) as (_ & _ & Hlen).
    apply (acceptedBridges_wellFormed seg (sortedIntersections seg allSegments) 0 b);
      [done|done|done| |done].
    by apply sortedIntersections_not_nan.
  - intros seg currentT pathData inter Hskip. unfold bridgeStep. by rewrite Hskip.
Qed.

End WholePass.

(** * The properties on the example diagrams *)

(** The right-hand grip of a box: the standoff is 20 to the right. *)
Example getStandoff_right_grip :
  getStandoff {| Point.x := 10; Point.y := 105 |} (Some rightGrip)
  = {| Point.x := 30; Point.y := 105 |}.
Proof. reflexivity. Qed.

Lemma getGripPosition_formula_witness :
  ∃ pt, getGripPosition (layout := specLayout) wideItem 0 = Return (Some pt)
        ∧ SameValueZero (Point.x pt) 5 ∧ Point.y pt = 107.
Proof.
  destruct (getGripPosition_formula (layout := specLayout) wideItem
              [ {| Grip.x := 0; Grip.y := 0 |}; {| Grip.x := 100; Grip.y := 100 |} ] 0
              eq_refl (conj (Z.le_refl 0) eq_refl))
    as (grip & Hgrip & _ & Hcorner).
  injection Hgrip as <-.
  exact (proj1 (Hcorner eq_refl eq_refl eq_refl eq_refl eq_refl) eq_refl).
Defined.

Lemma getGripPosition_negative_index_throws_witness :
  getGripPosition (layout := specLayout) (box 1 0 100 rightGrip) (-1) = Throw TypeError.
Proof.
  exact (getGripPosition_negative_index_throws (layout := specLayout)
           (box 1 0 100 rightGrip) [rightGrip] (-1) eq_refl eq_refl).
Defined.

(** C8. A connection whose source grip index is -1 makes the whole pass
    throw, whatever the layout: nothing is returned for the routable wire 3
    either. *)
Theorem stale_grip_index_throws (layout : Layout) :
  calculateManualPathsWithBridges [wire 3 1 2; staleWire; danglingWire] closeItems
  = Throw TypeError.
Proof. reflexivity. Qed.

(** Without the negative index, the connection to a missing item is left
    out and the routable one is kept. *)
Example dangling_wire_omitted :
  ∃ finalPaths,
    calculateManualPathsWithBridges (layout := specLayout)
      [wire 3 1 2; danglingWire] closeItems = Return finalPaths
    ∧ finalPaths !! 5%Z = None ∧ is_Some (finalPaths !! 3%Z).
Proof.
  exists (pathsOf [wire 3 1 2; danglingWire] closeItems).
  split; [vm_compute; reflexivity|]. split; [vm_compute; reflexivity|].
  vm_compute. by eexists.
Qed.

Lemma auto_routed_segments_axis_aligned_witness :
  ∃ line bends, routed (wire 3 1 2) closeItems = Some (line, bends)
    ∧ ∀ seg, seg ∈ RawLine.segments line → axisAligned seg.
Proof.
  destruct (routed (wire 3 1 2) closeItems) as [[line bends]|] eqn:Hrouted;
    [|vm_compute in Hrouted; discriminate Hrouted].
  exists line, bends. split; [reflexivity|].
  apply (auto_routed_segments_axis_aligned (layout := specLayout)
           (wire 3 1 2) closeItems line bends (or_introl eq_refl)).
  revert Hrouted. unfold routed.
  destruct (routeConnection (wire 3 1 2) closeItems) as [r|e]; [|discriminate].
  by intros ->.
Defined.

Lemma crossingWires_NoDup : NoDup (map Connection.id crossingWires).
Proof. compute_done. Defined.

Lemma closeItems_paths :
  calculateManualPathsWithBridges (layout := specLayout) crossingWires closeItems
  = Return (pathsOf crossingWires closeItems).
Proof. vm_compute. reflexivity. Defined.

Lemma accepted_bridge_interval_witness :
  ∃ rawLines connectionWaypoints,
    buildGeometry (layout := specLayout) crossingWires closeItems [] ∅
    = Return (rawLines, connectionWaypoints)
    ∧ pathsOf crossingWires closeItems = renderLines rawLines connectionWaypoints.
Proof.
  destruct (accepted_bridge_interval (layout := specLayout) crossingWires closeItems
              (pathsOf crossingWires closeItems) closeItems_paths)
    as (rawLines & cw & Hgeo & Hpaths & _).
  by exists rawLines, cw.
Defined.

(** The paths of the two examples the counterexamples below are about. *)
Example closeItems_wire3 :
  PathMetadata.pathData <$> pathsOf crossingWires closeItems !! 3%Z
  = Some [ M {| Point.x := 10; Point.y := 105 |};
           L {| Point.x := 30; Point.y := 105 |};
           L {| Point.x := 88; Point.y := 105 |};
           Q {| Point.x := 100; Point.y := 129 |} {| Point.x := 112; Point.y := 105 |};
           L {| Point.x := 112; Point.y := 105 |};
           Q {| Point.x := 110; Point.y := 129 |} {| Point.x := 122; Point.y := 105 |};
           L {| Point.x := 280; Point.y := 105 |};
           L {| Point.x := 300; Point.y := 105 |} ].
Proof. vm_compute. reflexivity. Qed.

Example closeItems_wire1 :
  PathMetadata.pathData <$> pathsOf crossingWires closeItems !! 1%Z
  = Some [ M {| Point.x := 100; Point.y := 10 |};
           L {| Point.x := 100; Point.y := 30 |};
           L {| Point.x := 100; Point.y := 180 |};
           L {| Point.x := 100; Point.y := 200 |} ].
Proof. vm_compute. reflexivity. Qed.

Example mesh_wire4 :
  PathMetadata.pathData <$> pathsOf meshWires meshItems !! 4%Z
  = Some [ M {| Point.x := 10; Point.y := 150 |};
           L {| Point.x := 10; Point.y := 150 |};
           Q {| Point.x := 20; Point.y := 174 |} {| Point.x := 30; Point.y := 150 |};
           L {| Point.x := 30; Point.y := 150 |};
           L {| Point.x := 280; Point.y := 150 |};
           L {| Point.x := 300; Point.y := 150 |} ].
Proof. vm_compute. reflexivity. Qed.

Example mesh_wire2 :
  PathMetadata.pathData <$> pathsOf meshWires meshItems !! 2%Z
  = Some [ M {| Point.x := 10; Point.y := 105 |};
           L {| Point.x := 10; Point.y := 105 |};
           Q {| Point.x := 20; Point.y := 129 |} {| Point.x := 30; Point.y := 105 |};
           L {| Point.x := 30; Point.y := 105 |};
           L {| Point.x := 280; Point.y := 105 |};
           L {| Point.x := 300; Point.y := 105 |} ].
Proof. vm_compute. reflexivity. Qed.

(** *** Where the specification's wording fails *)

(** Wire 3 crosses wires 1 and 2 at distances 70 and 80 along its middle
    segment.  The first bridge covers [58, 82]; the second starts where the
    first ended, at 82, past its own centre 80, and is accepted because it
    ends at 92. *)
Lemma bridge_containment_counterexample :
  ¬ bridgeContainmentAsStated (layout := specLayout) crossingWires closeItems.
Proof.
  intros Hclaim.
  let r := eval vm_compute in
             (buildGeometry (layout := specLayout) crossingWires closeItems [] ∅) in
  lazymatch r with
  | Return (?rawLines, ?cw) =>
      lazymatch rawLines with
      | ?line3 :: _ =>
          lazymatch line3 with
          | {| RawLine.segments := [_; ?middle; _] |} =>
              pose proof (Hclaim rawLines cw line3 middle
                            {| Bridge.fromT := 82; Bridge.startT := 82;
                               Bridge.centerT := 80; Bridge.endT := 92 |}) as Hc
          end
      end
  end.
  destruct Hc as [Hlt _].
  - vm_compute. reflexivity.
  - apply list_elem_of_here.
  - apply list_elem_of_further, list_elem_of_here.
  - vm_compute. apply list_elem_of_further, list_elem_of_here.
  - vm_compute in Hlt. discriminate Hlt.
Qed.

(** Why [centerT < endT] needs [centerT < centerT + 12]: at distance 2^57
    along a segment of length 2^60, adding 12 to [centerT] is absorbed by
    rounding while subtracting 12 is not, and the accepted bridge ends at its
    own centre. *)
Example absorbed_clearance :
  acceptedBridges
    {| LineSegment.p1 := {| Point.x := 0; Point.y := 0 |};
       LineSegment.p2 := {| Point.x := 0x1p60; Point.y := 0 |};
       LineSegment.lineId := 2;
       LineSegment.dir := {| Point.x := 1; Point.y := 0 |};
       LineSegment.len := 0x1p60 |}
    0 [ {| Intersection.t := 0x1p57; Intersection.otherId := 1 |} ]
  = [ {| Bridge.fromT := 0; Bridge.startT := 0x1p57 - 16;
         Bridge.centerT := 0x1p57; Bridge.endT := 0x1p57 |} ].
Proof. vm_compute. reflexivity. Qed.

(** * The rest of the module *)

Local Set Warnings "-clear-no-such-hyp".

(** ** Which connections are drawn, skipped, or make the pass throw *)

Section Skipping.
Context {layout : Layout}.

Lemma getGripPosition_throws_iff (item : CanvasItem) (gripIndex : Z) :
  getGripPosition item gripIndex = Throw TypeError
  ↔ ∃ grips, CanvasItem.grips item = Some grips ∧ (gripIndex < 0)%Z.
Proof.
  unfold getGripPosition. destruct (CanvasItem.grips item) as [grips|]; [|naive_solver].
  destruct (Z.leb_spec (Z.of_nat (length grips)) gripIndex) as [Hle|Hlt].
  { split; [done|]. intros (? & _ & ?). lia. }
  destruct (Z.ltb_spec gripIndex 0) as [Hneg|Hpos].
  - rewrite Array_get_negative by done. naive_solver.
  - destruct (Array_get_in_range grips gripIndex) as [grip ->]; [lia|].
    split; [done|]. intros (? & _ & ?). lia.
Qed.

Lemma getGripPosition_some_iff (item : CanvasItem) (gripIndex : Z) :
  (∃ p, getGripPosition item gripIndex = Return (Some p))
  ↔ ∃ grips, CanvasItem.grips item = Some grips
             ∧ (0 ≤ gripIndex < Z.of_nat (length grips))%Z.
Proof.
  unfold getGripPosition. destruct (CanvasItem.grips item) as [grips|]; [|naive_solver].
  destruct (Z.leb_spec (Z.of_nat (length grips)) gripIndex) as [Hle|Hlt].
  { split; [by intros [? ?]|]. intros (? & [= <-] & ?). lia. }
  destruct (Z.ltb_spec gripIndex 0) as [Hneg|Hpos].
  - rewrite Array_get_negative by done. split; [by intros [? ?]|].
    intros (? & _ & ?). lia.
  - destruct (Array_get_in_range grips gripIndex) as [grip ->]; [lia|].
    split; [|by eexists]. intros _. exists grips. split; [done|lia].
Qed.

Lemma getGripPosition_total (item : CanvasItem) (gripIndex : Z) :
  getGripPosition item gripIndex = Throw TypeError
  ∨ getGripPosition item gripIndex = Return None
  ∨ ∃ p, getGripPosition item gripIndex = Return (Some p).
Proof.
  destruct (getGripPosition item gripIndex) as [[p|]|[]]; eauto.
Qed.

(** The connections the first loop keeps: both items exist, both have
    grips, and both grip indices address a grip. *)
Lemma routable_iff (conn : Connection) (items : list CanvasItem) :
  routable conn items
  ↔ ∃ source target sourceGrips targetGrips,
      itemById items (Connection.sourceItemId conn) = Some source
      ∧ itemById items (Connection.targetItemId conn) = Some target
      ∧ CanvasItem.grips source = Some sourceGrips
      ∧ CanvasItem.grips target = Some targetGrips
      ∧ (0 ≤ Connection.sourceGripIndex conn < Z.of_nat (length sourceGrips))%Z
      ∧ (0 ≤ Connection.targetGripIndex conn < Z.of_nat (length targetGrips))%Z.
Proof.
  unfold routable, routeConnection, itemById.
  destruct (find _ items) as [source|]; [|naive_solver].
  destruct (find _ items) as [target|]; [|naive_solver].
  pose proof (getGripPosition_some_iff source (Connection.sourceGripIndex conn)) as Hs.
  pose proof (getGripPosition_some_iff target (Connection.targetGripIndex conn)) as Ht.
  destruct (getGripPosition source _) as [[start|]|[]];
    destruct (getGripPosition target _) as [[end_|]|[]]; simpl.
  all: split;
    [ intros (line & bends & Heq); try discriminate
    | intros (? & ? & gs & gt & [= <-] & [= <-] & Hgs & Hgt & Hsi & Hti) ].
  all: try (destruct (proj1 Hs) as (gs & Hgs & Hsi); [by eexists|]).
  all: try (destruct (proj1 Ht) as (gt & Hgt & Hti); [by eexists|]).
  all: try (by exists source, target, gs, gt).
  all: try (by eexists _, _).
  all: try (destruct (proj2 Hs) as [? ?]; [by eexists|]; discriminate).
  all: try (destruct (proj2 Ht) as [? ?]; [by eexists|]; discriminate).
Qed.

(** X1. A connection whose source or target item is not on the canvas is
    skipped, whatever its grip indices are: the grips are never looked at. *)
Theorem missing_item_skipped (conn : Connection) (items : list CanvasItem) :
  itemById items (Connection.sourceItemId conn) = None
  ∨ itemById items (Connection.targetItemId conn) = None →
  routeConnection conn items = Return None.
Proof.
  unfold routeConnection, itemById. intros [-> | ->]; [done|].
  by destruct (find _ items).
Qed.

(** X2. Grip indices being integers: routing a connection throws exactly
    when both of its items are on the canvas and a negative grip index meets
    an item that has a grips array, at the source or at the target: the
    target's grip is resolved even when the source's was not found.  (An
    index that is not an integer, which also finds no grip in the array in
    the source, is not an index of the model.) *)
Theorem routeConnection_throws_iff (conn : Connection) (items : list CanvasItem) :
  routeConnection conn items = Throw TypeError
  ↔ ∃ source target,
      itemById items (Connection.sourceItemId conn) = Some source
      ∧ itemById items (Connection.targetItemId conn) = Some target
      ∧ ((∃ grips, CanvasItem.grips source = Some grips
                   ∧ (Connection.sourceGripIndex conn < 0)%Z)
         ∨ (∃ grips, CanvasItem.grips target = Some grips
                     ∧ (Connection.targetGripIndex conn < 0)%Z)).
Proof.
  unfold routeConnection, itemById.
  destruct (find _ items) as [source|]; [|naive_solver].
  destruct (find _ items) as [target|]; [|naive_solver].
  pose proof (getGripPosition_throws_iff source (Connection.sourceGripIndex conn)) as Hs.
  pose proof (getGripPosition_throws_iff target (Connection.targetGripIndex conn)) as Ht.
  destruct (getGripPosition source _) as [[start|]|[]];
    destruct (getGripPosition target _) as [[end_|]|[]]; simpl.
  all: split; [ try discriminate; intros _; exists source, target; tauto |].
  all: intros (? & ? & [= <-] & [= <-] & [H|H]); try done.
  all: try (apply Hs in H; discriminate).
  all: try (apply Ht in H; discriminate).
Qed.

End Skipping.

(** ** The first loop as a whole *)

Section Geometry.
Context {layout : Layout}.

Lemma buildGeometry_cons (conn : Connection) (rest : list Connection)
    (items : list CanvasItem) (rawLines : list RawLine) (cw : gmap Z (list Point)) :
  buildGeometry (conn :: rest) items rawLines cw =
    match routeConnection conn items with
    | Throw e => Throw e
    | Return None => buildGeometry rest items rawLines cw
    | Return (Some (line, bends)) =>
        buildGeometry rest items (rawLines ++ [line]) (<[Connection.id conn := bends]> cw)
    end.
Proof. simpl. by destruct (routeConnection conn items) as [[[line bends]|]|e]. Qed.

Lemma buildGeometry_app (pre post : list Connection) (items : list CanvasItem)
    (rawLines : list RawLine) (cw : gmap Z (list Point)) :
  buildGeometry (pre ++ post) items rawLines cw =
    match buildGeometry pre items rawLines cw with
    | Return (rawLines', cw') => buildGeometry post items rawLines' cw'
    | Throw e => Throw e
    end.
Proof.
  revert rawLines cw. induction pre as [|conn pre IH]; intros rawLines cw; [done|].
  change ((conn :: pre) ++ post) with (conn :: (pre ++ post)).
  rewrite !buildGeometry_cons.
  destruct (routeConnection conn items) as [[[line bends]|]|e]; [apply IH..|done].
Qed.

Lemma buildGeometry_throws_iff (connections : list Connection) (items : list CanvasItem)
    (rawLines : list RawLine) (cw : gmap Z (list Point)) :
  buildGeometry connections items rawLines cw = Throw TypeError
  ↔ ∃ conn, conn ∈ connections ∧ routeConnection conn items = Throw TypeError.
Proof.
  revert rawLines cw. induction connections as [|conn rest IH]; intros rawLines cw.
  { split; [done|]. intros (? & H & _). by apply elem_of_nil in H. }
  rewrite buildGeometry_cons.
  destruct (routeConnection conn items) as [[[line bends]|]|[]] eqn:E.
  - rewrite IH. split; intros (c & Hc & Ht).
    + exists c. split; [by apply list_elem_of_further|done].
    + apply elem_of_cons in Hc as [-> |Hc]; [congruence|by exists c].
  - rewrite IH. split; intros (c & Hc & Ht).
    + exists c. split; [by apply list_elem_of_further|done].
    + apply elem_of_cons in Hc as [-> |Hc]; [congruence|by exists c].
  - split; [|done]. intros _. exists conn. split; [apply list_elem_of_here|done].
Qed.

(** What a run of the first loop adds: lines at the end of [rawLines], each
    built from a connection of the input, and bends under ids of routable
    connections only. *)
Lemma buildGeometry_adds (connections : list Connection) (items : list CanvasItem)
    (rawLines rawLines' : list RawLine) (cw cw' : gmap Z (list Point)) :
  buildGeometry connections items rawLines cw = Return (rawLines', cw') →
  ∃ lines, rawLines' = rawLines ++ lines
    ∧ (∀ line, line ∈ lines →
         ∃ conn bends, conn ∈ connections
           ∧ routeConnection conn items = Return (Some (line, bends)))
    ∧ (∀ k, (∀ conn, conn ∈ connections → routable conn items → Connection.id conn ≠ k) →
            cw' !! k = cw !! k).
Proof.
  revert rawLines cw. induction connections as [|conn rest IH]; intros rawLines cw.
  { intros [= <- <-]. exists []. rewrite app_nil_r. split; [done|]. split; [|done].
    intros ? H. by apply elem_of_nil in H. }
  rewrite buildGeometry_cons.
  destruct (routeConnection conn items) as [[[line bends]|]|e] eqn:E; [| |done]; intros H.
  - destruct (IH _ _ H) as (lines & -> & Hlines & Hcw).
    exists (line :: lines). rewrite <- app_assoc. split; [done|]. split.
    + intros l [-> |Hl]%elem_of_cons.
      * exists conn, bends. split; [apply list_elem_of_here|done].
      * destruct (Hlines l Hl) as (c & b & Hc & Hr).
        exists c, b. split; [by apply list_elem_of_further|done].
    + intros k Hk. rewrite Hcw.
      * apply lookup_insert_ne. apply Hk; [apply list_elem_of_here|by eexists _, _].
      * intros c Hc. apply Hk. by apply list_elem_of_further.
  - destruct (IH _ _ H) as (lines & -> & Hlines & Hcw).
    exists lines. split; [done|]. split.
    + intros l Hl. destruct (Hlines l Hl) as (c & b & Hc & Hr).
      exists c, b. split; [by apply list_elem_of_further|done].
    + intros k Hk. apply Hcw. intros c Hc. apply Hk. by apply list_elem_of_further.
Qed.

(** X3. The pass throws exactly when routing one of the connections
    throws; otherwise it returns a map. *)
Theorem calculate_throws_iff (connections : list Connection) (items : list CanvasItem) :
  calculateManualPathsWithBridges connections items = Throw TypeError
  ↔ ∃ conn, conn ∈ connections ∧ routeConnection conn items = Throw TypeError.
Proof.
  rewrite <- (buildGeometry_throws_iff connections items [] ∅).
  unfold calculateManualPathsWithBridges.
  by destruct (buildGeometry connections items [] ∅) as [[rawLines cw]|[]].
Qed.

(** X4. The keys of the returned map: there is an entry under [k] exactly
    when a connection with id [k] has both items on the canvas, both with
    grips, and both grip indices inside the grips arrays. *)
Theorem finalPaths_entry_iff (connections : list Connection) (items : list CanvasItem)
    (finalPaths : gmap Z PathMetadata) (k : Z) :
  calculateManualPathsWithBridges connections items = Return finalPaths →
  is_Some (finalPaths !! k)
  ↔ ∃ conn source target sourceGrips targetGrips,
      conn ∈ connections ∧ Connection.id conn = k
      ∧ itemById items (Connection.sourceItemId conn) = Some source
      ∧ itemById items (Connection.targetItemId conn) = Some target
      ∧ CanvasItem.grips source = Some sourceGrips
      ∧ CanvasItem.grips target = Some targetGrips
      ∧ (0 ≤ Connection.sourceGripIndex conn < Z.of_nat (length sourceGrips))%Z
      ∧ (0 ≤ Connection.targetGripIndex conn < Z.of_nat (length targetGrips))%Z.
Proof.
  intros Hcalc. rewrite (calculate_entries _ _ _ k Hcalc). split.
  - intros (conn & Hin & Hk & Hr). apply routable_iff in Hr as (s & t & gs & gt & H).
    by exists conn, s, t, gs, gt.
  - intros (conn & s & t & gs & gt & Hin & Hk & H). exists conn.
    split; [done|]. split; [done|]. apply routable_iff. by exists s, t, gs, gt.
Qed.

(** X5. Empty inputs: with no items on the canvas every connection is
    skipped, so the pass returns the empty map and cannot throw, whatever
    the grip indices; with no connections it returns the empty map too. *)
Theorem calculate_empty_inputs (connections : list Connection) (items : list CanvasItem) :
  calculateManualPathsWithBridges connections [] = Return ∅
  ∧ calculateManualPathsWithBridges [] items = Return ∅.
Proof.
  split; [|done]. unfold calculateManualPathsWithBridges.
  assert (∀ rawLines cw, buildGeometry connections [] rawLines cw = Return (rawLines, cw)) as ->.
  { induction connections as [|conn rest IH]; intros rawLines cw; [done|].
    rewrite buildGeometry_cons. apply IH. }
  done.
Qed.

(** X6. A skipped connection leaves no trace: taking it out of the input
    changes neither the returned map nor whether the pass throws. *)
Theorem skipped_connection_ignored (pre post : list Connection) (conn : Connection)
    (items : list CanvasItem) :
  routeConnection conn items = Return None →
  calculateManualPathsWithBridges (pre ++ conn :: post) items
  = calculateManualPathsWithBridges (pre ++ post) items.
Proof.
  intros Hskip. unfold calculateManualPathsWithBridges.
  rewrite !buildGeometry_app.
  destruct (buildGeometry pre items [] ∅) as [[rawLines cw]|e]; [|done].
  by rewrite buildGeometry_cons, Hskip.
Qed.

End Geometry.

(** ** The entry of a connection *)

Section Entries.
Context {layout : Layout}.

Lemma fold_insert_lookup_other (rawLines : list RawLine) (allSegments : list LineSegment)
    (cw : gmap Z (list Point)) (m : gmap Z PathMetadata) (k : Z) :
  (∀ line, line ∈ rawLines → RawLine.id line ≠ k) →
  fold_left (fun (finalPaths : gmap Z PathMetadata) line =>
               <[RawLine.id line := renderLine allSegments cw line]> finalPaths)
            rawLines m !! k = m !! k.
Proof.
  revert m. induction rawLines as [|line rest IH]; intros m Hk; [done|].
  simpl. rewrite IH.
  - apply lookup_insert_ne. apply Hk, list_elem_of_here.
  - intros l Hl. apply Hk. by apply list_elem_of_further.
Qed.

Lemma renderLines_lookup_last (before after : list RawLine) (line : RawLine)
    (cw : gmap Z (list Point)) :
  (∀ l, l ∈ after → RawLine.id l ≠ RawLine.id line) →
  renderLines (before ++ line :: after) cw !! RawLine.id line
  = Some (renderLine (flat_map RawLine.segments (before ++ line :: after)) cw line).
Proof.
  intros Hafter. unfold renderLines. rewrite fold_left_app. simpl.
  rewrite fold_insert_lookup_other by done. apply lookup_insert_eq.
Qed.

(** The entry under the id of a routable connection that no routable
    connection later in the input shares its id with. *)
Lemma entry_of_last (pre post : list Connection) (conn : Connection)
    (items : list CanvasItem) (finalPaths : gmap Z PathMetadata)
    (line : RawLine) (bends : list Point) :
  calculateManualPathsWithBridges (pre ++ conn :: post) items = Return finalPaths →
  routeConnection conn items = Return (Some (line, bends)) →
  (∀ c, c ∈ post → routable c items → Connection.id c ≠ Connection.id conn) →
  ∃ rawLines cw,
    buildGeometry (pre ++ conn :: post) items [] ∅ = Return (rawLines, cw)
    ∧ line ∈ rawLines
    ∧ cw !! Connection.id conn = Some bends
    ∧ finalPaths !! Connection.id conn
      = Some (renderLine (flat_map RawLine.segments rawLines) cw line).
Proof.
  intros Hcalc Hroute Hpost.
  destruct (calculate_inv _ _ _ Hcalc) as (rawLines & cw & Hbuild & ->).
  exists rawLines, cw. split; [done|].
  rewrite buildGeometry_app in Hbuild.
  destruct (buildGeometry pre items [] ∅) as [[rawLines1 cw1]|e]; [|done].
  rewrite buildGeometry_cons, Hroute in Hbuild.
  destruct (buildGeometry_adds _ _ _ _ _ _ Hbuild) as (lines & -> & Hlines & Hcw).
  destruct (routeConnection_line _ _ _ _ Hroute) as [Hid _].
  split; [|split].
  - apply elem_of_app. left. apply elem_of_app. right. apply list_elem_of_here.
  - rewrite Hcw by done. apply lookup_insert_eq.
  - rewrite <- Hid, <- app_assoc. apply renderLines_lookup_last.
    intros l Hl. destruct (Hlines l Hl) as (c & b & Hc & Hr).
    destruct (routeConnection_line _ _ _ _ Hr) as [-> _]. rewrite Hid.
    apply Hpost; [done|by eexists _, _].
Qed.

(** X7. When several connections share an id, the entry under that id is
    the drawing of the last routable one among them, and its [waypoints]
    are that connection's bends. *)
Theorem last_connection_wins (pre post : list Connection) (conn : Connection)
    (items : list CanvasItem) (finalPaths : gmap Z PathMetadata)
    (line : RawLine) (bends : list Point) :
  calculateManualPathsWithBridges (pre ++ conn :: post) items = Return finalPaths →
  routeConnection conn items = Return (Some (line, bends)) →
  (∀ c, c ∈ post → routable c items → Connection.id c ≠ Connection.id conn) →
  ∃ rawLines cw pm,
    buildGeometry (pre ++ conn :: post) items [] ∅ = Return (rawLines, cw)
    ∧ finalPaths !! Connection.id conn = Some pm
    ∧ pm = renderLine (flat_map RawLine.segments rawLines) cw line
    ∧ PathMetadata.waypoints pm = Some bends.
Proof.
  intros Hcalc Hroute Hpost.
  destruct (entry_of_last _ _ _ _ _ _ _ Hcalc Hroute Hpost) as (rawLines & cw & Hb & _ & Hcw & Hpm).
  exists rawLines, cw, (renderLine (flat_map RawLine.segments rawLines) cw line).
  repeat (split; [done|]). simpl.
  by destruct (routeConnection_line _ _ _ _ Hroute) as [-> _].
Qed.

(** What the first loop computes for a connection it keeps. *)
Lemma routeConnection_inv (conn : Connection) (items : list CanvasItem)
    (line : RawLine) (bends : list Point) :
  routeConnection conn items = Return (Some (line, bends)) →
  ∃ source target start end_,
    itemById items (Connection.sourceItemId conn) = Some source
    ∧ itemById items (Connection.targetItemId conn) = Some target
    ∧ getGripPosition source (Connection.sourceGripIndex conn) = Return (Some start)
    ∧ getGripPosition target (Connection.targetGripIndex conn) = Return (Some end_)
    ∧ let startStandoff :=
        getStandoff start (gripAt source (Connection.sourceGripIndex conn)) in
      let endStandoff :=
        getStandoff end_ (gripAt target (Connection.targetGripIndex conn)) in
      bends = connectionBends conn items startStandoff endStandoff
      ∧ line = {| RawLine.id := Connection.id conn;
                  RawLine.segments :=
                    buildSegments (Connection.id conn)
                      (connectionPoints start startStandoff bends endStandoff end_) |}.
Proof.
  unfold routeConnection, itemById.
  destruct (find _ items) as [source|]; [|done].
  destruct (find _ items) as [target|]; [|done].
  destruct (getGripPosition source _) as [[start|]|[]] eqn:Hstart;
    destruct (getGripPosition target _) as [[end_|]|[]] eqn:Hend; simpl; try done.
  intros [= <- <-]. by exists source, target, start, end_.
Qed.

(** X8. Ids identifying the connections, the [waypoints] reported for a
    drawn connection are its own waypoints when it has any, unchanged and
    in order; if it has none (absent or an empty array) they are what
    [smartRoute] returns for the standoff points of its two grips and the
    items of the canvas, which is one or two bends. *)
Theorem reported_waypoints (connections : list Connection) (items : list CanvasItem)
    (finalPaths : gmap Z PathMetadata) (conn : Connection) :
  calculateManualPathsWithBridges connections items = Return finalPaths →
  NoDup (map Connection.id connections) →
  conn ∈ connections → routable conn items →
  ∃ pm source target start end_,
    finalPaths !! Connection.id conn = Some pm
    ∧ itemById items (Connection.sourceItemId conn) = Some source
    ∧ itemById items (Connection.targetItemId conn) = Some target
    ∧ getGripPosition source (Connection.sourceGripIndex conn) = Return (Some start)
    ∧ getGripPosition target (Connection.targetGripIndex conn) = Return (Some end_)
    ∧ let startStandoff :=
        getStandoff start (gripAt source (Connection.sourceGripIndex conn)) in
      let endStandoff :=
        getStandoff end_ (gripAt target (Connection.targetGripIndex conn)) in
      match Connection.waypoints conn with
      | Some (w :: ws) => PathMetadata.waypoints pm = Some (w :: ws)
      | _ => PathMetadata.waypoints pm = Some (smartRoute startStandoff endStandoff items)
             ∧ (length (smartRoute startStandoff endStandoff items) = 1%nat
                ∨ length (smartRoute startStandoff endStandoff items) = 2%nat)
      end.
Proof.
  intros Hcalc Hnodup Hin (line & bends & Hroute).
  apply list_elem_of_split in Hin as (pre & post & ->).
  destruct (entry_of_last _ _ _ _ _ _ _ Hcalc Hroute) as (rawLines & cw & _ & _ & Hcw & Hpm).
  { intros c Hc _ Heq. rewrite map_app in Hnodup. simpl in Hnodup.
    apply NoDup_app in Hnodup as (_ & _ & Hnodup). apply NoDup_cons in Hnodup as [Hnot _].
    apply Hnot. rewrite <- Heq. apply list_elem_of_In, in_map, list_elem_of_In, Hc. }
  destruct (routeConnection_inv _ _ _ _ Hroute)
    as (source & target & start & end_ & Hs & Ht & Hstart & Hend & Hbends).
  cbv zeta in Hbends. destruct Hbends as [Hbends _].
  eexists _, source, target, start, end_. split; [exact Hpm|]. repeat (split; [done|]).
  intros startStandoff endStandoff.
  assert (PathMetadata.waypoints
            (renderLine (flat_map RawLine.segments rawLines) cw line) = Some bends) as Hw.
  { simpl. by destruct (routeConnection_line _ _ _ _ Hroute) as [-> _]. }
  rewrite Hw, Hbends. fold startStandoff endStandoff. unfold connectionBends.
  assert (length (smartRoute startStandoff endStandoff items) = 1%nat
          ∨ length (smartRoute startStandoff endStandoff items) = 2%nat) as Hlen.
  { pose proof (smartRoute_candidate startStandoff endStandoff items) as Hc.
    unfold candidates in Hc.
    repeat (apply elem_of_cons in Hc as [-> |Hc]; [simpl; auto|]).
    by apply elem_of_nil in Hc. }
  by destruct (Connection.waypoints conn) as [[|w ws]|].
Qed.

End Entries.

(** ** The shape of a path *)

Section Paths.
Context {layout : Layout}.

Lemma segmentPath_no_move (allSegments : list LineSegment) (seg : LineSegment) (p : Point) :
  M p ∉ segmentPath allSegments seg.
Proof.
  unfold segmentPath. intros [H|H]%elem_of_app.
  - apply list_elem_of_In, in_flat_map in H as (b & _ & H).
    unfold bridgePath, bridgeCommands in H. simpl in H. by destruct H as [?|[?|[]]].
  - by apply list_elem_of_singleton in H.
Qed.

Lemma segmentPath_last (allSegments : list LineSegment) (seg : LineSegment) :
  last (segmentPath allSegments seg) = Some (L (LineSegment.p2 seg)).
Proof. unfold segmentPath. apply last_snoc. Qed.

Lemma segments_path_shape (allSegments segs : list LineSegment) (lastSeg : LineSegment) :
  last segs = Some lastSeg →
  (∀ p, M p ∉ flat_map (segmentPath allSegments) segs)
  ∧ last (flat_map (segmentPath allSegments) segs) = Some (L (LineSegment.p2 lastSeg)).
Proof.
  intros Hlast. split.
  - intros p H. apply list_elem_of_In, in_flat_map in H as (seg & _ & H).
    by apply list_elem_of_In, segmentPath_no_move in H.
  - destruct (last_Some segs lastSeg) as [[front ->] _]; [done|].
    rewrite flat_map_app. simpl. rewrite app_nil_r. unfold segmentPath at 2.
    rewrite app_assoc. apply last_snoc.
Qed.

Lemma renderLine_shape (allSegments : list LineSegment) (cw : gmap Z (list Point))
    (line : RawLine) :
  let pm := renderLine allSegments cw line in
  match RawLine.segments line with
  | [] => PathMetadata.pathData pm = [] ∧ PathMetadata.endPoint pm = None
  | seg0 :: _ =>
      ∃ body lastSeg,
        last (RawLine.segments line) = Some lastSeg
        ∧ PathMetadata.pathData pm = M (LineSegment.p1 seg0) :: body
        ∧ (∀ p, M p ∉ body)
        ∧ last body = Some (L (LineSegment.p2 lastSeg))
        ∧ PathMetadata.endPoint pm
          = Some {| Point.x := Point.x (LineSegment.p2 lastSeg)
                               - Point.x (LineSegment.dir lastSeg) * 4.5;
                    Point.y := Point.y (LineSegment.p2 lastSeg)
                               - Point.y (LineSegment.dir lastSeg) * 4.5 |}
  end.
Proof.
  unfold renderLine. cbv zeta. rewrite fold_renderSegment.
  destruct (RawLine.segments line) as [|seg0 rest] eqn:E; [done|].
  destruct (last (seg0 :: rest)) as [lastSeg|] eqn:Hlast.
  2: { by apply last_None in Hlast. }
  destruct (segments_path_shape allSegments _ _ Hlast) as [Hno Hend].
  exists (flat_map (segmentPath allSegments) (seg0 :: rest)), lastSeg.
  done.
Qed.

End Paths.

(** ** Bridges along one segment *)

Lemma acceptedBridges_head (seg : LineSegment) (intersections : list Intersection)
    (currentT : number) (b : Bridge) :
  head (acceptedBridges seg currentT intersections) = Some b →
  Bridge.fromT b = currentT.
Proof.
  induction intersections as [|inter rest IH]; [done|].
  rewrite acceptedBridges_cons. destruct (_ <=? _); [done|].
  by intros [= <-].
Qed.

Lemma acceptedBridges_chain (seg : LineSegment) (intersections : list Intersection)
    (currentT : number) (b1 b2 : Bridge) :
  (b1, b2) ∈ consecutive (acceptedBridges seg currentT intersections) →
  Bridge.fromT b2 = Bridge.endT b1.
Proof.
  revert currentT. induction intersections as [|inter rest IH]; intros currentT.
  { simpl. intros H. by apply elem_of_nil in H. }
  rewrite acceptedBridges_cons. destruct (_ <=? _); [apply IH|].
  destruct (acceptedBridges seg (bridgeEnd seg (Intersection.t inter)) rest)
    as [|b' l] eqn:E.
  { simpl. intros H. by apply elem_of_nil in H. }
  change (consecutive (?b :: b' :: l)) with ((b, b') :: consecutive (b' :: l)).
  intros [[= -> ->]|H]%elem_of_cons.
  - simpl. apply (acceptedBridges_head seg rest). by rewrite E.
  - apply (IH (bridgeEnd seg (Intersection.t inter))). by rewrite E.
Qed.

Lemma consecutive_elem_of {A} (l : list A) (a b : A) :
  (a, b) ∈ consecutive l → a ∈ l ∧ b ∈ l.
Proof.
  induction l as [|x [|y l] IH]; simpl.
  1,2: intros H; by apply elem_of_nil in H.
  intros [[= -> ->]|H]%elem_of_cons.
  - split; [apply list_elem_of_here|apply list_elem_of_further, list_elem_of_here].
  - destruct (IH H). split; by apply list_elem_of_further.
Qed.

(** X10. The bridges drawn on a segment follow one another without
    overlap: each is a non-empty interval, and the next one starts at or
    after the end of the one before, which is the point the loop had drawn
    the segment to.  These are the bridges of the path of the segment. *)
Theorem bridges_do_not_overlap (seg : LineSegment) (allSegments : list LineSegment)
    (b1 b2 : Bridge) :
  (0 <? LineSegment.len seg) = true →
  (b1, b2) ∈ consecutive (bridgesOf seg allSegments) →
  (∀ pathData, renderSegment allSegments pathData seg
               = pathData ++ flat_map (bridgePath seg) (bridgesOf seg allSegments)
                          ++ [L (LineSegment.p2 seg)])
  ∧ (Bridge.startT b1 <? Bridge.endT b1) = true
  ∧ Bridge.fromT b2 = Bridge.endT b1
  ∧ (Bridge.endT b1 <=? Bridge.startT b2) = true
  ∧ (Bridge.startT b2 <? Bridge.endT b2) = true.
Proof.
  intros Hlen Hpair. split; [intros pathData; apply renderSegment_path|].
  pose proof (acceptedBridges_chain _ _ _ _ _ Hpair) as Hfrom.
  apply consecutive_elem_of in Hpair as [H1 H2].
  assert (∀ b, b ∈ bridgesOf seg allSegments → wellFormedBridge seg b) as Hwf.
  { intros b Hb.
    apply (acceptedBridges_wellFormed seg (sortedIntersections seg allSegments) 0 b);
      [done|reflexivity|reflexivity| |exact Hb].
    by apply sortedIntersections_not_nan. }
  destruct (Hwf b1 H1) as (_ & _ & Hne1 & _).
  destruct (Hwf b2 H2) as (_ & _ & Hne2 & _ & Hle & _).
  split; [exact Hne1|]. split; [exact Hfrom|]. split; [by rewrite <- Hfrom|exact Hne2].
Qed.

(** ** Lines of higher id *)

Lemma findIntersections_higher (seg : LineSegment) (others : list LineSegment) :
  (∀ other, other ∈ others → (LineSegment.lineId seg ≤ LineSegment.lineId other)%Z) →
  findIntersections seg others = [].
Proof.
  induction others as [|other rest IH]; intros Hle; [done|].
  unfold findIntersections. simpl.
  pose proof (Hle other (list_elem_of_here _ _)) as Hother.
  destruct (Z.eqb_spec (LineSegment.lineId other) (LineSegment.lineId seg)).
  { apply IH. intros o Ho. by apply Hle, list_elem_of_further. }
  destruct (Z.ltb_spec (LineSegment.lineId seg) (LineSegment.lineId other)); [|lia].
  apply IH. intros o Ho. by apply Hle, list_elem_of_further.
Qed.

Lemma sortedIntersections_higher (seg : LineSegment) (allSegments others : list LineSegment) :
  (∀ other, other ∈ others → (LineSegment.lineId seg ≤ LineSegment.lineId other)%Z) →
  sortedIntersections seg (allSegments ++ others) = sortedIntersections seg allSegments.
Proof.
  intros Hle. unfold sortedIntersections.
  assert (findIntersections seg (allSegments ++ others)
          = findIntersections seg allSegments ++ findIntersections seg others) as ->
    by apply omap_app.
  by rewrite (findIntersections_higher seg others), app_nil_r.
Qed.

Lemma flat_map_ext_elem_of {A B} (f g : A → list B) (l : list A) :
  (∀ a, a ∈ l → f a = g a) → flat_map f l = flat_map g l.
Proof.
  induction l as [|a l IH]; intros H; [done|]. simpl.
  rewrite (H a) by apply list_elem_of_here.
  rewrite IH; [done|]. intros b Hb. by apply H, list_elem_of_further.
Qed.

Lemma renderLine_ext (allSegments allSegments' : list LineSegment)
    (cw cw' : gmap Z (list Point)) (line : RawLine) :
  (∀ seg, seg ∈ RawLine.segments line →
          sortedIntersections seg allSegments' = sortedIntersections seg allSegments) →
  cw' !! RawLine.id line = cw !! RawLine.id line →
  renderLine allSegments' cw' line = renderLine allSegments cw line.
Proof.
  intros Hseg Hcw. unfold renderLine. cbv zeta. rewrite !fold_renderSegment, Hcw.
  rewrite (flat_map_ext_elem_of (segmentPath allSegments') (segmentPath allSegments)); [done|].
  intros seg Hin. unfold segmentPath, bridgesOf. by rewrite Hseg.
Qed.

Lemma fold_insert_ext (rawLines : list RawLine) (f g : RawLine → PathMetadata)
    (m : gmap Z PathMetadata) :
  (∀ line, line ∈ rawLines → f line = g line) →
  fold_left (fun (finalPaths : gmap Z PathMetadata) line =>
               <[RawLine.id line := f line]> finalPaths) rawLines m
  = fold_left (fun (finalPaths : gmap Z PathMetadata) line =>
               <[RawLine.id line := g line]> finalPaths) rawLines m.
Proof.
  revert m. induction rawLines as [|line rest IH]; intros m H; [done|]. simpl.
  rewrite (H line) by apply list_elem_of_here.
  apply IH. intros l Hl. by apply H, list_elem_of_further.
Qed.

Section HigherLines.
Context {layout : Layout}.

(** X11. A connection added at the end of the input with an id above all
    the others changes none of their entries: a line is only ever bridged
    over lines of lower id, so the paths, end points and waypoints already
    computed stay as they were. *)
Theorem higher_line_leaves_lower_paths (connections : list Connection)
    (conn : Connection) (items : list CanvasItem)
    (finalPaths finalPaths' : gmap Z PathMetadata) :
  calculateManualPathsWithBridges connections items = Return finalPaths →
  calculateManualPathsWithBridges (connections ++ [conn]) items = Return finalPaths' →
  (∀ c, c ∈ connections → (Connection.id c < Connection.id conn)%Z) →
  ∀ k, k ≠ Connection.id conn → finalPaths' !! k = finalPaths !! k.
Proof.
  intros Hcalc Hcalc' Hlow k Hk.
  destruct (calculate_inv _ _ _ Hcalc) as (rawLines & cw & Hbuild & ->).
  destruct (calculate_inv _ _ _ Hcalc') as (rawLines' & cw' & Hbuild' & ->).
  rewrite buildGeometry_app, Hbuild, buildGeometry_cons in Hbuild'.
  destruct (routeConnection conn items) as [[[line bends]|]|e] eqn:Hroute; [| |done].
  2: { by injection Hbuild' as <- <-. }
  injection Hbuild' as <- <-.
  destruct (routeConnection_line _ _ _ _ Hroute) as [Hid Hsegs].
  unfold renderLines. rewrite fold_left_app. simpl.
  rewrite lookup_insert_ne by congruence. f_equal.
  apply fold_insert_ext. intros l Hl.
  apply (buildGeometry_lines _ _ _ _ _ _ Hbuild) in Hl as Hfrom.
  destruct Hfrom as [Hfrom|(c & b & Hc & Hr)]; [by apply elem_of_nil in Hfrom|].
  destruct (routeConnection_line _ _ _ _ Hr) as [Hidl Hsegl].
  specialize (Hlow c Hc). apply renderLine_ext.
  - intros seg Hseg. rewrite flat_map_app. simpl. rewrite app_nil_r.
    apply sortedIntersections_higher. intros other Hother.
    destruct (Hsegs other Hother) as [-> _]. destruct (Hsegl seg Hseg) as [-> _]. lia.
  - apply lookup_insert_ne. lia.
Qed.

End HigherLines.

(** ** Zero and NaN in binary64 arithmetic

    The difference of a number with itself is +0, or NaN when the number
    is infinite or NaN; products, sums, differences and square roots of
    such values are again zeros or NaN. *)

Lemma zeroOrNaN_spec (v : number) :
  zeroOrNaN v = true
  ↔ match Prim2SF v with S754_zero _ | S754_nan => True | _ => False end.
Proof.
  unfold zeroOrNaN, is_nan. rewrite orb_true_iff, !FloatAxioms.eqb_spec.
  change (Prim2SF 0) with (S754_zero false).
  destruct (Prim2SF v) as [s|s| |s m e]; simpl.
  - tauto.
  - destruct s; simpl; intuition discriminate.
  - tauto.
  - unfold SFeqb. rewrite !SFcompare_rank by congruence.
    rewrite lex_compare_refl. destruct s; simpl; intuition discriminate.
Qed.

Lemma is_nan_true (v : number) : is_nan v = true → v = nan.
Proof.
  intros H. apply Prim2SF_inj. change (Prim2SF nan) with S754_nan.
  destruct (Prim2SF v) eqn:E; try reflexivity.
  all: assert (is_nan v = false) by (apply is_nan_spec; congruence); congruence.
Qed.

Lemma zeroOrNaN_cases (v : number) :
  zeroOrNaN v = true → v = 0 ∨ v = neg_zero ∨ v = nan.
Proof.
  intros H%zeroOrNaN_spec. destruct (Prim2SF v) as [[]|s| |s m e] eqn:E; try done.
  - right; left. by apply Prim2SF_inj.
  - left. by apply Prim2SF_inj.
  - right; right. by apply Prim2SF_inj.
Qed.

Lemma sub_diag (x : number) : zeroOrNaN (x - x) = true.
Proof.
  apply zeroOrNaN_spec. rewrite sub_spec. unfold SF64sub, SFsub.
  destruct (Prim2SF x) as [[]|[]| |s m e]; try done.
  by rewrite Z.sub_diag.
Qed.

Lemma mul_zeroOrNaN_r (x z : number) : zeroOrNaN z = true → zeroOrNaN (x * z) = true.
Proof.
  rewrite !zeroOrNaN_spec, mul_spec. unfold SF64mul, SFmul.
  by destruct (Prim2SF x) as [?|?| |? ? ?], (Prim2SF z) as [?|?| |? ? ?].
Qed.

Lemma mul_zeroOrNaN_l (x z : number) : zeroOrNaN z = true → zeroOrNaN (z * x) = true.
Proof.
  rewrite !zeroOrNaN_spec, mul_spec. unfold SF64mul, SFmul.
  by destruct (Prim2SF x) as [?|?| |? ? ?], (Prim2SF z) as [?|?| |? ? ?].
Qed.

Lemma sub_zeroOrNaN (a b : number) :
  zeroOrNaN a = true → zeroOrNaN b = true → zeroOrNaN (a - b) = true.
Proof.
  intros [-> |[-> | ->]]%zeroOrNaN_cases [-> |[-> | ->]]%zeroOrNaN_cases; reflexivity.
Qed.

Lemma add_zeroOrNaN (a b : number) :
  zeroOrNaN a = true → zeroOrNaN b = true → zeroOrNaN (a + b) = true.
Proof.
  intros [-> |[-> | ->]]%zeroOrNaN_cases [-> |[-> | ->]]%zeroOrNaN_cases; reflexivity.
Qed.

Lemma div_nan (x : number) : x / nan = nan.
Proof.
  apply Prim2SF_inj. rewrite div_spec. change (Prim2SF nan) with S754_nan.
  unfold SF64div, SFdiv. by destruct (Prim2SF x).
Qed.

Lemma ltb_nan_r (x : number) : (x <? nan) = false.
Proof.
  destruct (x <? nan) eqn:E; [|done]. by apply ltb_not_nan in E as [_ E].
Qed.

Lemma ltb_nan_l (x : number) : (nan <? x) = false.
Proof.
  destruct (nan <? x) eqn:E; [|done]. by apply ltb_not_nan in E as [E _].
Qed.

Lemma len_zeroOrNaN (v : Vector) :
  zeroOrNaN (Point.x v) = true → zeroOrNaN (Point.y v) = true →
  (0 <? len v) = false.
Proof.
  intros Hx Hy. unfold len, Math.sqrt.
  pose proof (add_zeroOrNaN _ _ (mul_zeroOrNaN_r (Point.x v) _ Hx)
                                (mul_zeroOrNaN_r (Point.y v) _ Hy)) as H.
  by apply zeroOrNaN_cases in H as [-> |[-> | ->]].
Qed.

(** ** Segments that cannot cross, and points that add no segment *)

(** X12. Two horizontal segments, or two vertical ones, never cross for
    [getIntersectionT], overlapping or not and whatever their coordinates:
    wires running along the same line are not bridged over one another. *)
Theorem same_orientation_never_cross (seg1 seg2 : LineSegment) :
  (Point.y (LineSegment.p1 seg1) = Point.y (LineSegment.p2 seg1)
   ∧ Point.y (LineSegment.p1 seg2) = Point.y (LineSegment.p2 seg2))
  ∨ (Point.x (LineSegment.p1 seg1) = Point.x (LineSegment.p2 seg1)
     ∧ Point.x (LineSegment.p1 seg2) = Point.x (LineSegment.p2 seg2)) →
  getIntersectionT seg1 seg2 = None.
Proof.
  intros Hsame. unfold getIntersectionT. cbv zeta.
  set (r := sub (LineSegment.p2 seg1) (LineSegment.p1 seg1)).
  set (s := sub (LineSegment.p2 seg2) (LineSegment.p1 seg2)).
  assert (zeroOrNaN (Point.x r * Point.y s - Point.y r * Point.x s) = true) as H.
  { destruct Hsame as [[H1 H2]|[H1 H2]]; subst r s; simpl; rewrite H1, H2.
    - apply sub_zeroOrNaN; [apply mul_zeroOrNaN_r|apply mul_zeroOrNaN_l]; apply sub_diag.
    - apply sub_zeroOrNaN; [apply mul_zeroOrNaN_l|apply mul_zeroOrNaN_r]; apply sub_diag. }
  apply zeroOrNaN_cases in H as [-> |[-> | ->]]; [done|done|].
  change (Math.abs nan <? 1e-5) with false. cbv iota.
  by rewrite !div_nan, ltb_nan_r.
Qed.

Lemma consecutive_cons_cons {A} (a b : A) (l : list A) :
  consecutive (a :: b :: l) = (a, b) :: consecutive (b :: l).
Proof. reflexivity. Qed.

Lemma buildSegments_cons_cons (connId : Z) (a b : Point) (l : list Point) :
  buildSegments connId (a :: b :: l) =
    if 0 <? len (sub b a)
    then segmentBetween connId a b :: buildSegments connId (b :: l)
    else buildSegments connId (b :: l).
Proof.
  unfold buildSegments. rewrite consecutive_cons_cons. simpl.
  by destruct (0 <? len (sub b a)).
Qed.

(** X13. A point that repeats its predecessor adds no segment, wherever
    it stands in the point list and whatever its coordinates: the line has
    the same segments as without the repetition. *)
Theorem repeated_point_dropped (connId : Z) (front rest : list Point) (p : Point) :
  buildSegments connId (front ++ p :: p :: rest)
  = buildSegments connId (front ++ p :: rest).
Proof.
  induction front as [|a front IH].
  - simpl app. rewrite (buildSegments_cons_cons connId p p).
    rewrite len_zeroOrNaN; [done|apply sub_diag..].
  - destruct front as [|b front]; simpl app in *;
      by rewrite !(buildSegments_cons_cons connId a), IH.
Qed.

(** ** The hit test *)

Lemma frank_inj (a b : number) :
  is_nan a = false → is_nan b = false → frank a = frank b →
  a = b ∨ (zeroOrNaN a = true ∧ zeroOrNaN b = true).
Proof.
  intros Ha%is_nan_spec Hb%is_nan_spec Heq. unfold frank in Heq.
  rewrite !zeroOrNaN_spec.
  destruct (Prim2SF a) as [sa|[]| |[] ma ea] eqn:Ea,
           (Prim2SF b) as [sb|[]| |[] mb eb] eqn:Eb;
    simpl in Heq; try done; try (by right).
  all: left; apply Prim2SF_inj; rewrite Ea, Eb; try reflexivity.
  all: injection Heq as He Hm; f_equal; lia.
Qed.

Lemma zero_cases (a : number) :
  is_nan a = false → zeroOrNaN a = true → a = 0 ∨ a = neg_zero.
Proof.
  intros Ha [-> |[-> | ->]]%zeroOrNaN_cases; auto. discriminate.
Qed.

Lemma min_from_infinity (a : number) (rest : list number) :
  is_nan a = false → Math.min_from infinity (a :: rest) = Math.min_from a rest.
Proof.
  intros Ha. simpl. rewrite Ha.
  change (PrimFloat.Leibniz.eqb infinity 0) with false. rewrite andb_false_r.
  destruct (a <? infinity) eqn:E; [done|].
  apply ltb_false in E; [|done..].
  pose proof (rank_le_infinity (Prim2SF a)) as Hle.
  destruct (frank_inj a infinity) as [-> |[_ H]]; [done|done| |done|done].
  change (rank (Prim2SF a)) with (frank a) in Hle.
  change (frank infinity) with (2, 0, 0)%Z in *. lex_arith.
Qed.

Lemma max_from_neg_infinity (a : number) (rest : list number) :
  is_nan a = false → Math.max_from neg_infinity (a :: rest) = Math.max_from a rest.
Proof.
  intros Ha. simpl. rewrite Ha.
  change (PrimFloat.Leibniz.eqb neg_infinity neg_zero) with false. rewrite andb_false_r.
  destruct (neg_infinity <? a) eqn:E; [done|].
  apply ltb_false in E; [|done..].
  pose proof (rank_ge_neg_infinity (Prim2SF a)) as Hle.
  destruct (frank_inj a neg_infinity) as [-> |[_ H]]; [done|done| |done|done].
  change (rank (Prim2SF a)) with (frank a) in Hle.
  change (frank neg_infinity) with (-2, 0, 0)%Z in *. lex_arith.
Qed.

Lemma ltb_asym (a b : number) : (a <? b) = true → (b <? a) = false.
Proof.
  intros H. destruct (ltb_not_nan _ _ H) as [Ha Hb].
  apply ltb_true in H; [|done..]. apply ltb_false; [done..|]. lex_arith.
Qed.

Lemma ltb_total (a b : number) :
  is_nan a = false → is_nan b = false → (a <? b) = false → (b <? a) = false →
  a = b ∨ (a = 0 ∧ b = neg_zero) ∨ (a = neg_zero ∧ b = 0).
Proof.
  intros Ha Hb H1 H2. apply ltb_false in H1; [|done..]. apply ltb_false in H2; [|done..].
  destruct (frank_inj a b Ha Hb) as [?|[Za Zb]]; [lex_arith|by left|].
  destruct (zero_cases a Ha Za) as [-> | ->], (zero_cases b Hb Zb) as [-> | ->]; auto.
Qed.

Lemma leibniz_eqb_reflect (x y : number) : reflect (x = y) (PrimFloat.Leibniz.eqb x y).
Proof. apply iff_reflect. symmetry. apply Leibniz.eqb_spec. Qed.

Lemma max_from_nan (args : list number) (highest : number) :
  Exists (λ a, is_nan a = true) args → Math.max_from highest args = nan.
Proof.
  revert highest. induction args as [|n rest IH]; intros highest Hex.
  { by apply Exists_nil in Hex. }
  simpl. destruct (is_nan n) eqn:Hn; [done|].
  apply Exists_cons in Hex as [Hex|Hex]; [congruence|]. by apply IH.
Qed.

Lemma Math_min_comm (a b : number) : Math.min [a; b] = Math.min [b; a].
Proof.
  unfold Math.min.
  destruct (is_nan a) eqn:Ha.
  { rewrite !min_from_nan; [done|apply Exists_cons; right|]; apply Exists_cons; by left. }
  destruct (is_nan b) eqn:Hb.
  { rewrite !min_from_nan; [done| |apply Exists_cons; right]; apply Exists_cons; by left. }
  rewrite !min_from_infinity by done. simpl. rewrite Ha, Hb.
  destruct (leibniz_eqb_reflect b neg_zero) as [Hb0|Hb0],
           (leibniz_eqb_reflect a zero) as [Ha0|Ha0],
           (leibniz_eqb_reflect a neg_zero) as [Ha1|Ha1],
           (leibniz_eqb_reflect b zero) as [Hb1|Hb1]; cbn [andb].
  all: try (subst; done).
  all: destruct (b <? a) eqn:Hba; destruct (a <? b) eqn:Hab; try done.
  all: try (apply ltb_asym in Hab; congruence).
  all: unfold zero in *.
  all: destruct (ltb_total a b Ha Hb Hab Hba) as [?|[[? ?]|[? ?]]]; congruence.
Qed.

Lemma Math_max_comm (a b : number) : Math.max [a; b] = Math.max [b; a].
Proof.
  unfold Math.max.
  destruct (is_nan a) eqn:Ha.
  { rewrite !max_from_nan; [done|apply Exists_cons; right|]; apply Exists_cons; by left. }
  destruct (is_nan b) eqn:Hb.
  { rewrite !max_from_nan; [done| |apply Exists_cons; right]; apply Exists_cons; by left. }
  rewrite !max_from_neg_infinity by done. simpl. rewrite Ha, Hb.
  destruct (leibniz_eqb_reflect b neg_zero) as [Hb0|Hb0],
           (leibniz_eqb_reflect a zero) as [Ha0|Ha0],
           (leibniz_eqb_reflect a neg_zero) as [Ha1|Ha1],
           (leibniz_eqb_reflect b zero) as [Hb1|Hb1]; cbn [andb].
  all: try (subst; done).
  all: destruct (b <? a) eqn:Hba; destruct (a <? b) eqn:Hab; try done.
  all: try (apply ltb_asym in Hab; congruence).
  all: unfold zero in *.
  all: destruct (ltb_total a b Ha Hb Hab Hba) as [?|[[? ?]|[? ?]]]; congruence.
Qed.

(** X14. The hit test does not depend on the direction of the segment:
    swapping its end points gives the same answer, NaN and signed zeros
    included. *)
Theorem segmentHitsRect_sym (p1 p2 : Point) (r : Rect) :
  segmentHitsRect p1 p2 r = segmentHitsRect p2 p1 r.
Proof.
  unfold segmentHitsRect.
  by rewrite (Math_min_comm (Point.x p1)), (Math_max_comm (Point.x p1)),
             (Math_min_comm (Point.y p1)), (Math_max_comm (Point.y p1)).
Qed.

Lemma max_ge_first (a b c : number) :
  (c <=? a) = true → (Math.max [a; b] <? c) = false.
Proof.
  intros Hca. destruct (leb_not_nan _ _ Hca) as [Hc Ha].
  destruct (is_nan b) eqn:Hb.
  { unfold Math.max. rewrite max_from_nan; [apply ltb_nan_l|].
    apply Exists_cons; right. apply Exists_cons; by left. }
  destruct (max_from_spec [a; b] neg_infinity) as (Hr & _ & Hall & _); [done|by repeat constructor|].
  apply Forall_cons in Hall as [Hall _].
  apply ltb_false; [done..|]. apply leb_true in Hca; [|done..].
  unfold Math.max. lex_arith.
Qed.

Lemma min_le_first (a b c : number) :
  (a <=? c) = true → (c <? Math.min [a; b]) = false.
Proof.
  intros Hac. destruct (leb_not_nan _ _ Hac) as [Ha Hc].
  destruct (is_nan b) eqn:Hb.
  { unfold Math.min. rewrite min_from_nan; [apply ltb_nan_r|].
    apply Exists_cons; right. apply Exists_cons; by left. }
  destruct (min_from_spec [a; b] infinity) as (Hr & _ & Hall & _); [done|by repeat constructor|].
  apply Forall_cons in Hall as [Hall _].
  apply ltb_false; [done..|]. apply leb_true in Hac; [|done..].
  unfold Math.min. lex_arith.
Qed.

Lemma segmentHitsRect_inside (p1 p2 : Point) (r : Rect) :
  insideRect p1 r ∨ insideRect p2 r → segmentHitsRect p1 p2 r = true.
Proof.
  unfold segmentHitsRect. intros [H|H].
  2: rewrite (Math_min_comm (Point.x p1)), (Math_max_comm (Point.x p1)),
             (Math_min_comm (Point.y p1)), (Math_max_comm (Point.y p1)).
  all: destruct H as (Hx1 & Hx2 & Hy1 & Hy2).
  all: by rewrite (max_ge_first _ _ _ Hx1), (min_le_first _ _ _ Hx2),
                  (max_ge_first _ _ _ Hy1), (min_le_first _ _ _ Hy2).
Qed.

Lemma consecutive_first {A} (a : A) (l : list A) :
  l ≠ [] → ∃ b, (a, b) ∈ consecutive (a :: l).
Proof. destruct l as [|b l]; [done|]. intros _. exists b. apply list_elem_of_here. Qed.

Lemma consecutive_last {A} (a z : A) (l : list A) :
  ∃ y, (y, z) ∈ consecutive (a :: l ++ [z]).
Proof.
  revert a. induction l as [|b l IH]; intros a.
  - exists a. apply list_elem_of_here.
  - destruct (IH b) as [y Hy]. exists y. simpl app.
    change (consecutive (a :: b :: l ++ [z])) with ((a, b) :: consecutive (b :: l ++ [z])).
    by apply list_elem_of_further.
Qed.

Section Blocked.
Context {layout : Layout}.

(** X15. The obstacles of the router are the rectangles of all items,
    those of the connection's own source and target included.  A segment
    with an end point inside a rectangle (borders included) hits it, so
    when the start or the end of a route lies inside the rectangle of any
    item every bend sequence is rejected and [smartRoute] falls back to its
    first candidate, the bend at (end.x, start.y). *)
Theorem smartRoute_endpoint_inside (start end_ : Point) (items : list CanvasItem)
    (item : CanvasItem) :
  item ∈ items →
  insideRect start (itemRect item) ∨ insideRect end_ (itemRect item) →
  itemRect item ∈ getItemRects items
  ∧ (∀ other, segmentHitsRect start other (itemRect item) = true
              ∨ segmentHitsRect other end_ (itemRect item) = true)
  ∧ (∀ c, hitsObstacle start end_ (getItemRects items) c = true)
  ∧ smartRoute start end_ items = [ {| Point.x := Point.x end_; Point.y := Point.y start |} ].
Proof.
  intros Hitem Hinside.
  assert (itemRect item ∈ getItemRects items) as Hrect.
  { apply list_elem_of_In. apply (in_map itemRect). by apply list_elem_of_In. }
  assert (∀ other, segmentHitsRect start other (itemRect item) = true
                   ∨ segmentHitsRect other end_ (itemRect item) = true) as Hseg.
  { intros other. destruct Hinside as [H|H]; [left|right];
      apply segmentHitsRect_inside; auto. }
  assert (∀ c, hitsObstacle start end_ (getItemRects items) c = true) as Hall.
  { intros c. unfold hitsObstacle. apply existsb_exists.
    destruct Hinside as [H|H].
    - destruct (consecutive_first start (c ++ [end_])) as [b Hb]; [by destruct c|].
      exists (start, b). split; [by apply list_elem_of_In|].
      apply existsb_exists. exists (itemRect item).
      split; [by apply list_elem_of_In|]. apply segmentHitsRect_inside. by left.
    - destruct (consecutive_last start end_ c) as [y Hy].
      exists (y, end_). split; [by apply list_elem_of_In|].
      apply existsb_exists. exists (itemRect item).
      split; [by apply list_elem_of_In|]. apply segmentHitsRect_inside. by right. }
  repeat (split; [done|]).
  unfold smartRoute. destruct (find _ _) as [c|] eqn:E; [|done].
  apply find_some in E as [_ E]. by rewrite Hall in E.
Qed.

End Blocked.

(** ** Dragging a waypoint (ConnectionLine.tsx) *)

Lemma abs_zeroOrNaN (d : number) : zeroOrNaN d = true → zeroOrNaN (Math.abs d) = true.
Proof. by intros [-> |[-> | ->]]%zeroOrNaN_cases. Qed.

Lemma abs_not_negative (v d : number) : zeroOrNaN d = true → (Math.abs v <? d) = false.
Proof.
  intros Hd. unfold Math.abs. rewrite FloatAxioms.ltb_spec, abs_spec.
  apply zeroOrNaN_spec in Hd. unfold SFltb.
  destruct (Prim2SF d) as [sd|?| |? ? ?]; try done.
  - by destruct (Prim2SF v) as [?|?| |? ? ?].
  - by destruct (Prim2SF v) as [?|?| |? ? ?].
Qed.

Lemma abs_sub_below (t p d : number) :
  (Math.abs (t - p) <? d) = true → p - p = 0 ∧ (0 <? d) = true.
Proof.
  unfold Math.abs. intros H. split.
  - apply Prim2SF_inj. revert H.
    rewrite FloatAxioms.ltb_spec, abs_spec, !sub_spec. unfold SF64sub, SFsub, SFltb.
    destruct (Prim2SF p) as [[]|sp| |sp mp ep]; try done.
    + destruct (Prim2SF t) as [?|[]| |? ? ?], sp; simpl; try done.
      all: by destruct (Prim2SF d) as [?|[]| |[] ? ?].
    + by destruct (Prim2SF t).
    + intros _. simpl. by rewrite Z.sub_diag.
  - destruct (ltb_not_nan _ _ H) as [Ha Hd].
    destruct (0 <? d) eqn:E; [done|]. exfalso.
    revert H E. rewrite !FloatAxioms.ltb_spec, abs_spec. unfold SFltb.
    change (Prim2SF 0) with (S754_zero false).
    destruct (Prim2SF d) as [?|[]| |[] ? ?]; try done.
    all: by destruct (SFabs _) as [?|[]| |[] ? ?] eqn:Eabs; try done;
         destruct (Prim2SF (t - p)) as [?|?| |? ? ?].
Qed.

(** X16. The drag handler moves a waypoint along one axis only, the one
    the handle has moved farther along.  With dx and dy the distances of
    the handle from the waypoint along x and y: when dx > dy the position
    it reports takes the x of the handle and keeps the y of the waypoint;
    otherwise (dx <= dy, or one of them NaN) it keeps the x of the waypoint
    and takes the y of the handle.  The correction is idempotent: applied to
    a position it has already corrected, for the same waypoint position, the
    handler reports that position unchanged. *)
Theorem onDragMove_axis_lock (p target : Point) :
  let dx := Math.abs (Point.x target - Point.x p) in
  let dy := Math.abs (Point.y target - Point.y p) in
  let q := onDragMove p target in
  ((dy <? dx) = true → q = {| Point.x := Point.x target; Point.y := Point.y p |})
  ∧ ((dx <=? dy) = true ∨ is_nan dx = true ∨ is_nan dy = true →
     q = {| Point.x := Point.x p; Point.y := Point.y target |})
  ∧ ((dy <? dx) = true ∨ (dx <=? dy) = true ∨ is_nan dx = true ∨ is_nan dy = true)
  ∧ aligned p q
  ∧ onDragMove p q = q.
Proof.
  unfold onDragMove, aligned. cbv zeta.
  set (dx := Math.abs (Point.x target - Point.x p)).
  set (dy := Math.abs (Point.y target - Point.y p)).
  assert ((dy <? dx) = false
          ↔ (dx <=? dy) = true ∨ is_nan dx = true ∨ is_nan dy = true) as Hcases.
  { clearbody dx dy. destruct (is_nan dx) eqn:Hx.
    { apply is_nan_true in Hx as ->. split; [auto|]. intros _. apply ltb_nan_r. }
    destruct (is_nan dy) eqn:Hy.
    { apply is_nan_true in Hy as ->. split; [auto|]. intros _. apply ltb_nan_l. }
    rewrite ltb_false, leb_true by done. naive_solver. }
  destruct (dy <? dx) eqn:E; simpl.
  - split; [done|]. split.
    { intros H. apply Hcases in H. discriminate H. }
    split; [by left|]. split; [by right|]. subst dx dy.
    destruct (abs_sub_below _ _ _ E) as [-> Hpos].
    change (Math.abs 0) with 0. by rewrite Hpos.
  - split; [done|]. split; [done|].
    split; [right; by apply Hcases|]. split; [by left|].
    by rewrite abs_not_negative by apply abs_zeroOrNaN, sub_diag.
Qed.

(** ** The properties on the example diagrams *)

Lemma manualWires_NoDup : NoDup (map Connection.id manualWires).
Proof. compute_done. Defined.

Lemma manualWires_paths :
  calculateManualPathsWithBridges (layout := specLayout) manualWires closeItems
  = Return (pathsOf manualWires closeItems).
Proof. vm_compute. reflexivity. Defined.

Lemma twiceWires_paths :
  calculateManualPathsWithBridges (layout := specLayout) twiceWires closeItems
  = Return (pathsOf twiceWires closeItems).
Proof. vm_compute. reflexivity. Defined.

Lemma lowWires_paths :
  calculateManualPathsWithBridges (layout := specLayout) lowWires closeItems
  = Return (pathsOf lowWires closeItems).
Proof. vm_compute. reflexivity. Defined.

Lemma lowWires_then_wire3_paths :
  calculateManualPathsWithBridges (layout := specLayout) (lowWires ++ [wire 3 1 2]) closeItems
  = Return (pathsOf (lowWires ++ [wire 3 1 2]) closeItems).
Proof. vm_compute. reflexivity. Defined.

Lemma manualWire_routable : routable (layout := specLayout) manualWire closeItems.
Proof.
  apply routable_iff.
  exists (box 1 0 100 rightGrip), (box 2 300 100 leftGrip), [rightGrip], [leftGrip].
  repeat split; (reflexivity || (simpl; lia)).
Defined.

Lemma missing_item_skipped_witness :
  routeConnection (layout := specLayout) danglingWire closeItems = Return None.
Proof.
  apply (missing_item_skipped (layout := specLayout) danglingWire closeItems).
  right. reflexivity.
Defined.

Lemma finalPaths_entry_iff_witness :
  is_Some (pathsOf crossingWires closeItems !! 3%Z)
  ↔ ∃ conn source target sourceGrips targetGrips,
      conn ∈ crossingWires ∧ Connection.id conn = 3%Z
      ∧ itemById closeItems (Connection.sourceItemId conn) = Some source
      ∧ itemById closeItems (Connection.targetItemId conn) = Some target
      ∧ CanvasItem.grips source = Some sourceGrips
      ∧ CanvasItem.grips target = Some targetGrips
      ∧ (0 ≤ Connection.sourceGripIndex conn < Z.of_nat (length sourceGrips))%Z
      ∧ (0 ≤ Connection.targetGripIndex conn < Z.of_nat (length targetGrips))%Z.
Proof.
  exact (finalPaths_entry_iff (layout := specLayout) crossingWires closeItems
           (pathsOf crossingWires closeItems) 3 closeItems_paths).
Defined.

Lemma skipped_connection_ignored_witness :
  calculateManualPathsWithBridges (layout := specLayout)
    (lowWires ++ danglingWire :: [wire 3 1 2]) closeItems
  = calculateManualPathsWithBridges (layout := specLayout)
      (lowWires ++ [wire 3 1 2]) closeItems.
Proof.
  apply (skipped_connection_ignored (layout := specLayout)
           lowWires [wire 3 1 2] danglingWire closeItems).
  reflexivity.
Defined.

Lemma last_connection_wins_witness :
  ∃ pm bends, pathsOf twiceWires closeItems !! 3%Z = Some pm
              ∧ PathMetadata.waypoints pm = Some bends.
Proof.
  destruct (routed manualWire closeItems) as [[line bends]|] eqn:Hrouted;
    [|vm_compute in Hrouted; discriminate Hrouted].
  destruct (last_connection_wins (layout := specLayout) [wire 3 1 2] [wire 1 3 4]
              manualWire closeItems (pathsOf twiceWires closeItems) line bends)
    as (rawLines & cw & pm & _ & Hpm & _ & Hw).
  - exact twiceWires_paths.
  - revert Hrouted. unfold routed.
    destruct (routeConnection manualWire closeItems) as [r|e]; [|discriminate].
    by intros ->.
  - intros c Hc _. apply list_elem_of_singleton in Hc as ->. discriminate.
  - by exists pm, bends.
Defined.

Lemma reported_waypoints_witness :
  ∃ pm, pathsOf manualWires closeItems !! 3%Z = Some pm
    ∧ PathMetadata.waypoints pm = Some [ {| Point.x := 60; Point.y := 105 |};
                                         {| Point.x := 60; Point.y := 140 |};
                                         {| Point.x := 250; Point.y := 140 |} ].
Proof.
  destruct (reported_waypoints (layout := specLayout) manualWires closeItems
              (pathsOf manualWires closeItems) manualWire
              manualWires_paths manualWires_NoDup (list_elem_of_here _ _) manualWire_routable)
    as (pm & source & target & start & end_ & Hpm & _ & _ & _ & _ & Hw).
  exists pm. split; [exact Hpm|exact Hw].
Defined.

Lemma bridges_do_not_overlap_witness :
  ({| Bridge.fromT := 0; Bridge.startT := 58; Bridge.centerT := 70; Bridge.endT := 82 |},
   {| Bridge.fromT := 82; Bridge.startT := 82; Bridge.centerT := 80; Bridge.endT := 92 |})
    ∈ consecutive (bridgesOf busySegment crossingSegments)
  ∧ (82 <=? 82) = true.
Proof.
  assert (({| Bridge.fromT := 0; Bridge.startT := 58; Bridge.centerT := 70; Bridge.endT := 82 |},
           {| Bridge.fromT := 82; Bridge.startT := 82; Bridge.centerT := 80; Bridge.endT := 92 |})
            ∈ consecutive (bridgesOf busySegment crossingSegments)) as Hpair
    by (vm_compute; apply list_elem_of_here).
  split; [exact Hpair|].
  destruct (bridges_do_not_overlap busySegment crossingSegments _ _ eq_refl Hpair)
    as (_ & _ & _ & Hle & _).
  exact Hle.
Defined.

Lemma higher_line_leaves_lower_paths_witness :
  pathsOf (lowWires ++ [wire 3 1 2]) closeItems !! 1%Z = pathsOf lowWires closeItems !! 1%Z.
Proof.
  apply (higher_line_leaves_lower_paths (layout := specLayout) lowWires (wire 3 1 2)
           closeItems _ _ lowWires_paths lowWires_then_wire3_paths); [|discriminate].
  intros c Hc. unfold lowWires in Hc.
  apply elem_of_cons in Hc as [-> |Hc]; [reflexivity|].
  apply list_elem_of_singleton in Hc as ->. reflexivity.
Defined.

Lemma same_orientation_never_cross_witness :
  getIntersectionT flatSegment levelSegment = None.
Proof.
  apply (same_orientation_never_cross flatSegment levelSegment).
  left. split; reflexivity.
Defined.

Lemma smartRoute_endpoint_inside_witness :
  smartRoute (layout := specLayout) {| Point.x := 5; Point.y := 105 |}
    {| Point.x := 290; Point.y := 150 |} closeItems
  = [ {| Point.x := 290; Point.y := 105 |} ].
Proof.
  apply (smartRoute_endpoint_inside (layout := specLayout) {| Point.x := 5; Point.y := 105 |}
           {| Point.x := 290; Point.y := 150 |} closeItems (box 1 0 100 rightGrip)).
  - apply list_elem_of_here.
  - left. repeat split; vm_compute; reflexivity.
Defined.

(** Wire 3 routed by hand runs through its three waypoints and bridges
    over wires 1 and 2 on its run at y = 140. *)
Example manual_wire_path :
  PathMetadata.pathData <$> pathsOf manualWires closeItems !! 3%Z
  = Some [ M {| Point.x := 10; Point.y := 105 |};
           L {| Point.x := 30; Point.y := 105 |};
           L {| Point.x := 60; Point.y := 105 |};
           L {| Point.x := 60; Point.y := 140 |};
           L {| Point.x := 88; Point.y := 140 |};
           Q {| Point.x := 100; Point.y := 164 |} {| Point.x := 112; Point.y := 140 |};
           L {| Point.x := 112; Point.y := 140 |};
           Q {| Point.x := 110; Point.y := 164 |} {| Point.x := 122; Point.y := 140 |};
           L {| Point.x := 250; Point.y := 140 |};
           L {| Point.x := 280; Point.y := 105 |};
           L {| Point.x := 300; Point.y := 105 |} ].
Proof. vm_compute. reflexivity. Qed.

(** ** The direction of a built segment *)

Lemma positive_not_zero (l : number) : (0 <? l) = true → (l =? 0) = false.
Proof.
  intros H. destruct (ltb_not_nan _ _ H) as [H0 Hl].
  apply ltb_true in H; [|done..].
  destruct (l =? 0) eqn:E; [|done]. apply eqb_true in E; [|done..].
  rewrite E in H. lex_arith.
Qed.

(** X17. Every segment the first loop builds joins two consecutive points
    of the connection and has a positive length; its [dir] is the difference
    of its end points divided by that length: the zero-length fallback
    (0, 0) of [normalize] is never what a built segment carries. *)
Theorem built_segment_direction (connId : Z) (points : list Point) (seg : LineSegment) :
  seg ∈ buildSegments connId points →
  let diff := sub (LineSegment.p2 seg) (LineSegment.p1 seg) in
  (LineSegment.p1 seg, LineSegment.p2 seg) ∈ consecutive points
  ∧ LineSegment.len seg = Math.sqrt (Point.x diff * Point.x diff + Point.y diff * Point.y diff)
  ∧ (0 <? LineSegment.len seg) = true
  ∧ LineSegment.dir seg = {| Point.x := Point.x diff / LineSegment.len seg;
                             Point.y := Point.y diff / LineSegment.len seg |}.
Proof.
  unfold buildSegments. intros Hin.
  apply list_elem_of_omap in Hin as ([p1 p2] & Hpair & Hseg).
  destruct (0 <? len (sub p2 p1)) eqn:Hlen; [|done].
  injection Hseg as <-. simpl. split; [done|]. split; [done|]. split; [done|].
  unfold normalize. by rewrite (positive_not_zero _ Hlen).
Qed.

Lemma built_segment_direction_witness :
  LineSegment.dir (segmentBetween 3 {| Point.x := 30; Point.y := 105 |}
                                    {| Point.x := 280; Point.y := 105 |})
  = {| Point.x := 1; Point.y := 0 |}.
Proof.
  destruct (built_segment_direction 3
              [ {| Point.x := 30; Point.y := 105 |}; {| Point.x := 280; Point.y := 105 |} ]
              (segmentBetween 3 {| Point.x := 30; Point.y := 105 |}
                                {| Point.x := 280; Point.y := 105 |}))
    as (_ & _ & _ & Hdir).
  - vm_compute. apply list_elem_of_here.
  - rewrite Hdir. vm_compute. reflexivity.
Defined.

(** ** Crossing detection is symmetric

    Swapping the operands of a subtraction negates the result exactly,
    unless the result is a zero; products, differences and quotients
    carry this through, and comparisons do not see the sign of a zero. *)

Section Mirror.
Variables prec emax : Z.

Lemma binary_round_aux_opp (sx : bool) (mx ex : Z) (lx : location) :
  binary_round_aux prec emax (negb sx) mx ex lx
  = SFopp (binary_round_aux prec emax sx mx ex lx).
Proof.
  unfold binary_round_aux.
  destruct (shr_fexp prec emax mx ex lx) as [mrs' e'].
  destruct (shr_fexp prec emax _ e' loc_Exact) as [mrs'' e''].
  destruct (shr_m mrs''); [done| |done]. by destruct (_ <=? _)%Z.
Qed.

Lemma binary_round_opp (sx : bool) (mx : positive) (ex : Z) :
  binary_round prec emax (negb sx) mx ex = SFopp (binary_round prec emax sx mx ex).
Proof.
  unfold binary_round. destruct (shl_align mx ex _) as [mz ez].
  apply binary_round_aux_opp.
Qed.

Lemma binary_normalize_opp (m e : Z) :
  SFmirrored (binary_normalize prec emax m e false)
             (binary_normalize prec emax (- m) e false).
Proof.
  destruct m as [|m|m]; simpl.
  - right. by exists false, false.
  - left. apply (binary_round_opp false).
  - left. apply (binary_round_opp true).
Qed.

Lemma SFsub_swap (x y : spec_float) :
  SFmirrored (SFsub prec emax x y) (SFsub prec emax y x).
Proof.
  destruct x as [sx|sx| |sx mx ex], y as [sy|sy| |sy my ey]; simpl.
  all: try (left; reflexivity).
  all: try (left; destruct sx, sy; reflexivity).
  - right. destruct sx, sy; simpl; by eexists _, _.
  - rewrite (Z.min_comm ey ex).
    set (X := cond_Zopp sx _). set (Y := cond_Zopp sy _).
    replace (Y - X)%Z with (- (X - Y))%Z by lia. apply binary_normalize_opp.
Qed.

Lemma SFsub_opp (x y : spec_float) :
  SFmirrored (SFsub prec emax x y) (SFsub prec emax (SFopp x) (SFopp y)).
Proof.
  destruct x as [sx|sx| |sx mx ex], y as [sy|sy| |sy my ey]; simpl.
  all: try (left; reflexivity).
  all: try (left; destruct sx, sy; reflexivity).
  - right. destruct sx, sy; simpl; by eexists _, _.
  - set (P := Zpos (fst (shl_align mx ex (Z.min ex ey)))).
    set (Q := Zpos (fst (shl_align my ey (Z.min ex ey)))).
    replace (cond_Zopp (negb sx) P - cond_Zopp (negb sy) Q)%Z
      with (- (cond_Zopp sx P - cond_Zopp sy Q))%Z by (destruct sx, sy; simpl; lia).
    apply binary_normalize_opp.
Qed.

Lemma SFsub_mirrored (a a' b b' : spec_float) :
  SFmirrored a a' → SFmirrored b b' →
  SFmirrored (SFsub prec emax a b) (SFsub prec emax a' b').
Proof.
  intros [-> |(sa & sa' & -> & ->)] [-> |(sb & sb' & -> & ->)].
  - apply SFsub_opp.
  - destruct a as [sa|sa| |sa ma ea]; simpl.
    2-4: left; reflexivity.
    right. destruct sa, sb, sb'; simpl; by eexists _, _.
  - destruct b as [sb|sb| |sb mb eb]; simpl.
    2-4: left; try destruct sb; reflexivity.
    right. destruct sa, sa', sb; simpl; by eexists _, _.
  - right. destruct sa, sa', sb, sb'; simpl; by eexists _, _.
Qed.

Lemma SFmul_mirrored (a a' b : spec_float) :
  SFmirrored a a' → SFmirrored (SFmul prec emax a b) (SFmul prec emax a' b).
Proof.
  intros [-> |(sa & sa' & -> & ->)].
  - left. destruct a as [sa|sa| |sa ma ea], b as [sb|sb| |sb mb eb]; simpl.
    all: try reflexivity.
    all: try (destruct sa, sb; reflexivity).
    rewrite <- binary_round_aux_opp. f_equal. by destruct sa, sb.
  - destruct b as [sb|sb| |sb mb eb]; simpl.
    2,3: left; reflexivity.
    all: right; by eexists _, _.
Qed.

Lemma SFmul_comm (a b : spec_float) : SFmul prec emax a b = SFmul prec emax b a.
Proof.
  destruct a as [sa|sa| |sa ma ea], b as [sb|sb| |sb mb eb]; simpl; try done.
  all: try (by rewrite xorb_comm).
  by rewrite xorb_comm, Pos.mul_comm, Z.add_comm.
Qed.

Lemma SFdiv_mirrored (n n' d : spec_float) :
  SFmirrored n n' → SFsame (SFdiv prec emax n d) (SFdiv prec emax n' (SFopp d)).
Proof.
  intros [-> |(sn & sn' & -> & ->)].
  - left. destruct n as [sn|sn| |sn mn en], d as [sd|sd| |sd md ed]; simpl.
    all: try reflexivity.
    all: destruct sn, sd; reflexivity.
  - destruct d as [sd|sd| |sd md ed]; simpl.
    1,3: left; reflexivity.
    all: right; by eexists _, _.
Qed.

End Mirror.

Lemma SFabs_mirrored (x y : spec_float) : SFmirrored x y → SFabs x = SFabs y.
Proof.
  intros [-> |(s & s' & -> & ->)]; [|reflexivity]. by destruct x.
Qed.

Lemma SFcompare_same (x y c : spec_float) :
  SFsame x y → SFcompare c x = SFcompare c y ∧ SFcompare x c = SFcompare y c.
Proof.
  intros [-> |(s & s' & -> & ->)]; [done|]. by destruct c as [?|[]| |[] ? ?].
Qed.

Lemma mirrored_sub_swap (a b : number) : mirrored (a - b) (b - a).
Proof. unfold mirrored. rewrite !sub_spec. apply SFsub_swap. Qed.

Lemma mirrored_mul_l (a a' b : number) : mirrored a a' → mirrored (a * b) (a' * b).
Proof. unfold mirrored. rewrite !mul_spec. apply SFmul_mirrored. Qed.

Lemma mirrored_sub (a a' b b' : number) :
  mirrored a a' → mirrored b b' → mirrored (a - b) (a' - b').
Proof. unfold mirrored. rewrite !sub_spec. apply SFsub_mirrored. Qed.

Lemma float_mul_comm (a b : number) : a * b = b * a.
Proof. apply Prim2SF_inj. rewrite !mul_spec. apply SFmul_comm. Qed.

Lemma mirrored_abs (x y : number) : mirrored x y → Math.abs x = Math.abs y.
Proof.
  intros H. apply Prim2SF_inj. unfold Math.abs. rewrite !abs_spec.
  by apply SFabs_mirrored.
Qed.

Lemma mirrored_above_threshold (d d' : number) :
  mirrored d d' → (Math.abs d <? 1e-5) = false → d' = - d.
Proof.
  intros [H|(s & s' & Hd & Hd')] Hth; apply Prim2SF_inj.
  - by rewrite opp_spec.
  - exfalso. assert (Math.abs d = 0) as E.
    { apply Prim2SF_inj. unfold Math.abs. rewrite abs_spec, Hd. reflexivity. }
    rewrite E in Hth. discriminate Hth.
Qed.

Lemma sameNumber_div (n n' d : number) : mirrored n n' → sameNumber (n / d) (n' / - d).
Proof. unfold sameNumber, mirrored. rewrite !div_spec, opp_spec. apply SFdiv_mirrored. Qed.

Lemma sameNumber_ltb (x y c : number) :
  sameNumber x y → (c <? x) = (c <? y) ∧ (x <? c) = (y <? c).
Proof.
  intros H. rewrite !FloatAxioms.ltb_spec. unfold SFltb.
  by destruct (SFcompare_same _ _ (Prim2SF c) H) as [-> ->].
Qed.

(** X18. Whether two segments cross does not depend on which of the two
    is asked: [getIntersectionT] finds a crossing of seg1 with seg2 exactly
    when it finds one of seg2 with seg1, for all binary64 coordinates.  With
    the scan rule this means that of two crossing lines with different ids
    exactly the one with the higher id records the crossing. *)
Theorem crossing_detection_symmetric (seg1 seg2 : LineSegment) :
  getIntersectionT seg1 seg2 = None ↔ getIntersectionT seg2 seg1 = None.
Proof.
  unfold getIntersectionT, sub. cbv zeta.
  destruct seg1 as [[ax ay] [bx by_] id1 dir1 len1], seg2 as [[cx cy] [dx dy] id2 dir2 len2].
  cbn [Point.x Point.y LineSegment.p1 LineSegment.p2 LineSegment.len].
  rewrite (float_mul_comm (dx - cx) (by_ - ay)), (float_mul_comm (dy - cy) (bx - ax)).
  pose proof (mirrored_sub_swap ((bx - ax) * (dy - cy)) ((by_ - ay) * (dx - cx))) as Hcross.
  rewrite <- (mirrored_abs _ _ Hcross).
  destruct (Math.abs _ <? 1e-5) eqn:Hth; [done|].
  rewrite (mirrored_above_threshold _ _ Hcross Hth).
  set (rXs := (bx - ax) * (dy - cy) - (by_ - ay) * (dx - cx)).
  assert (∀ vx vy, sameNumber (((cx - ax) * vy - (cy - ay) * vx) / rXs)
                              (((ax - cx) * vy - (ay - cy) * vx) / - rXs)) as Hsame.
  { intros vx vy. apply sameNumber_div.
    apply mirrored_sub; apply mirrored_mul_l, mirrored_sub_swap. }
  destruct (sameNumber_ltb _ _ buffer (Hsame (dx - cx) (dy - cy))) as [<- _].
  destruct (sameNumber_ltb _ _ (1 - buffer) (Hsame (dx - cx) (dy - cy))) as [_ <-].
  destruct (sameNumber_ltb _ _ buffer (Hsame (bx - ax) (by_ - ay))) as [<- _].
  destruct (sameNumber_ltb _ _ (1 - buffer) (Hsame (bx - ax) (by_ - ay))) as [_ <-].
  destruct (buffer <? _), (_ <? 1 - buffer), (buffer <? _), (_ <? 1 - buffer); cbn [andb].
  all: split; (done || discriminate).
Qed.

(** ** Distances are never negative *)

Lemma binary_round_aux_sign (prec emax : Z) (sx : bool) (mx ex : Z) (lx : location) :
  match binary_round_aux prec emax sx mx ex lx with
  | S754_zero s | S754_infinity s | S754_finite s _ _ => s = sx
  | S754_nan => True
  end.
Proof.
  unfold binary_round_aux.
  destruct (shr_fexp prec emax mx ex lx) as [mrs' e'].
  destruct (shr_fexp prec emax _ e' loc_Exact) as [mrs'' e''].
  destruct (shr_m mrs''); [done| |done]. by destruct (_ <=? _)%Z.
Qed.

Lemma mul_positive_nonneg (t l : number) :
  (0.001 <? t) = true → (0 <? l) = true → (0 <=? t * l) = true.
Proof.
  intros Ht Hl.
  destruct (ltb_not_nan _ _ Ht) as [_ Hnt], (ltb_not_nan _ _ Hl) as [_ Hnl].
  apply ltb_true in Ht, Hl; [|done..].
  apply is_nan_spec in Hnt, Hnl. rewrite FloatAxioms.leb_spec, mul_spec.
  unfold frank in *. change (Prim2SF 0) with (S754_zero false) in *.
  change (rank (Prim2SF 0.001)) with (1, -62, 4611686018427388)%Z in Ht.
  unfold SF64mul, SFmul.
  destruct (Prim2SF t) as [st|[]| |[] mt et], (Prim2SF l) as [sl|[]| |[] ml el];
    simpl in *; try discriminate; try congruence; try lia; try reflexivity.
  pose proof (binary_round_aux_sign prec emax false (Z.pos (mt * ml)) (et + el) loc_Exact) as Hs.
  pose proof (binary_round_aux_not_nan prec emax false (Z.pos (mt * ml)) (et + el) loc_Exact) as Hn.
  destruct (binary_round_aux _ _ _ _ _ _) as [s|s| |s m e]; subst; try reflexivity.
  exfalso. by apply Hn.
Qed.

(** X19. The distance [getIntersectionT] reports for a crossing on a
    segment of positive length is a number (not NaN) that is not negative. *)
Theorem crossing_distance_nonneg (seg1 seg2 : LineSegment) (d : number) :
  (0 <? LineSegment.len seg1) = true →
  getIntersectionT seg1 seg2 = Some d →
  is_nan d = false ∧ (0 <=? d) = true.
Proof.
  intros Hlen. unfold getIntersectionT. destruct (_ <? 1e-5); [discriminate|].
  destruct (_ && _ && _ && _) eqn:E; [|discriminate].
  intros [= <-]. apply andb_true_iff in E as [[[Ht _]%andb_true_iff _]%andb_true_iff _].
  pose proof (mul_positive_nonneg _ _ Ht Hlen) as Hle.
  split; [|done]. by apply leb_not_nan in Hle as [_ ?].
Qed.

Lemma crossing_distance_nonneg_witness :
  getIntersectionT busySegment (segmentBetween 1 {| Point.x := 100; Point.y := 30 |}
                                                 {| Point.x := 100; Point.y := 180 |})
  = Some 70
  ∧ (0 <=? 70) = true.
Proof.
  assert (getIntersectionT busySegment
            (segmentBetween 1 {| Point.x := 100; Point.y := 30 |}
                              {| Point.x := 100; Point.y := 180 |}) = Some 70) as Hd
    by (vm_compute; reflexivity).
  split; [exact Hd|].
  exact (proj2 (crossing_distance_nonneg busySegment _ 70 eq_refl Hd)).
Defined.

Lemma sqrt_not_negative (v : number) : (Math.sqrt v <? 0) = false.
Proof.
  unfold Math.sqrt. rewrite FloatAxioms.ltb_spec, sqrt_spec.
  change (Prim2SF 0) with (S754_zero false). unfold SF64sqrt, SFsqrt, SFltb.
  destruct (Prim2SF v) as [s|[]| |[] m e]; try reflexivity.
  destruct (SFsqrt_core_binary prec emax (Z.pos m) e) as [[mz ez] lz].
  pose proof (binary_round_aux_sign prec emax false mz ez lz) as Hs.
  by destruct (binary_round_aux _ _ _ _ _ _) as [s|s| |s m' e']; subst.
Qed.

Lemma not_positive_length (v : Vector) :
  (0 <? len v) = false ↔ zeroOrNaN (len v) = true.
Proof.
  unfold zeroOrNaN. pose proof (sqrt_not_negative (Point.x v * Point.x v + Point.y v * Point.y v)) as Hneg.
  fold (len v) in Hneg. destruct (is_nan (len v)) eqn:Hn.
  { rewrite orb_true_r. split; [done|]. intros _.
    destruct (0 <? len v) eqn:E; [|done]. apply ltb_not_nan in E as [_ E]. congruence. }
  rewrite orb_false_r. split.
  - intros Hpos. apply eqb_true; [done..|].
    apply ltb_false in Hpos, Hneg; [|done..]. lex_arith.
  - intros Hz. destruct (0 <? len v) eqn:E; [|done].
    apply positive_not_zero in E. congruence.
Qed.

(** X20. Two consecutive points of a connection yield no segment exactly
    when their distance sqrt(dx*dx + dy*dy) evaluates to a zero or to NaN;
    the distance is never negative.  Otherwise they yield the one segment
    between them. *)
Theorem pair_dropped_iff (connId : Z) (p1 p2 : Point) :
  (len (sub p2 p1) <? 0) = false
  ∧ buildSegments connId [p1; p2]
    = if zeroOrNaN (len (sub p2 p1)) then [] else [segmentBetween connId p1 p2].
Proof.
  split; [apply sqrt_not_negative|].
  rewrite buildSegments_cons_cons.
  pose proof (not_positive_length (sub p2 p1)) as H.
  destruct (zeroOrNaN (len (sub p2 p1))) eqn:Hz.
  - by rewrite (proj2 H eq_refl).
  - destruct (0 <? len (sub p2 p1)) eqn:E; [done|]. discriminate (proj1 H eq_refl).
Qed.

(** Two points 1e-200 apart are at distance 0 in binary64: the square of
    the difference underflows. *)
Example close_points_dropped :
  buildSegments 1 [ {| Point.x := 0; Point.y := 0 |}; {| Point.x := 1e-200; Point.y := 0 |} ]
  = [].
Proof. vm_compute. reflexivity. Qed.

(** ** The comparator of the sort

    [a.t - b.t] is negative exactly when [a.t < b.t]: a difference of two
    different numbers is never rounded to zero, and rounding keeps its
    sign. *)

Lemma digits2_pos_bounds (m : positive) :
  (2 ^ (Z.pos (digits2_pos m) - 1) ≤ Z.pos m < 2 ^ Z.pos (digits2_pos m))%Z.
Proof.
  induction m as [m IH|m IH|]; simpl digits2_pos.
  - rewrite Pos2Z.inj_succ. replace (Z.succ (Z.pos (digits2_pos m)) - 1)%Z
      with (Z.succ (Z.pos (digits2_pos m) - 1))%Z by lia.
    rewrite !Z.pow_succ_r by lia. lia.
  - rewrite Pos2Z.inj_succ. replace (Z.succ (Z.pos (digits2_pos m)) - 1)%Z
      with (Z.succ (Z.pos (digits2_pos m) - 1))%Z by lia.
    rewrite !Z.pow_succ_r by lia. lia.
  - simpl. lia.
Qed.

Lemma shr_1_above (mrs : shr_record) (k : Z) :
  (0 ≤ k)%Z → (2 ^ (k + 1) ≤ shr_m mrs)%Z → (2 ^ k ≤ shr_m (shr_1 mrs))%Z.
Proof.
  intros Hk. rewrite Z.pow_add_r, Z.pow_1_r by lia.
  pose proof (Z.pow_pos_nonneg 2 k ltac:(lia) Hk) as Hpow.
  destruct mrs as [[|[p|p|]|p] r s]; simpl; lia.
Qed.

Lemma iter_shr_1_above (p : positive) (mrs : shr_record) (k : Z) :
  (0 ≤ k)%Z → (2 ^ (k + Z.pos p) ≤ shr_m mrs)%Z →
  (2 ^ k ≤ shr_m (SpecFloat.iter_pos shr_1 p mrs))%Z.
Proof.
  revert mrs k. induction p as [p IH|p IH|]; intros mrs k Hk Hm; simpl.
  - apply IH; [done|]. apply IH; [lia|]. apply shr_1_above; [lia|].
    replace (k + Z.pos p + Z.pos p + 1)%Z with (k + Z.pos p~1)%Z by lia. exact Hm.
  - apply IH; [done|]. apply IH; [lia|].
    replace (k + Z.pos p + Z.pos p)%Z with (k + Z.pos p~0)%Z by lia. exact Hm.
  - by apply shr_1_above.
Qed.

Lemma iter_xO_value (m d : positive) :
  Z.pos (Pos.iter xO m d) = (Z.pos m * 2 ^ Z.pos d)%Z.
Proof.
  induction d as [|d IH] using Pos.peano_ind.
  - simpl. lia.
  - rewrite Pos.iter_succ, Pos2Z.inj_succ, Z.pow_succ_r by lia.
    rewrite Pos2Z.inj_xO, IH. lia.
Qed.

Section Subtraction.
Variables prec emax : Z.
Hypothesis Hprec : (0 < prec)%Z.

Lemma shr_fexp_positive (m e : Z) (l : location) :
  (0 < m)%Z → (SpecFloat.emin prec emax ≤ e)%Z →
  (1 ≤ shr_m (shr_fexp prec emax m e l).1)%Z
  ∧ (SpecFloat.emin prec emax ≤ (shr_fexp prec emax m e l).2)%Z.
Proof using Hprec.
  intros Hm He. unfold shr_fexp, shr, SpecFloat.fexp, SpecFloat.emin in *.
  assert (shr_m (shr_record_of_loc m l) = m) as Hrec by (by destruct l as [|[]]).
  destruct m as [|m|m]; [lia| |lia]. simpl Zdigits2.
  pose proof (digits2_pos_bounds m) as [Hlow _].
  destruct (_ - e)%Z as [|n|n] eqn:En; simpl; rewrite ?Hrec; try lia.
  split; [|lia].
  replace 1%Z with (2 ^ 0)%Z by reflexivity.
  apply iter_shr_1_above; [done|]. rewrite Hrec.
  etransitivity; [|exact Hlow]. apply Z.pow_le_mono_r; lia.
Qed.

Lemma round_nearest_even_above (m : Z) (l : location) : (m ≤ round_nearest_even m l)%Z.
Proof. destruct l as [|[]]; simpl; try destruct (Z.even m); lia. Qed.

Lemma binary_round_aux_nonzero (sx : bool) (mx ex : Z) (lx : location) :
  (0 < mx)%Z → (SpecFloat.emin prec emax ≤ ex)%Z →
  match binary_round_aux prec emax sx mx ex lx with
  | S754_finite s _ _ | S754_infinity s => s = sx
  | _ => False
  end.
Proof using Hprec.
  intros Hm He. unfold binary_round_aux.
  destruct (shr_fexp_positive mx ex lx Hm He) as [H1 He1].
  destruct (shr_fexp prec emax mx ex lx) as [mrs' e']. simpl in H1, He1.
  pose proof (round_nearest_even_above (shr_m mrs') (loc_of_shr_record mrs')) as Hr.
  destruct (shr_fexp_positive (round_nearest_even (shr_m mrs') (loc_of_shr_record mrs'))
              e' loc_Exact ltac:(lia) He1) as [H2 _].
  destruct (shr_fexp prec emax (round_nearest_even _ _) e' loc_Exact) as [mrs'' e''].
  simpl in H2. destruct (shr_m mrs''); [lia| |lia]. by destruct (_ <=? _)%Z.
Qed.

Lemma binary_normalize_sign (m e : Z) :
  (SpecFloat.emin prec emax ≤ e)%Z →
  SFltb (binary_normalize prec emax m e false) (S754_zero false) = (m <? 0)%Z.
Proof using Hprec.
  intros He. destruct m as [|m|m]; simpl; [done| |].
  all: unfold binary_round; destruct (shl_align m e _) as [mz ez] eqn:Eal.
  all: assert (SpecFloat.emin prec emax ≤ ez)%Z as Hez
         by (revert Eal; unfold shl_align, SpecFloat.fexp, SpecFloat.emin in *; destruct (_ - e)%Z;
             intros [= <- <-]; lia).
  - pose proof (binary_round_aux_nonzero false (Z.pos mz) ez loc_Exact ltac:(lia) Hez) as H.
    by destruct (binary_round_aux _ _ _ _ _ _) as [?|?| |? ? ?]; subst.
  - pose proof (binary_round_aux_nonzero true (Z.pos mz) ez loc_Exact ltac:(lia) Hez) as H.
    by destruct (binary_round_aux _ _ _ _ _ _) as [?|?| |? ? ?]; subst.
Qed.

Lemma shl_align_value (mx : positive) (ex ez : Z) :
  (ez ≤ ex)%Z → Z.pos (shl_align mx ex ez).1 = (Z.pos mx * 2 ^ (ex - ez))%Z.
Proof.
  intros Hle. unfold shl_align. destruct (ez - ex)%Z as [|d|d] eqn:Ed; simpl; [|lia|].
  - replace (ex - ez)%Z with 0%Z by lia. lia.
  - rewrite iter_xO_value. f_equal. f_equal. lia.
Qed.

Lemma canonical_mantissa_spec (m : positive) (e : Z) :
  SpecFloat.canonical_mantissa prec emax m e = true →
  (SpecFloat.emin prec emax ≤ e)%Z ∧ (Z.pos (digits2_pos m) ≤ prec)%Z
  ∧ (Z.pos (digits2_pos m) = prec ∨ e = SpecFloat.emin prec emax).
Proof. unfold SpecFloat.canonical_mantissa, SpecFloat.fexp, SpecFloat.emin. intros H%Z.eqb_eq. lia. Qed.

(** A number with a larger exponent is larger in magnitude. *)
Lemma canonical_exponent_order (ma mb : positive) (ea eb : Z) :
  SpecFloat.canonical_mantissa prec emax ma ea = true →
  SpecFloat.canonical_mantissa prec emax mb eb = true →
  (ea < eb)%Z → (Z.pos ma < Z.pos mb * 2 ^ (eb - ea))%Z.
Proof using Hprec.
  intros (Hea & Hda & _)%canonical_mantissa_spec (Heb & Hdb & Hb)%canonical_mantissa_spec Hlt.
  destruct Hb as [Hb|Hb]; [|lia].
  pose proof (digits2_pos_bounds ma) as [_ Hma].
  pose proof (digits2_pos_bounds mb) as [Hmb _]. rewrite Hb in Hmb.
  assert (2 ^ Z.pos (digits2_pos ma) ≤ 2 ^ prec)%Z by (apply Z.pow_le_mono_r; lia).
  assert (2 ^ 1 ≤ 2 ^ (eb - ea))%Z by (apply Z.pow_le_mono_r; lia).
  replace (2 ^ prec)%Z with (2 ^ (prec - 1) * 2 ^ 1)%Z in *
    by (rewrite <- Z.pow_add_r by lia; f_equal; lia).
  pose proof (Z.pow_pos_nonneg 2 (prec - 1) ltac:(lia) ltac:(lia)).
  nia.
Qed.

Lemma SFltb_finite (sa sb : bool) (ma mb : positive) (ea eb : Z) :
  SpecFloat.canonical_mantissa prec emax ma ea = true →
  SpecFloat.canonical_mantissa prec emax mb eb = true →
  let ez := Z.min ea eb in
  SFltb (S754_finite sa ma ea) (S754_finite sb mb eb)
  = (cond_Zopp sa (Z.pos (shl_align ma ea ez).1)
     - cond_Zopp sb (Z.pos (shl_align mb eb ez).1) <? 0)%Z.
Proof using Hprec.
  intros Ha Hb ez. subst ez.
  rewrite !shl_align_value by lia.
  pose proof (Z.pow_pos_nonneg 2 (ea - Z.min ea eb) ltac:(lia) ltac:(lia)) as Hpa.
  pose proof (Z.pow_pos_nonneg 2 (eb - Z.min ea eb) ltac:(lia) ltac:(lia)) as Hpb.
  unfold SFltb, SFcompare.
  destruct sa, sb; simpl cond_Zopp.
  2: { symmetry. apply Z.ltb_lt. lia. }
  2: { symmetry. apply Z.ltb_ge. lia. }
  all: destruct (Z.compare_spec ea eb) as [Heq|Hlt|Hgt].
  all: try (subst eb; rewrite Z.min_id, Z.sub_diag in *; simpl Z.pow;
            rewrite Pos.compare_cont_spec; simpl;
            destruct (Pos.compare_spec ma mb) as [->|?|?]; simpl;
            symmetry; first [apply Z.ltb_lt | apply Z.ltb_ge]; lia).
  - pose proof (canonical_exponent_order ma mb ea eb Ha Hb Hlt).
    rewrite Z.min_l, Z.sub_diag in * by lia. symmetry. apply Z.ltb_ge. lia.
  - pose proof (canonical_exponent_order mb ma eb ea Hb Ha ltac:(lia)).
    rewrite Z.min_r, Z.sub_diag in * by lia. symmetry. apply Z.ltb_lt. lia.
  - pose proof (canonical_exponent_order ma mb ea eb Ha Hb Hlt).
    rewrite Z.min_l, Z.sub_diag in * by lia. symmetry. apply Z.ltb_lt. lia.
  - pose proof (canonical_exponent_order mb ma eb ea Hb Ha ltac:(lia)).
    rewrite Z.min_r, Z.sub_diag in * by lia. symmetry. apply Z.ltb_ge. lia.
Qed.

Lemma SFsub_negative (x y : spec_float) :
  SpecFloat.valid_binary prec emax x = true → SpecFloat.valid_binary prec emax y = true →
  x ≠ S754_nan → y ≠ S754_nan →
  SFltb (SFsub prec emax x y) (S754_zero false) = SFltb x y.
Proof using Hprec.
  intros Hx Hy Hnx Hny.
  destruct x as [sx|sx| |sx mx ex], y as [sy|sy| |sy my ey]; try done.
  all: try (by destruct sx, sy).
  simpl in Hx, Hy. unfold SpecFloat.bounded in Hx, Hy.
  apply andb_true_iff in Hx as [Hx _]. apply andb_true_iff in Hy as [Hy _].
  rewrite (SFltb_finite sx sy mx my ex ey Hx Hy). cbv zeta.
  unfold SFsub. apply binary_normalize_sign.
  apply canonical_mantissa_spec in Hx as [? _], Hy as [? _]. lia.
Qed.

End Subtraction.

Lemma sub_negative_iff (a b : number) :
  is_nan a = false → is_nan b = false → (a - b <? 0) = (a <? b).
Proof.
  intros Ha%is_nan_spec Hb%is_nan_spec. rewrite !FloatAxioms.ltb_spec, sub_spec.
  change (Prim2SF 0) with (S754_zero false).
  by apply (SFsub_negative prec emax); [|apply Prim2SF_valid..| |].
Qed.

Lemma SFltb_mirrored (x y : spec_float) :
  SFmirrored x y → SFltb (S754_zero false) y = SFltb x (S754_zero false).
Proof.
  intros [-> |(s & s' & -> & ->)]; [|done]. by destruct x as [?|[]| |[] ? ?].
Qed.

Lemma sub_positive_iff (a b : number) :
  is_nan a = false → is_nan b = false → (0 <? a - b) = (b <? a).
Proof.
  intros Ha Hb. rewrite <- (sub_negative_iff b a Hb Ha).
  rewrite !FloatAxioms.ltb_spec. change (Prim2SF 0) with (S754_zero false).
  apply SFltb_mirrored, mirrored_sub_swap.
Qed.

(** X21. The comparator of the sort, [a.t - b.t], is consistent with the
    order of the distances: for numbers (not NaN) it is negative exactly
    when [a.t < b.t] and positive exactly when [a.t > b.t].  In binary64 a
    difference of two different numbers is never rounded to zero. *)
Theorem comparator_consistent (a b : Intersection) :
  is_nan (Intersection.t a) = false → is_nan (Intersection.t b) = false →
  (Intersection.t a - Intersection.t b <? 0) = (Intersection.t a <? Intersection.t b)
  ∧ (0 <? Intersection.t a - Intersection.t b) = (Intersection.t b <? Intersection.t a).
Proof.
  intros Ha Hb. split; [by apply sub_negative_iff|by apply sub_positive_iff].
Qed.

Lemma comparator_consistent_witness :
  (70 - 0x1p-1074 <? 0) = (70 <? 0x1p-1074)
  ∧ (0 <? 70 - 0x1p-1074) = (0x1p-1074 <? 70).
Proof.
  exact (comparator_consistent {| Intersection.t := 70; Intersection.otherId := 1 |}
           {| Intersection.t := 0x1p-1074; Intersection.otherId := 2 |} eq_refl eq_refl).
Defined.

(** ** The order in which crossings are visited *)

Lemma ascending_cons (a : Intersection) (l : list Intersection) :
  ascending (a :: l)
  ↔ (∀ b, head l = Some b → (Intersection.t b <? Intersection.t a) = false)
    ∧ ascending l.
Proof.
  unfold ascending. destruct l as [|b l]; simpl.
  { split; [|intros _ ? ? H; by apply elem_of_nil in H].
    intros _. split; [done|]. intros ? ? H. by apply elem_of_nil in H. }
  change (consecutive (a :: b :: l)) with ((a, b) :: consecutive (b :: l)).
  split.
  - intros H. split.
    + intros ? [= <-]. apply H, list_elem_of_here.
    + intros x y Hxy. by apply H, list_elem_of_further.
  - intros [Hhd Htl] x y [[= -> ->]|Hxy]%elem_of_cons; [by apply Hhd|by apply Htl].
Qed.

Lemma sort_insert_head {A} (compareFn : A → A → number) (a : A) (l : list A) (x : A) :
  head (sort_insert compareFn a l) = Some x → x = a ∨ head l = Some x.
Proof.
  destruct l as [|b l]; simpl; [by intros [= <-]; left|].
  destruct (compareFn a b <? 0); simpl; intros [= <-]; auto.
Qed.

Lemma sort_insert_ascending (a : Intersection) (l : list Intersection) :
  is_nan (Intersection.t a) = false →
  Forall (λ inter, is_nan (Intersection.t inter) = false) l →
  ascending l →
  ascending (sort_insert (λ a b, Intersection.t a - Intersection.t b) a l).
Proof.
  intros Ha. induction l as [|b l IH]; intros Hl Hasc; simpl.
  { apply ascending_cons. split; [done|]. intros ? ? H. by apply elem_of_nil in H. }
  apply Forall_cons in Hl as [Hb Hl].
  pose proof (sub_negative_iff _ _ Ha Hb) as Hcmp.
  destruct (Intersection.t a - Intersection.t b <? 0).
  - apply ascending_cons. split; [|done].
    intros ? [= <-]. by apply ltb_asym.
  - apply ascending_cons in Hasc as [Hhd Htl]. apply ascending_cons. split; [|by apply IH].
    intros x [-> |Hx]%sort_insert_head; [done|by apply Hhd].
Qed.

Lemma Array_sort_ascending (l : list Intersection) :
  Forall (λ inter, is_nan (Intersection.t inter) = false) l →
  ascending (Array_sort (λ a b, Intersection.t a - Intersection.t b) l).
Proof.
  unfold Array_sort. intros Hl.
  enough (∀ sorted,
            Forall (λ inter, is_nan (Intersection.t inter) = false) sorted →
            ascending sorted →
            ascending (fold_left (λ sorted a,
                         sort_insert (λ a b, Intersection.t a - Intersection.t b) a sorted)
                         l sorted)) as Hgen.
  { apply Hgen; [done|]. intros ? ? H. by apply elem_of_nil in H. }
  induction l as [|a l IH]; intros sorted Hs Hasc; simpl; [done|].
  apply Forall_cons in Hl as [Ha Hl]. apply IH; [done| |].
  - rewrite sort_insert_perm. by apply Forall_cons.
  - by apply sort_insert_ascending.
Qed.

(** X22. The crossings of a segment are visited in non-decreasing order
    of their distance along the segment: in the sorted list no crossing is
    followed by one strictly nearer. *)
Theorem crossings_visited_in_order (seg : LineSegment) (allSegments : list LineSegment) :
  (0 <? LineSegment.len seg) = true →
  ascending (sortedIntersections seg allSegments).
Proof.
  intros Hlen. unfold sortedIntersections. apply Array_sort_ascending.
  apply Forall_forall. intros inter Hin.
  apply elem_of_sortedIntersections in Hin.
  pose proof (sortedIntersections_not_nan seg allSegments Hlen) as Hall.
  rewrite Forall_forall in Hall. by apply Hall.
Qed.

Lemma crossings_visited_in_order_witness :
  ascending (sortedIntersections busySegment (rev crossingSegments)).
Proof.
  apply (crossings_visited_in_order busySegment (rev crossingSegments)). reflexivity.
Defined.

(** The segments of wires 2 and 1 are found at distances 80 and 70 and
    visited at 70, then 80. *)
Example crossings_reordered :
  findIntersections busySegment (rev crossingSegments)
  = [ {| Intersection.t := 80; Intersection.otherId := 2 |};
      {| Intersection.t := 70; Intersection.otherId := 1 |} ]
  ∧ sortedIntersections busySegment (rev crossingSegments)
    = [ {| Intersection.t := 70; Intersection.otherId := 1 |};
        {| Intersection.t := 80; Intersection.otherId := 2 |} ].
Proof. split; vm_compute; reflexivity. Qed.

Lemma ltb_false_trans (a b c : number) :
  is_nan a = false → is_nan b = false → is_nan c = false →
  (b <? a) = false → (c <? b) = false → (c <? a) = false.
Proof.
  intros Ha Hb Hc Hba Hcb.
  apply ltb_false in Hba, Hcb; [|done..]. apply ltb_false; [done..|]. lex_arith.
Qed.

Lemma ascending_suffix (pre l : list Intersection) : ascending (pre ++ l) → ascending l.
Proof.
  induction pre as [|a pre IH]; [done|]. simpl. intros [_ H]%ascending_cons. by apply IH.
Qed.

Lemma ascending_later (a : Intersection) (l : list Intersection) (b : Intersection) :
  Forall (λ inter, is_nan (Intersection.t inter) = false) (a :: l) →
  ascending (a :: l) → b ∈ l →
  (Intersection.t b <? Intersection.t a) = false.
Proof.
  revert a. induction l as [|c l IH]; intros a Hnan Hasc Hb.
  { by apply elem_of_nil in Hb. }
  apply Forall_cons in Hnan as [Ha Hnan].
  apply ascending_cons in Hasc as [Hhd Hasc]. specialize (Hhd c eq_refl).
  apply elem_of_cons in Hb as [-> |Hb]; [done|].
  pose proof (IH c Hnan Hasc Hb) as Hbc.
  apply Forall_cons in Hnan as [Hc Hnan].
  apply (ltb_false_trans _ (Intersection.t c)); try done.
  rewrite Forall_forall in Hnan. by apply Hnan.
Qed.

Lemma acceptedBridges_head_center (seg : LineSegment) (intersections : list Intersection)
    (currentT : number) (b : Bridge) :
  head (acceptedBridges seg currentT intersections) = Some b →
  ∃ inter, inter ∈ intersections ∧ Bridge.centerT b = Intersection.t inter.
Proof.
  intros Hhd. apply (acceptedBridges_center seg intersections currentT).
  destruct (acceptedBridges seg currentT intersections); [done|].
  injection Hhd as ->. apply list_elem_of_here.
Qed.

Lemma acceptedBridges_pair (seg : LineSegment) (intersections : list Intersection)
    (currentT : number) (b1 b2 : Bridge) :
  (b1, b2) ∈ consecutive (acceptedBridges seg currentT intersections) →
  ∃ pre i1 later i2,
    intersections = pre ++ i1 :: later ∧ i2 ∈ later
    ∧ Bridge.centerT b1 = Intersection.t i1 ∧ Bridge.centerT b2 = Intersection.t i2.
Proof.
  revert currentT. induction intersections as [|inter rest IH]; intros currentT.
  { simpl. intros H. by apply elem_of_nil in H. }
  rewrite acceptedBridges_cons. destruct (_ <=? _).
  { intros (pre & i1 & later & i2 & -> & H)%IH. by exists (inter :: pre), i1, later, i2. }
  destruct (acceptedBridges seg (bridgeEnd seg (Intersection.t inter)) rest)
    as [|b' l] eqn:E.
  { simpl. intros H. by apply elem_of_nil in H. }
  change (consecutive (?b :: b' :: l)) with ((b, b') :: consecutive (b' :: l)).
  intros [[= -> ->]|H]%elem_of_cons.
  - destruct (acceptedBridges_head_center seg rest (bridgeEnd seg (Intersection.t inter)) b')
      as (i2 & Hi2 & Hc); [by rewrite E|].
    by exists [], inter, rest, i2.
  - rewrite <- E in H. apply IH in H as (pre & i1 & later & i2 & -> & H).
    by exists (inter :: pre), i1, later, i2.
Qed.

(** X23. Along a segment the bridged crossings follow one another in
    non-decreasing order of distance: the crossing of a bridge is never
    strictly nearer than the crossing of the bridge drawn before it. *)
Theorem bridge_centres_in_order (seg : LineSegment) (allSegments : list LineSegment)
    (b1 b2 : Bridge) :
  (0 <? LineSegment.len seg) = true →
  (b1, b2) ∈ consecutive (bridgesOf seg allSegments) →
  (Bridge.centerT b2 <? Bridge.centerT b1) = false.
Proof.
  intros Hlen (pre & i1 & later & i2 & Hsplit & Hi2 & -> & ->)%acceptedBridges_pair.
  pose proof (sortedIntersections_not_nan seg allSegments Hlen) as Hnan.
  pose proof (Array_sort_ascending (findIntersections seg allSegments)) as Hasc.
  fold (sortedIntersections seg allSegments) in Hasc. rewrite Hsplit in Hnan, Hasc.
  apply (ascending_later i1 later i2); [|apply (ascending_suffix pre), Hasc|done].
  - by apply Forall_app in Hnan as [_ Hnan].
  - apply Forall_forall. intros inter Hin.
    assert (inter ∈ sortedIntersections seg allSegments) as Hsorted
      by (by apply elem_of_sortedIntersections).
    pose proof (sortedIntersections_not_nan seg allSegments Hlen) as Hall.
    rewrite Forall_forall in Hall. by apply Hall.
Qed.

Lemma bridge_centres_in_order_witness : (80 <? 70) = false.
Proof.
  apply (bridge_centres_in_order busySegment crossingSegments
           {| Bridge.fromT := 0; Bridge.startT := 58; Bridge.centerT := 70; Bridge.endT := 82 |}
           {| Bridge.fromT := 82; Bridge.startT := 82; Bridge.centerT := 80; Bridge.endT := 92 |}).
  - reflexivity.
  - vm_compute. apply list_elem_of_here.
Defined.

(** * The tie-break rule

    ** Subtracting the bridge size never moves a distance forward *)

Lemma shr_1_half (mrs : shr_record) :
  (0 ≤ shr_m mrs)%Z → shr_m (shr_1 mrs) = (shr_m mrs / 2)%Z.
Proof.
  destruct mrs as [[|[p|p|]|p] r s]; simpl; intros H; try lia.
  all: Z.div_mod_to_equations; lia.
Qed.

Lemma pow2_xO (p : positive) : (2 ^ Z.pos p~0 = 2 ^ Z.pos p * 2 ^ Z.pos p)%Z.
Proof. rewrite <- Z.pow_add_r by lia. f_equal. lia. Qed.

Lemma pow2_xI (p : positive) : (2 ^ Z.pos p~1 = 2 * (2 ^ Z.pos p * 2 ^ Z.pos p))%Z.
Proof.
  replace (Z.pos p~1) with (Z.succ (Z.pos p~0)) by lia.
  rewrite Z.pow_succ_r, pow2_xO by lia. reflexivity.
Qed.

Lemma iter_shr_1_value (p : positive) (mrs : shr_record) :
  (0 ≤ shr_m mrs)%Z →
  shr_m (SpecFloat.iter_pos shr_1 p mrs) = (shr_m mrs / 2 ^ Z.pos p)%Z.
Proof.
  revert mrs. induction p as [p IH|p IH|]; intros mrs Hm; simpl.
  - pose proof (Z.pow_pos_nonneg 2 (Z.pos p) ltac:(lia) ltac:(lia)) as Hpos.
    rewrite IH, IH, shr_1_half by auto using iter_shr_1_nonneg, shr_1_nonneg.
    rewrite !Z.div_div by lia. by rewrite pow2_xI.
  - pose proof (Z.pow_pos_nonneg 2 (Z.pos p) ltac:(lia) ltac:(lia)) as Hpos.
    rewrite IH, IH by auto using iter_shr_1_nonneg.
    rewrite !Z.div_div by lia. by rewrite pow2_xO.
  - rewrite shr_1_half by done. reflexivity.
Qed.

Lemma round_nearest_even_below (m : Z) (l : location) : (round_nearest_even m l ≤ m + 1)%Z.
Proof. destruct l as [|[]]; simpl; try destruct (Z.even m); lia. Qed.

Lemma digits2_pos_le (m : positive) (B : Z) :
  (Z.pos m < 2 ^ B)%Z → (0 ≤ B)%Z → (Z.pos (digits2_pos m) ≤ B)%Z.
Proof.
  intros Hm HB. pose proof (digits2_pos_bounds m) as [Hlow _].
  assert (2 ^ (Z.pos (digits2_pos m) - 1) < 2 ^ B)%Z as Hlt by lia.
  apply Z.pow_lt_mono_r_iff in Hlt; lia.
Qed.

Lemma shl_align_spec (p : positive) (e t : Z) :
  ((shl_align p e t).2 ≤ e)%Z
  ∧ Z.pos (shl_align p e t).1 = (Z.pos p * 2 ^ (e - (shl_align p e t).2))%Z.
Proof.
  unfold shl_align. destruct (t - e)%Z as [|d|d] eqn:Ed; simpl.
  - rewrite Z.sub_diag. simpl. lia.
  - rewrite Z.sub_diag. simpl. lia.
  - split; [lia|]. rewrite iter_xO_value. f_equal. f_equal. lia.
Qed.

Section UpperBound.
Variables prec emax : Z.
Hypothesis Hprec : (0 < prec)%Z.

Lemma shr_fexp_value (m e : Z) (l : location) :
  (0 ≤ m)%Z →
  (shr_fexp prec emax m e l).2 = Z.max e (SpecFloat.fexp prec emax (Zdigits2 m + e))
  ∧ shr_m (shr_fexp prec emax m e l).1 = (m / 2 ^ ((shr_fexp prec emax m e l).2 - e))%Z.
Proof.
  intros Hm. unfold shr_fexp, shr.
  assert (shr_m (shr_record_of_loc m l) = m) as Hrec by (by destruct l as [|[]]).
  destruct (_ - e)%Z as [|n|n] eqn:En; simpl.
  - rewrite Z.sub_diag, Z.div_1_r. split; [lia|done].
  - split; [lia|]. rewrite iter_shr_1_value by lia. rewrite Hrec. f_equal. f_equal. lia.
  - rewrite Z.sub_diag, Z.div_1_r. split; [lia|done].
Qed.

(** Rounding a value below a representable number does not pass it. *)
Lemma binary_round_aux_upper (mz mx : positive) (ez ex : Z) :
  SpecFloat.canonical_mantissa prec emax mx ex = true →
  (ex ≤ emax - prec)%Z → (ez ≤ ex)%Z →
  (Z.pos mz < Z.pos mx * 2 ^ (ex - ez))%Z →
  match binary_round_aux prec emax false (Z.pos mz) ez loc_Exact with
  | S754_zero _ => True
  | S754_finite _ mr er =>
      (ez ≤ er ≤ ex)%Z ∧ (Z.pos mr * 2 ^ (er - ez) ≤ Z.pos mx * 2 ^ (ex - ez))%Z
  | _ => False
  end.
Proof using Hprec.
  intros Hcan Hbound Hez Hlt.
  unfold SpecFloat.canonical_mantissa, SpecFloat.fexp, SpecFloat.emin in Hcan.
  apply Z.eqb_eq in Hcan.
  pose proof (digits2_pos_bounds mx) as [_ Hmx].
  set (dx := Z.pos (digits2_pos mx)) in *.
  assert (∀ a b, (0 ≤ a)%Z → (0 ≤ b)%Z → (2 ^ (a + b) = 2 ^ a * 2 ^ b)%Z) as Hpow
    by (intros; by apply Z.pow_add_r).
  assert (∀ a, (0 ≤ a)%Z → (0 < 2 ^ a)%Z) as Hpos
    by (intros; by apply Z.pow_pos_nonneg).
  (* the value has no more digits than the bound *)
  assert (∀ (q : positive) (e : Z), (e ≤ ex)%Z → (Z.pos q ≤ Z.pos mx * 2 ^ (ex - e))%Z →
            (Z.pos (digits2_pos q) + e ≤ dx + ex)%Z) as Hdigits.
  { intros q e He Hq. enough (Z.pos (digits2_pos q) ≤ dx + ex - e)%Z by lia.
    apply digits2_pos_le; [|lia].
    replace (dx + ex - e)%Z with (dx + (ex - e))%Z by lia. rewrite Hpow by lia.
    pose proof (Hpos (ex - e)%Z ltac:(lia)). nia. }
  unfold binary_round_aux.
  destruct (shr_fexp_value (Z.pos mz) ez loc_Exact ltac:(lia)) as [He1 Hm1].
  pose proof (shr_fexp_nonneg prec emax (Z.pos mz) ez loc_Exact ltac:(lia)) as Hn1.
  destruct (shr_fexp prec emax (Z.pos mz) ez loc_Exact) as [mrs' e1].
  simpl in He1, Hm1, Hn1. unfold SpecFloat.fexp, SpecFloat.emin in He1. simpl Zdigits2 in He1.
  pose proof (Hdigits mz ez Hez ltac:(lia)) as Hd1.
  assert (ez ≤ e1 ≤ ex)%Z as He1' by lia.
  set (K := (Z.pos mx * 2 ^ (ex - e1))%Z).
  assert (Z.pos mx * 2 ^ (ex - ez) = K * 2 ^ (e1 - ez))%Z as HK.
  { unfold K. rewrite <- Z.mul_assoc, <- Hpow by lia. f_equal. f_equal. lia. }
  assert (shr_m mrs' < K)%Z as Hlt1.
  { rewrite Hm1. apply Z.div_lt_upper_bound; [apply Hpos; lia|]. lia. }
  set (m1 := round_nearest_even (shr_m mrs') (loc_of_shr_record mrs')).
  pose proof (round_nearest_even_below (shr_m mrs') (loc_of_shr_record mrs')) as Hr1.
  pose proof (round_nearest_even_above (shr_m mrs') (loc_of_shr_record mrs')) as Hr2.
  fold m1 in Hr1, Hr2.
  assert (0 ≤ m1 ≤ K)%Z as Hm1K by lia.
  destruct (shr_fexp_value m1 e1 loc_Exact ltac:(lia)) as [He2 Hm2].
  pose proof (shr_fexp_nonneg prec emax m1 e1 loc_Exact ltac:(lia)) as Hn2.
  destruct (shr_fexp prec emax m1 e1 loc_Exact) as [mrs'' e2].
  simpl in He2, Hm2, Hn2. unfold SpecFloat.fexp, SpecFloat.emin in He2.
  assert (e1 ≤ e2 ≤ ex)%Z as He2'.
  { destruct m1 as [|q|q]; simpl Zdigits2 in He2; [lia| |lia].
    pose proof (Hdigits q e1 ltac:(lia) ltac:(unfold K in Hm1K; lia)). lia. }
  assert (shr_m mrs'' * 2 ^ (e2 - e1) ≤ m1)%Z as Hm2'.
  { rewrite Hm2, Z.mul_comm. apply Z.mul_div_le, Hpos. lia. }
  destruct (shr_m mrs'') as [|mr|mr] eqn:Emr; [done| |lia].
  destruct (Z.leb_spec e2 (emax - prec)); [|lia].
  split; [lia|]. rewrite HK.
  replace (e2 - ez)%Z with ((e2 - e1) + (e1 - ez))%Z by lia. rewrite Hpow by lia.
  pose proof (Hpos (e1 - ez)%Z ltac:(lia)). nia.
Qed.

End UpperBound.

Section SubtractPositive.
Variables prec emax : Z.
Hypothesis Hprec : (0 < prec)%Z.

Lemma SFsub_le_self (mx my : positive) (ex ey : Z) :
  SpecFloat.bounded prec emax mx ex = true →
  SpecFloat.bounded prec emax my ey = true →
  SpecFloat.valid_binary prec emax
    (SFsub prec emax (S754_finite false mx ex) (S754_finite false my ey)) = true →
  SFltb (S754_finite false mx ex)
        (SFsub prec emax (S754_finite false mx ex) (S754_finite false my ey)) = false.
Proof using Hprec.
  unfold SpecFloat.bounded. intros [Hx Hbx%Z.leb_le]%andb_true_iff [Hy _]%andb_true_iff.
  pose proof (canonical_mantissa_spec prec emax mx ex Hx) as (Hex & _).
  pose proof (canonical_mantissa_spec prec emax my ey Hy) as (Hey & _).
  unfold SFsub. simpl cond_Zopp.
  set (ez := Z.min ex ey).
  rewrite !shl_align_value by lia.
  pose proof (Z.pow_pos_nonneg 2 (ey - ez) ltac:(lia) ltac:(lia)) as Hpy.
  set (X := (Z.pos mx * 2 ^ (ex - ez))%Z).
  destruct (X - Z.pos my * 2 ^ (ey - ez))%Z as [|p|p] eqn:Ediff; simpl binary_normalize.
  - done.
  - intros Hvalid. unfold binary_round in *.
    destruct (shl_align_spec p ez (SpecFloat.fexp prec emax (Z.pos (digits2_pos p) + ez)))
      as [Hez' Hmz].
    destruct (shl_align p ez _) as [mz ez']. simpl in Hez', Hmz.
    assert (Z.pos mz < Z.pos mx * 2 ^ (ex - ez'))%Z as Hlt.
    { rewrite Hmz. replace (ex - ez')%Z with ((ex - ez) + (ez - ez'))%Z by lia.
      rewrite Z.pow_add_r, Z.mul_assoc by lia. fold X.
      pose proof (Z.pow_pos_nonneg 2 (ez - ez') ltac:(lia) ltac:(lia)). nia. }
    pose proof (binary_round_aux_upper prec emax Hprec mz mx ez' ex Hx Hbx ltac:(lia) Hlt) as Hup.
    pose proof (binary_round_aux_sign prec emax false (Z.pos mz) ez' loc_Exact) as Hs.
    destruct (binary_round_aux prec emax false (Z.pos mz) ez' loc_Exact)
      as [s|s| |s mr er]; [done|done|done|]. subst s.
    destruct Hup as [Her Hval]. simpl in Hvalid. unfold SpecFloat.bounded in Hvalid.
    apply andb_true_iff in Hvalid as [Hr _].
    rewrite (SFltb_finite prec emax Hprec false false mx mr ex er Hx Hr). cbv zeta.
    rewrite !shl_align_value by lia. simpl cond_Zopp.
    rewrite Z.min_r, Z.sub_diag, Z.pow_0_r, Z.mul_1_r by lia.
    apply Z.ltb_ge.
    replace (ex - ez')%Z with ((ex - er) + (er - ez'))%Z in Hval by lia.
    rewrite Z.pow_add_r, Z.mul_assoc in Hval by lia.
    pose proof (Z.pow_pos_nonneg 2 (er - ez') ltac:(lia) ltac:(lia)).
    enough (Z.pos mr ≤ Z.pos mx * 2 ^ (ex - er))%Z by lia.
    by apply (Z.mul_le_mono_pos_r _ _ (2 ^ (er - ez'))).
  - intros _.
    pose proof (binary_normalize_sign prec emax Hprec (Z.neg p) ez ltac:(lia)) as Hneg.
    simpl binary_normalize in Hneg.
    by destruct (binary_round prec emax true p ez) as [[]|[]| |[] ? ?].
Qed.

End SubtractPositive.

Lemma sub_le_self (x : number) :
  is_nan x = false → (0 <=? x) = true → (x - BRIDGE_SIZE <=? x) = true.
Proof.
  intros Hx H0.
  assert (is_nan (x - BRIDGE_SIZE) = false) as Hr by (by eapply (sub_finite_not_nan x BRIDGE_SIZE)).
  apply leb_true; [done..|]. apply ltb_false; [done..|].
  revert H0. rewrite FloatAxioms.leb_spec, FloatAxioms.ltb_spec, sub_spec.
  pose proof (Prim2SF_valid x) as Hvx. pose proof (Prim2SF_valid (x - BRIDGE_SIZE)) as Hvr.
  rewrite sub_spec in Hvr. pose proof (Prim2SF_valid BRIDGE_SIZE) as Hvb.
  change (Prim2SF 0) with (S754_zero false).
  destruct (Prim2SF BRIDGE_SIZE) as [?|?| |[] mb eb] eqn:Eb; try discriminate Eb.
  destruct (Prim2SF x) as [s|[]| |[] mx ex]; try done.
  intros _. by apply (SFsub_le_self prec emax).
Qed.

(** ** How far a segment has been drawn *)

Lemma fold_bridgeStep_drawn (seg : LineSegment) (intersections : list Intersection)
    (currentT : number) (pathData : list PathCommand) :
  (fold_left (bridgeStep seg) intersections (currentT, pathData)).1
  = drawnTo seg currentT intersections.
Proof.
  unfold drawnTo. revert currentT pathData.
  induction intersections as [|inter rest IH]; intros currentT pathData; simpl; [done|].
  destruct (_ <=? _); [apply IH|]. by rewrite !(IH _ (_ ++ _)), (IH _ (bridgeCommands _ _ _ _)).
Qed.

Lemma drawnTo_cons (seg : LineSegment) (currentT : number) (inter : Intersection)
    (rest : list Intersection) :
  drawnTo seg currentT (inter :: rest)
  = if bridgeEnd seg (Intersection.t inter) <=? bridgeStart currentT (Intersection.t inter)
    then drawnTo seg currentT rest
    else drawnTo seg (bridgeEnd seg (Intersection.t inter)) rest.
Proof.
  unfold drawnTo at 1. simpl. destruct (_ <=? _); [done|]. apply fold_bridgeStep_drawn.
Qed.

Lemma acceptedBridges_app (seg : LineSegment) (currentT : number)
    (first rest : list Intersection) :
  acceptedBridges seg currentT (first ++ rest)
  = acceptedBridges seg currentT first
    ++ acceptedBridges seg (drawnTo seg currentT first) rest.
Proof.
  revert currentT. induction first as [|inter first IH]; intros currentT; [done|].
  rewrite <- app_comm_cons, !acceptedBridges_cons, drawnTo_cons.
  destruct (_ <=? _); [apply IH|]. by rewrite IH.
Qed.

(** A crossing distance is not negative (the fraction along the segment
    is above 0.001 and the length is positive). *)
Lemma getIntersectionT_nonneg (seg1 seg2 : LineSegment) (d : number) :
  (0 <? LineSegment.len seg1) = true →
  getIntersectionT seg1 seg2 = Some d →
  (0 <=? d) = true.
Proof.
  intros Hlen. unfold getIntersectionT. destruct (_ <? 1e-5); [discriminate|].
  destruct (_ && _ && _ && _) eqn:E; [|discriminate].
  intros [= <-]. apply andb_true_iff in E as [[[Ht _]%andb_true_iff _]%andb_true_iff _].
  by apply mul_positive_nonneg.
Qed.

Lemma sortedIntersections_nonneg (seg : LineSegment) (allSegments : list LineSegment) :
  (0 <? LineSegment.len seg) = true →
  Forall (λ inter, (0 <=? Intersection.t inter) = true) (sortedIntersections seg allSegments).
Proof.
  intros Hlen. apply Forall_forall.
  intros inter (other & _ & _ & Hd & _)%elem_of_sortedIntersections%elem_of_findIntersections.
  by eapply getIntersectionT_nonneg.
Qed.

(** In a list in ascending order, what comes before a crossing is not
    farther than it. *)
Lemma ascending_earlier (pre : list Intersection) (x : Intersection)
    (post : list Intersection) (a : Intersection) :
  Forall (λ inter, is_nan (Intersection.t inter) = false) (pre ++ x :: post) →
  ascending (pre ++ x :: post) → a ∈ pre →
  (Intersection.t x <? Intersection.t a) = false.
Proof.
  induction pre as [|c pre IH]; intros Hnan Hasc Ha.
  { by apply elem_of_nil in Ha. }
  apply elem_of_cons in Ha as [->|Ha].
  - apply (ascending_later c (pre ++ x :: post)); [done..|].
    apply elem_of_app. right. apply list_elem_of_here.
  - simpl in Hnan, Hasc. apply Forall_cons in Hnan as [_ Hnan].
    apply ascending_cons in Hasc as [_ Hasc]. by apply IH.
Qed.

Lemma drawnTo_not_nan (seg : LineSegment) (intersections : list Intersection)
    (currentT : number) :
  is_nan (LineSegment.len seg) = false → is_nan currentT = false →
  Forall (λ inter, is_nan (Intersection.t inter) = false) intersections →
  is_nan (drawnTo seg currentT intersections) = false.
Proof.
  intros Hnlen. revert currentT.
  induction intersections as [|inter rest IH]; intros currentT Hcur Hnan; [done|].
  apply Forall_cons in Hnan as [Hn Hnan]. rewrite drawnTo_cons.
  destruct (bridge_interval_bounds seg currentT _ Hnlen Hcur Hn) as ([_ Hne] & _).
  destruct (bridgeEnd seg (Intersection.t inter)
            <=? bridgeStart currentT (Intersection.t inter)); by apply IH.
Qed.

(** ** A recorded crossing is under a curve

    Going through crossings that are not farther than [d], starting from a
    point not farther than [d]: either the segment has still not been drawn
    farther than [d], or one of the bridges drawn so far spans [d]. *)
Lemma drawnTo_covers (seg : LineSegment) (intersections : list Intersection)
    (currentT d : number) :
  is_nan (LineSegment.len seg) = false →
  is_nan currentT = false → is_nan d = false →
  (currentT <=? d) = true →
  Forall (λ inter, is_nan (Intersection.t inter) = false) intersections →
  Forall (λ inter, (0 <=? Intersection.t inter) = true) intersections →
  Forall (λ inter, (d <? Intersection.t inter) = false) intersections →
  (drawnTo seg currentT intersections <=? d) = true
  ∨ ∃ b, b ∈ acceptedBridges seg currentT intersections ∧ spans b d.
Proof.
  intros Hnlen. revert currentT.
  induction intersections as [|inter rest IH];
    intros currentT Hcur Hd Hle Hnan Hpos Hbefore.
  { by left. }
  apply Forall_cons in Hnan as [Hn Hnan]. apply Forall_cons in Hpos as [Hp Hpos].
  apply Forall_cons in Hbefore as [Hb Hbefore].
  rewrite drawnTo_cons, acceptedBridges_cons.
  destruct (bridge_interval_bounds seg currentT _ Hnlen Hcur Hn)
    as ([Hns Hne] & Hs1 & Hs2 & He1 & He2 & Hsex & Heex).
  destruct (bridgeEnd seg (Intersection.t inter)
            <=? bridgeStart currentT (Intersection.t inter)) eqn:Hacc; [by apply IH|].
  destruct (bridgeEnd seg (Intersection.t inter) <=? d) eqn:Hend.
  - destruct (IH _ Hne Hd Hend Hnan Hpos Hbefore) as [Hr|(b & Hin & Hspan)]; [by left|].
    right. exists b. split; [by apply list_elem_of_further|done].
  - right. eexists. split; [apply list_elem_of_here|]. unfold spans. simpl.
    pose proof (sub_le_self _ Hn Hp) as Hsub.
    assert (is_nan (Intersection.t inter - BRIDGE_SIZE) = false) as Hlo
      by (by apply leb_not_nan in Hsub as [? _]).
    apply leb_true in Hsub, Hle; [|done..].
    apply ltb_false in Hb; [|done..]. apply leb_false in Hend; [|done..].
    split; [apply leb_true|apply ltb_true]; try done; destruct Hsex; lex_arith.
Qed.

(** A crossing recorded on a segment, before the end of the segment and
    where adding the bridge size moves the distance forward, is under a
    curve of the segment: under its own bridge, or under a bridge drawn
    earlier that reaches past it. *)
Lemma recorded_crossing_spanned (seg : LineSegment) (allSegments : list LineSegment)
    (inter : Intersection) :
  (0 <? LineSegment.len seg) = true →
  inter ∈ sortedIntersections seg allSegments →
  (Intersection.t inter <? LineSegment.len seg) = true →
  (Intersection.t inter <? Intersection.t inter + BRIDGE_SIZE) = true →
  ∃ b, b ∈ bridgesOf seg allSegments ∧ spans b (Intersection.t inter).
Proof.
  intros Hlen Hin Hbefore Hfwd. destruct (ltb_not_nan _ _ Hlen) as [_ Hnlen].
  pose proof (sortedIntersections_not_nan seg allSegments Hlen) as Hnan.
  pose proof (sortedIntersections_nonneg seg allSegments Hlen) as Hpos.
  pose proof (Array_sort_ascending (findIntersections seg allSegments)) as Hasc.
  fold (sortedIntersections seg allSegments) in Hasc.
  apply list_elem_of_split in Hin as (pre & post & Hsplit).
  unfold bridgesOf. rewrite Hsplit in *.
  assert (Forall (λ i, is_nan (Intersection.t i) = false)
            (findIntersections seg allSegments)) as Hfind.
  { apply Forall_forall. intros i Hi. rewrite Forall_forall in Hnan. apply Hnan.
    rewrite <- Hsplit. by apply elem_of_sortedIntersections. }
  specialize (Hasc Hfind).
  pose proof Hnan as Hnan'. apply Forall_app in Hnan' as [Hnpre [Hn Hnpost]%Forall_cons].
  apply Forall_app in Hpos as [Hppre [Hp Hppost]%Forall_cons].
  rewrite acceptedBridges_app.
  pose proof (drawnTo_not_nan seg pre 0 Hnlen eq_refl Hnpre) as Hncur.
  destruct (drawnTo_covers seg pre 0 (Intersection.t inter) Hnlen eq_refl Hn Hp Hnpre Hppre)
    as [Hcur|(b & Hb & Hspan)].
  { apply Forall_forall. intros a Ha. by apply (ascending_earlier pre inter post). }
  - rewrite acceptedBridges_cons.
    destruct (bridge_interval_bounds seg (drawnTo seg 0 pre) _ Hnlen Hncur Hn)
      as ([Hns Hne] & Hs1 & Hs2 & He1 & He2 & Hsex & Heex).
    pose proof (sub_le_self _ Hn Hp) as Hsub.
    assert (is_nan (Intersection.t inter - BRIDGE_SIZE) = false) as Hlo
      by (by apply leb_not_nan in Hsub as [? _]).
    destruct (ltb_not_nan _ _ Hfwd) as [_ Hhi].
    apply leb_true in Hsub, Hcur; [|done..]. apply ltb_true in Hbefore, Hfwd; [|done..].
    assert ((bridgeEnd seg (Intersection.t inter)
             <=? bridgeStart (drawnTo seg 0 pre) (Intersection.t inter)) = false) as ->.
    { apply leb_false; [done..|]. destruct Hsex, Heex; lex_arith. }
    eexists. split; [apply elem_of_app; right; apply list_elem_of_here|].
    unfold spans. simpl.
    split; [apply leb_true|apply ltb_true]; try done; destruct Hsex, Heex; lex_arith.
  - exists b. split; [|done]. apply elem_of_app. by left.
Qed.

(** ** Which line draws the bridge *)

Section TieBreak.
Context {layout : Layout}.

(** C1, amended.  Ids identifying the connections, for lines i < j of one
    pass and a segment of j that crosses a segment of i, at distance d
    along the segment of j: the crossing is recorded on the segment of j and
    never on a segment of i, since a segment records crossings only with
    segments of strictly lower id.  The path of j has a curve over the
    crossing point (a bridge with startT <= d < endT, drawn as a Q) whenever
    d is before the end of the segment and d + 12 is above d.  That
    curve is centred on the crossing exactly when the bridge of the crossing
    is not skipped: with the segment drawn up to currentT by the crossings
    sorted before this one, when min(len, d + 12) <= max(currentT, d - 12)
    is false; when it is true the crossing adds no bridge.  And every
    curve on the path of i jumps over a connection of lower id than i. *)
Theorem tie_break_higher_id_yields (connections : list Connection)
    (items : list CanvasItem) (finalPaths : gmap Z PathMetadata) :
  calculateManualPathsWithBridges connections items = Return finalPaths →
  NoDup (map Connection.id connections) →
  ∃ rawLines connectionWaypoints,
    buildGeometry connections items [] ∅ = Return (rawLines, connectionWaypoints)
    ∧ finalPaths = renderLines rawLines connectionWaypoints
    ∧ let allSegments := flat_map RawLine.segments rawLines in
      (∀ line seg inter,
         line ∈ rawLines → seg ∈ RawLine.segments line →
         inter ∈ sortedIntersections seg allSegments →
         (Intersection.otherId inter < RawLine.id line)%Z)
      ∧ ∀ line_i line_j seg_i seg_j d,
          line_i ∈ rawLines → line_j ∈ rawLines →
          (RawLine.id line_i < RawLine.id line_j)%Z →
          seg_i ∈ RawLine.segments line_i → seg_j ∈ RawLine.segments line_j →
          getIntersectionT seg_j seg_i = Some d →
          let crossing :=
            {| Intersection.t := d; Intersection.otherId := RawLine.id line_i |} in
          crossing ∈ sortedIntersections seg_j allSegments
          ∧ (∀ inter, inter ∈ sortedIntersections seg_i allSegments →
                      Intersection.otherId inter ≠ RawLine.id line_j)
          ∧ (∃ pm_j, finalPaths !! RawLine.id line_j = Some pm_j
               ∧ ((d <? LineSegment.len seg_j) = true →
                  (d <? d + BRIDGE_SIZE) = true →
                  curveOver allSegments (PathMetadata.pathData pm_j) seg_j d)
               ∧ ∃ earlier later,
                   sortedIntersections seg_j allSegments = earlier ++ crossing :: later
                   ∧ let currentT := drawnTo seg_j 0 earlier in
                     let startT := bridgeStart currentT d in
                     let endT := bridgeEnd seg_j d in
                     if endT <=? startT
                     then bridgesOf seg_j allSegments
                          = acceptedBridges seg_j 0 earlier
                            ++ acceptedBridges seg_j currentT later
                     else bridgesOf seg_j allSegments
                          = acceptedBridges seg_j 0 earlier
                            ++ {| Bridge.fromT := currentT; Bridge.startT := startT;
                                  Bridge.centerT := d; Bridge.endT := endT |}
                               :: acceptedBridges seg_j endT later
                          ∧ curveCentred allSegments (PathMetadata.pathData pm_j) seg_j d)
          ∧ (∃ pm_i, finalPaths !! RawLine.id line_i = Some pm_i
               ∧ ∀ control p,
                   Q control p ∈ PathMetadata.pathData pm_i →
                   ∃ seg inter, seg ∈ RawLine.segments line_i
                     ∧ inter ∈ sortedIntersections seg allSegments
                     ∧ control = controlPoint seg (Intersection.t inter)
                     ∧ (Intersection.otherId inter < RawLine.id line_i)%Z).
Proof.
  intros (rawLines & cw & Hgeo & ->)%calculate_inv Hnd.
  exists rawLines, cw. split; [done|]. split; [done|]. intros allSegments.
  pose proof (rawLines_NoDup _ _ _ _ Hgeo Hnd) as Hids.
  assert (∀ line seg inter,
            line ∈ rawLines → seg ∈ RawLine.segments line →
            inter ∈ sortedIntersections seg allSegments →
            (Intersection.otherId inter < RawLine.id line)%Z) as Hscan.
  { intros line seg inter Hline Hseg
      (other & _ & Hlt & _ & ->)%elem_of_sortedIntersections%elem_of_findIntersections.
    destruct (rawLines_segment _ _ _ _ _ _ Hgeo Hline Hseg) as (_ & <- & _). done. }
  split; [exact Hscan|].
  intros line_i line_j seg_i seg_j d Hi Hj Hlt Hsi Hsj Hd crossing.
  destruct (rawLines_segment _ _ _ _ _ _ Hgeo Hi Hsi) as (Hall_i & Hid_i & _).
  destruct (rawLines_segment _ _ _ _ _ _ Hgeo Hj Hsj) as (Hall_j & Hid_j & Hlen_j).
  assert (crossing ∈ sortedIntersections seg_j allSegments) as Hrec.
  { apply elem_of_sortedIntersections, elem_of_findIntersections.
    exists seg_i. simpl. repeat split; [done|lia|done|done]. }
  split; [exact Hrec|]. split.
  { intros inter Hinter%(Hscan line_i seg_i); [lia|done..]. }
  split.
  - eexists. split; [by apply renderLines_lookup_unique|]. split.
    + intros Hbefore Hfwd.
      destruct (recorded_crossing_spanned seg_j allSegments crossing Hlen_j Hrec Hbefore Hfwd)
        as (b & Hb & Hspan).
      exists b. eexists. split; [done|]. split; [done|].
      apply renderLine_curves. by exists seg_j, b.
    + pose proof Hrec as (earlier & later & Hsplit)%list_elem_of_split.
      exists earlier, later. split; [done|]. intros currentT startT endT.
      assert (bridgesOf seg_j allSegments
              = acceptedBridges seg_j 0 earlier
                ++ if endT <=? startT then acceptedBridges seg_j currentT later
                   else {| Bridge.fromT := currentT; Bridge.startT := startT;
                           Bridge.centerT := d; Bridge.endT := endT |}
                        :: acceptedBridges seg_j endT later) as Hbridges.
      { unfold bridgesOf. by rewrite Hsplit, acceptedBridges_app, acceptedBridges_cons. }
      destruct (endT <=? startT); [done|]. split; [done|].
      eexists. apply renderLine_curves.
      exists seg_j, {| Bridge.fromT := currentT; Bridge.startT := startT;
                       Bridge.centerT := d; Bridge.endT := endT |}.
      split; [done|]. split; [|done].
      revert Hbridges. unfold allSegments. intros ->.
      apply elem_of_app. right. apply list_elem_of_here.
  - eexists. split; [by apply renderLines_lookup_unique|].
    intros control p (seg & b & Hseg & Hb & -> & _)%renderLine_curves.
    destruct (acceptedBridges_center _ _ _ _ Hb) as (inter & Hinter & ->).
    exists seg, inter. repeat split; [done..|]. by eapply Hscan.
Qed.

End TieBreak.

(** On [closeItems], wire 3 crosses wire 1 at distance 70 along its middle
    segment, and its path has a curve over the crossing. *)
Lemma tie_break_higher_id_yields_witness :
  ∃ rawLines connectionWaypoints line seg pm,
    buildGeometry (layout := specLayout) crossingWires closeItems [] ∅
    = Return (rawLines, connectionWaypoints)
    ∧ line ∈ rawLines ∧ RawLine.id line = 3%Z ∧ seg ∈ RawLine.segments line
    ∧ pathsOf crossingWires closeItems !! 3%Z = Some pm
    ∧ curveOver (flat_map RawLine.segments rawLines) (PathMetadata.pathData pm) seg 70.
Proof.
  destruct (tie_break_higher_id_yields (layout := specLayout) crossingWires closeItems
              (pathsOf crossingWires closeItems) closeItems_paths crossingWires_NoDup)
    as (rawLines & cw & Hgeo & Hpaths & Hrule).
  cbv zeta in Hrule. destruct Hrule as [_ Hrule].
  pose proof Hgeo as Hgeo'. vm_compute in Hgeo'. injection Hgeo' as <- <-.
  lazymatch type of Hrule with
  | context [flat_map RawLine.segments [?line3; ?line1; _]] =>
      lazymatch line3 with
      | {| RawLine.segments := [_; ?middle3; _] |} =>
          lazymatch line1 with
          | {| RawLine.segments := [_; ?middle1; _] |} =>
              destruct (Hrule line1 line3 middle1 middle3 70)
                as (_ & _ & (pm & Hpm & Hover & _) & _);
                [ | | | | | |
                  eexists _, _, line3, middle3, pm ]
          end
      end
  end.
  - apply list_elem_of_further, list_elem_of_here.
  - apply list_elem_of_here.
  - reflexivity.
  - apply list_elem_of_further, list_elem_of_here.
  - apply list_elem_of_further, list_elem_of_here.
  - vm_compute. reflexivity.
  - split; [exact Hgeo|]. split; [apply list_elem_of_here|]. split; [reflexivity|].
    split; [apply list_elem_of_further, list_elem_of_here|].
    split; [rewrite Hpaths; exact Hpm|]. apply Hover; reflexivity.
Defined.

(** *** Where the wording of the tie-break rule fails

    On the mesh, wire 2 is crossed by wire 3 at distance 15 along its
    20-unit stub, inside the bridge from 0 to 20 that wire 2 draws over
    wire 1 (centred at 10): read as "a curve over the point", the rule fails
    for the lower id, whose path is not straight where wire 3 crosses it.
    Wire 4 crosses wires 1 and 3 at distances 10 and 15 along its stub; the
    bridge over wire 1 runs from 0 to 20, the end of the stub, so the bridge
    over wire 3 would start and end at 20 and is skipped: read as "a curve
    centred on the point", the rule fails for the higher id, whose path has
    no curve centred on its crossing with wire 3. *)
Lemma tie_break_counterexample :
  ¬ tieBreakAsStated (layout := specLayout) curveOver meshWires meshItems
  ∧ ¬ tieBreakAsStated (layout := specLayout) curveCentred meshWires meshItems.
Proof.
  split; intros Hclaim.
  - let r := eval vm_compute in
               (buildGeometry (layout := specLayout) meshWires meshItems [] ∅) in
    lazymatch r with
    | Return (?rawLines, ?cw) =>
        lazymatch rawLines with
        | [_; ?line2; ?line3; _] =>
            lazymatch line2 with
            | {| RawLine.segments := ?stub2 :: _ |} =>
                lazymatch line3 with
                | {| RawLine.segments := [_; ?vertical3; _] |} =>
                    let pm2 := eval vm_compute in
                      (renderLine (flat_map RawLine.segments rawLines) cw line2) in
                    let pm3 := eval vm_compute in
                      (renderLine (flat_map RawLine.segments rawLines) cw line3) in
                    destruct (Hclaim rawLines cw line2 line3 stub2 vertical3 15 75 pm2 pm3)
                      as [_ Hstraight]
                end
            end
        end
    end.
    + vm_compute. reflexivity.
    + apply list_elem_of_further, list_elem_of_here.
    + apply list_elem_of_further, list_elem_of_further, list_elem_of_here.
    + reflexivity.
    + apply list_elem_of_here.
    + apply list_elem_of_further, list_elem_of_here.
    + vm_compute. reflexivity.
    + vm_compute. reflexivity.
    + vm_compute. reflexivity.
    + vm_compute. reflexivity.
    + apply Hstraight.
      exists {| Bridge.fromT := 0; Bridge.startT := 0;
                Bridge.centerT := 10; Bridge.endT := 20 |},
             {| Point.x := 30; Point.y := 105 |}.
      split; [vm_compute; apply list_elem_of_here|].
      split; [split; vm_compute; reflexivity|].
      vm_compute. do 2 apply list_elem_of_further. apply list_elem_of_here.
  - let r := eval vm_compute in
               (buildGeometry (layout := specLayout) meshWires meshItems [] ∅) in
    lazymatch r with
    | Return (?rawLines, ?cw) =>
        lazymatch rawLines with
        | [_; _; ?line3; ?line4] =>
            lazymatch line3 with
            | {| RawLine.segments := [_; ?vertical3; _] |} =>
                lazymatch line4 with
                | {| RawLine.segments := ?stub4 :: _ |} =>
                    let pm3 := eval vm_compute in
                      (renderLine (flat_map RawLine.segments rawLines) cw line3) in
                    let pm4 := eval vm_compute in
                      (renderLine (flat_map RawLine.segments rawLines) cw line4) in
                    destruct (Hclaim rawLines cw line3 line4 vertical3 stub4 120 15 pm3 pm4)
                      as [[p Hq] _]
                end
            end
        end
    end.
    + vm_compute. reflexivity.
    + apply list_elem_of_further, list_elem_of_further, list_elem_of_here.
    + do 3 apply list_elem_of_further. apply list_elem_of_here.
    + reflexivity.
    + apply list_elem_of_further, list_elem_of_here.
    + apply list_elem_of_here.
    + vm_compute. reflexivity.
    + vm_compute. reflexivity.
    + vm_compute. reflexivity.
    + vm_compute. reflexivity.
    + vm_compute in Hq.
      repeat (apply elem_of_cons in Hq as [Hq|Hq]; [discriminate Hq|]).
      by apply elem_of_nil in Hq.
Qed.

(** *** Where a crossing gets no curve at all

    The two conditions under which the higher id is shown to have a curve
    over the crossing are needed.  Far from the origin, where adding 12 to
    the distance of the crossing gives the distance back, the interval of
    the bridge is empty; and on a segment whose length overflows, the
    distance of every crossing is infinite.  In both cases the segment of
    wire 2 crosses wire 1 and the path of wire 2 has no curve. *)
Example far_crossing_unbridged :
  ∃ rawLines connectionWaypoints line1 line2 first seg before post after d,
    buildGeometry (layout := specLayout) farWires farItems [] ∅
    = Return (rawLines, connectionWaypoints)
    ∧ rawLines = [line2; line1]
    ∧ RawLine.segments line2 = [first; seg]
    ∧ RawLine.segments line1 = [before; post; after]
    ∧ getIntersectionT seg post = Some d
    ∧ (d <? LineSegment.len seg) = true
    ∧ (d <? d + BRIDGE_SIZE) = false
    ∧ PathMetadata.pathData <$> pathsOf farWires farItems !! 2%Z
      = Some [ M {| Point.x := 10; Point.y := 105 |};
               L {| Point.x := 30; Point.y := 105 |};
               L {| Point.x := 0x1p60; Point.y := 105 |} ].
Proof.
  do 10 eexists. split; [vm_compute; reflexivity|]. split; [reflexivity|].
  split; [reflexivity|]. split; [reflexivity|].
  split; [vm_compute; reflexivity|]. repeat split; vm_compute; reflexivity.
Qed.

Example unbounded_crossing_unbridged :
  ∃ rawLines connectionWaypoints line1 line2 first seg before post after d,
    buildGeometry (layout := specLayout) farWires hugeItems [] ∅
    = Return (rawLines, connectionWaypoints)
    ∧ rawLines = [line2; line1]
    ∧ RawLine.segments line2 = [first; seg]
    ∧ RawLine.segments line1 = [before; post; after]
    ∧ getIntersectionT seg post = Some d
    ∧ (d <? LineSegment.len seg) = false
    ∧ PathMetadata.pathData <$> pathsOf farWires hugeItems !! 2%Z
      = Some [ M {| Point.x := 10; Point.y := 105 |};
               L {| Point.x := 30; Point.y := 105 |};
               L {| Point.x := 0x1p700; Point.y := 105 |} ].
Proof.
  do 10 eexists. split; [vm_compute; reflexivity|]. split; [reflexivity|].
  split; [reflexivity|]. split; [reflexivity|].
  split; [vm_compute; reflexivity|]. repeat split; vm_compute; reflexivity.
Qed.

(** ** The shape of a path, from the line it draws *)

Section PathOfLine.
Context {layout : Layout}.

(** The entry under an id is the drawing of the last line with that id. *)
Lemma fold_insert_lookup_split (rawLines : list RawLine) (allSegments : list LineSegment)
    (cw : gmap Z (list Point)) (k : Z) (pm : PathMetadata) :
  fold_left (λ (finalPaths : gmap Z PathMetadata) line,
               <[RawLine.id line := renderLine allSegments cw line]> finalPaths)
            rawLines ∅ !! k = Some pm →
  ∃ before line after,
    rawLines = before ++ line :: after
    ∧ RawLine.id line = k
    ∧ (∀ l, l ∈ after → RawLine.id l ≠ k)
    ∧ pm = renderLine allSegments cw line.
Proof.
  induction rawLines as [|line rawLines IH] using rev_ind; [done|].
  rewrite renderLines_snoc. destruct (decide (RawLine.id line = k)) as [<-|Hne].
  - rewrite lookup_insert_eq. intros [= <-]. exists rawLines, line, [].
    split; [done|]. split; [done|]. split; [|done]. by intros l ?%elem_of_nil.
  - rewrite lookup_insert_ne by done.
    intros (before & line' & after & -> & Hid & Hafter & Hpm)%IH.
    exists before, line', (after ++ [line]). rewrite <- app_assoc. split; [done|].
    split; [done|]. split; [|done].
    intros l [Hl| ->%list_elem_of_singleton]%elem_of_app; [by apply Hafter|done].
Qed.

(** The direction a built segment carries: the difference of its end
    points over its length, which is positive. *)
Lemma buildSegments_dir (connId : Z) (points : list Point) (seg : LineSegment) :
  seg ∈ buildSegments connId points →
  let diff := sub (LineSegment.p2 seg) (LineSegment.p1 seg) in
  LineSegment.len seg = len diff
  ∧ (0 <? len diff) = true
  ∧ LineSegment.dir seg = {| Point.x := Point.x diff / len diff;
                             Point.y := Point.y diff / len diff |}.
Proof.
  unfold buildSegments. intros Hin.
  apply list_elem_of_omap in Hin as ([p1 p2] & Hpair & Hseg).
  destruct (0 <? len (sub p2 p1)) eqn:Hlen; [|done].
  injection Hseg as <-. simpl. split; [done|]. split; [done|].
  unfold normalize. by rewrite (positive_not_zero _ Hlen).
Qed.

(** X9. Every entry of the returned map, under an id k, draws the last
    line built for k.  If that line has no segment (all points of the
    connection coincide) the path is empty and there is no end point.
    Otherwise the path is one move (M) to the start of the first segment
    followed by lines (L) and curves (Q) only, ending in a line to the end of
    the last segment; and the end point lies 4.5 back from that end along
    the last segment: at p2 - (p2 - p1) / |p2 - p1| * 4.5, coordinate by
    coordinate, with |p2 - p1| positive. *)
Theorem path_shape (connections : list Connection) (items : list CanvasItem)
    (finalPaths : gmap Z PathMetadata) (k : Z) (pm : PathMetadata) :
  calculateManualPathsWithBridges connections items = Return finalPaths →
  finalPaths !! k = Some pm →
  ∃ rawLines connectionWaypoints before line after,
    buildGeometry connections items [] ∅ = Return (rawLines, connectionWaypoints)
    ∧ rawLines = before ++ line :: after
    ∧ RawLine.id line = k
    ∧ (∀ l, l ∈ after → RawLine.id l ≠ k)
    ∧ match RawLine.segments line with
      | [] => PathMetadata.pathData pm = [] ∧ PathMetadata.endPoint pm = None
      | firstSeg :: _ =>
          ∃ body lastSeg,
            last (RawLine.segments line) = Some lastSeg
            ∧ PathMetadata.pathData pm = M (LineSegment.p1 firstSeg) :: body
            ∧ (∀ p, M p ∉ body)
            ∧ last body = Some (L (LineSegment.p2 lastSeg))
            ∧ let p1 := LineSegment.p1 lastSeg in
              let p2 := LineSegment.p2 lastSeg in
              let diff := sub p2 p1 in
              (0 <? len diff) = true
              ∧ PathMetadata.endPoint pm
                = Some {| Point.x := Point.x p2 - Point.x diff / len diff * 4.5;
                          Point.y := Point.y p2 - Point.y diff / len diff * 4.5 |}
      end.
Proof.
  intros Hcalc Hk.
  destruct (calculate_inv _ _ _ Hcalc) as (rawLines & cw & Hgeo & ->).
  apply fold_insert_lookup_split in Hk as (before & line & after & Hsplit & Hid & Hafter & ->).
  exists rawLines, cw, before, line, after. repeat (split; [done|]).
  pose proof (renderLine_shape (flat_map RawLine.segments rawLines) cw line) as H.
  cbv zeta in H. destruct (RawLine.segments line) as [|firstSeg rest] eqn:Hsegs; [done|].
  destruct H as (body & lastSeg & Hlast & Hpath & Hno & Hend & Hpoint).
  exists body, lastSeg. repeat (split; [done|]). intros p1 p2 diff.
  assert (line ∈ rawLines) as Hline.
  { rewrite Hsplit. apply elem_of_app. right. apply list_elem_of_here. }
  apply (buildGeometry_lines _ _ _ _ _ _ Hgeo) in Hline
    as [[]%elem_of_nil|(conn & bends & _ & Hroute)].
  destruct (routeConnection_inv _ _ _ _ Hroute) as (? & ? & ? & ? & _ & _ & _ & _ & Hinv).
  cbv zeta in Hinv. destruct Hinv as [_ Hline].
  assert (lastSeg ∈ RawLine.segments line) as Hin.
  { rewrite Hsegs. apply last_Some in Hlast as [front ->].
    apply elem_of_app. right. apply list_elem_of_here. }
  rewrite Hline in Hin. simpl in Hin.
  destruct (buildSegments_dir _ _ _ Hin) as (_ & Hpos & Hdir).
  split; [exact Hpos|]. rewrite Hpoint, Hdir. reflexivity.
Qed.

End PathOfLine.

Lemma path_shape_witness :
  ∃ pm, pathsOf crossingWires closeItems !! 3%Z = Some pm
    ∧ PathMetadata.endPoint pm = Some {| Point.x := 295.5; Point.y := 105 |}.
Proof.
  destruct (pathsOf crossingWires closeItems !! 3%Z) as [pm|] eqn:Hpm;
    [|vm_compute in Hpm; discriminate Hpm].
  exists pm. split; [reflexivity|].
  destruct (path_shape (layout := specLayout) crossingWires closeItems
              (pathsOf crossingWires closeItems) 3 pm closeItems_paths Hpm)
    as (rawLines & cw & before & line & after & Hgeo & Hsplit & Hid & Hafter & Hshape).
  vm_compute in Hgeo. injection Hgeo as <- <-.
  destruct before as [|l0 before].
  - injection Hsplit as <- <-. simpl in Hshape.
    destruct Hshape as (body & lastSeg & [= <-] & _ & _ & _ & _ & ->).
    vm_compute. reflexivity.
  - exfalso. injection Hsplit as <- Hsplit.
    destruct before as [|l1 before]; injection Hsplit as <- Hsplit;
      [vm_compute in Hid; discriminate Hid|].
    destruct before as [|l2 before]; [injection Hsplit as <- <-|by destruct before].
    vm_compute in Hid. discriminate Hid.
Defined.

Lemma onDragMove_axis_lock_witness :
  onDragMove {| Point.x := 60; Point.y := 105 |} {| Point.x := 90; Point.y := 110 |}
  = {| Point.x := 90; Point.y := 105 |}.
Proof.
  exact (proj1 (onDragMove_axis_lock {| Point.x := 60; Point.y := 105 |}
                  {| Point.x := 90; Point.y := 110 |}) eq_refl).
Defined.
